(** * Magic-Move code animation: block and step parser, playback
      timeline, export and token animation.

    Embedded from the TypeScript sources:
    - [src/app/lib/magicMove/parseLineMeta.ts]  ([parseLineMetaDetailed])
    - [src/app/lib/magicMove/parseMagicMove.ts] ([parseFencedBlocks],
      [stripFirstWord], [parseMagicMove])
    - [src/app/page.tsx] ([timeline], [renderAt], [onExport])

    The token animator ([app/lib/magicMove/animate.ts]) is not among the
    sources; module [Animate] models it from the specification.

    Conventions.  A JavaScript [number] is a [JSNumber]: not-a-number, an
    infinity, or a finite double given by its rational value; the
    arithmetic of module [Double] rounds each result to the nearest
    double, ties to even.  The times and durations of the page (timeline,
    frames, playhead, export) are such numbers.  The block index, which
    only meets [Math.max], [Math.min] and [length - 1], and the coordinates
    and opacities of the token animation, which is modelled from the
    specification, are canonical rationals ([Qc]).  A JavaScript string is
    the list of its UTF-16 code units.  A regular expression is embedded
    as the matcher it denotes under the backtracking semantics,
    priorities included. *)

From Stdlib Require Import Ascii String.
From Stdlib Require Import List Bool Arith ZArith NArith QArith Qcanon Qround Qabs Qpower.
From Stdlib Require Import Lqa Lia Permutation Sorted.
Import ListNotations.

Open Scope Qc_scope.

(** ** Exact numbers *)

Module Num.

(** Integer literal as a number. *)
Definition num (z : Z) : Qc := Q2Qc (inject_Z z).

(** A [length] or a loop index as a number. *)
Definition ofNat (n : nat) : Qc := num (Z.of_nat n).

(** [a <= b] and [a < b] as the booleans the program branches on. *)
Definition leb (a b : Qc) : bool := Qle_bool a b.
Definition ltb (a b : Qc) : bool := negb (Qle_bool b a).

(** [Math.max(a, b)] and [Math.min(a, b)] on finite numbers. *)
Definition Math_max (a b : Qc) : Qc := if leb a b then b else a.
Definition Math_min (a b : Qc) : Qc := if leb a b then a else b.

End Num.
Import Num.

(** ** Strings and the built-ins the parser calls *)

Module JS.

(** A string value: its UTF-16 code units. *)
Definition JSString : Set := list N.

(** A string literal of the source (ASCII only). *)
Definition str (s : String.string) : JSString :=
  map N_of_ascii (list_ascii_of_string s).

(** A character literal of the source. *)
Definition chr (a : ascii) : N := N_of_ascii a.

(** The string ["\n"]. *)
Definition lineFeed : JSString := [10%N].

(** [a === b] on strings. *)
Definition eqb (a b : JSString) : bool :=
  if list_eq_dec N.eq_dec a b then true else false.

(** [!s] for a string: the empty string is the only falsy one. *)
Definition isEmpty (s : JSString) : bool :=
  match s with [] => true | _ :: _ => false end.

(** LineTerminator: LF, CR, LS, PS.  These are the code units the regular
    expression atom [.] refuses. *)
Definition isLineTerminator (c : N) : bool :=
  ((c =? 10) || (c =? 13) || (c =? 8232) || (c =? 8233))%N.

(** WhiteSpace or LineTerminator: what [\s] matches and what [trim]
    removes (TAB, LF, VT, FF, CR, SP, NBSP, U+1680, U+2000..U+200A, LS, PS,
    U+202F, U+205F, U+3000, U+FEFF). *)
Definition isWhiteSpace (c : N) : bool :=
  (((9 <=? c) && (c <=? 13)) || (c =? 32) || (c =? 160) || (c =? 5760) ||
   ((8192 <=? c) && (c <=? 8202)) || (c =? 8232) || (c =? 8233) ||
   (c =? 8239) || (c =? 8287) || (c =? 12288) || (c =? 65279))%N.

Fixpoint dropWhile (p : N -> bool) (s : JSString) : JSString :=
  match s with
  | [] => []
  | c :: rest => if p c then dropWhile p rest else s
  end.

Fixpoint takeWhile (p : N -> bool) (s : JSString) : JSString :=
  match s with
  | [] => []
  | c :: rest => if p c then c :: takeWhile p rest else []
  end.

Definition trimStart (s : JSString) : JSString := dropWhile isWhiteSpace s.
Definition trimEnd (s : JSString) : JSString := rev (dropWhile isWhiteSpace (rev s)).

(** [s.trim()]. *)
Definition trim (s : JSString) : JSString := trimEnd (trimStart s).

(** [s.split(sep)] for a separator of one code unit: the pieces between
    the separators, one more than there are separators. *)
Fixpoint split (sep : N) (s : JSString) : list JSString :=
  match s with
  | [] => [[]]
  | c :: rest =>
      if (c =? sep)%N then [] :: split sep rest
      else match split sep rest with
           | [] => [[c]]
           | piece :: pieces => (c :: piece) :: pieces
           end
  end.

(** [lines.join(sep)]. *)
Fixpoint join (sep : JSString) (pieces : list JSString) : JSString :=
  match pieces with
  | [] => []
  | [piece] => piece
  | piece :: rest => piece ++ sep ++ join sep rest
  end.

(** [s.startsWith(prefix)]. *)
Fixpoint startsWith (prefix s : JSString) : bool :=
  match prefix, s with
  | [], _ => true
  | _ :: _, [] => false
  | a :: prefix', b :: s' => (a =? b)%N && startsWith prefix' s'
  end.

(** [s.replace(/\r\n/g, "\n")]. *)
Fixpoint replaceCRLF (s : JSString) : JSString :=
  match s with
  | [] => []
  | c :: rest =>
      match rest with
      | d :: rest' =>
          if ((c =? 13) && (d =? 10))%N then 10%N :: replaceCRLF rest'
          else c :: replaceCRLF rest
      | [] => [c]
      end
  end.

(** A number value as the parser meets it: not-a-number, an infinity, or a
    finite value. *)
Inductive JSNumber : Set :=
| NaN
| Infinity (negative : bool)
| Finite (q : Q).

(** [Number.isFinite(n)]. *)
Definition isFinite (n : JSNumber) : bool :=
  match n with Finite _ => true | _ => false end.

(** [n >= 1]. *)
Definition geOne (n : JSNumber) : bool :=
  match n with
  | NaN => false
  | Infinity negative => negb negative
  | Finite q => Qle_bool 1 q
  end.

(** [Math.floor(n)] of a finite number ([0] stands for the others, which
    the parser never floors). *)
Definition Math_floor (n : JSNumber) : Z :=
  match n with Finite q => Qfloor q | _ => 0%Z end.

(** Decimal rendering of an index, as a template literal inserts it. *)
Fixpoint digits (u : Decimal.uint) : JSString :=
  match u with
  | Decimal.Nil => []
  | Decimal.D0 u => 48%N :: digits u
  | Decimal.D1 u => 49%N :: digits u
  | Decimal.D2 u => 50%N :: digits u
  | Decimal.D3 u => 51%N :: digits u
  | Decimal.D4 u => 52%N :: digits u
  | Decimal.D5 u => 53%N :: digits u
  | Decimal.D6 u => 54%N :: digits u
  | Decimal.D7 u => 55%N :: digits u
  | Decimal.D8 u => 56%N :: digits u
  | Decimal.D9 u => 57%N :: digits u
  end.

Definition decimal (n : nat) : JSString := digits (Nat.to_uint n).

End JS.
Import JS.

(** ** The conversion [Number(value)]

    The parser is embedded over an arbitrary conversion from strings to
    numbers; this is the one the language defines (StringToNumber on a
    StringNumericLiteral, then rounding to the nearest double, ties to
    even), used to run the parser on concrete documents. *)

Module ToNumber.

Definition digitValue (c : N) : option N :=
  if ((48 <=? c) && (c <=? 57))%N then Some (c - 48)%N
  else if ((97 <=? c) && (c <=? 102))%N then Some (c - 87)%N
  else if ((65 <=? c) && (c <=? 70))%N then Some (c - 55)%N
  else None.

Fixpoint digitsValue (base : N) (s : JSString) (acc : N) : option N :=
  match s with
  | [] => Some acc
  | c :: rest =>
      match digitValue c with
      | Some d =>
          if (d <? base)%N then digitsValue base rest (acc * base + d)%N else None
      | None => None
      end
  end.

(** One or more digits of the base. *)
Definition natural (base : N) (s : JSString) : option N :=
  if isEmpty s then None else digitsValue base s 0%N.

(** [s] cut at its first code unit satisfying [p]. *)
Fixpoint cutAt (p : N -> bool) (s : JSString) : JSString * option JSString :=
  match s with
  | [] => ([], None)
  | c :: rest =>
      if p c then ([], Some rest)
      else let (before, after) := cutAt p rest in (c :: before, after)
  end.

(** A leading sign. *)
Definition sign (s : JSString) : bool * JSString :=
  match s with
  | c :: rest =>
      if (c =? chr "-")%N then (true, rest)
      else if (c =? chr "+")%N then (false, rest)
      else (false, s)
  | [] => (false, s)
  end.

Definition pow10 (z : Z) : Q :=
  if (0 <=? z)%Z then inject_Z (10 ^ z) else (1 # Z.to_pos (10 ^ (- z)))%Q.

Definition pow2 (z : Z) : Q :=
  if (0 <=? z)%Z then inject_Z (2 ^ z) else (1 # Z.to_pos (2 ^ (- z)))%Q.

(** StrUnsignedDecimalLiteral without [Infinity]: digits, an optional
    fraction, an optional exponent; digits are required on at least one
    side of the point. *)
Definition unsignedDecimal (s : JSString) : option Q :=
  let (mantissa, exponentPart) :=
    cutAt (fun c => (c =? chr "e")%N || (c =? chr "E")%N) s in
  let (intPart, fracPart) := cutAt (fun c => (c =? chr ".")%N) mantissa in
  let exponent :=
    match exponentPart with
    | None => Some 0%Z
    | Some e =>
        let (negative, ds) := sign e in
        match natural 10 ds with
        | Some v => Some (if negative then (- Z.of_N v)%Z else Z.of_N v)
        | None => None
        end
    end in
  let significand :=
    match fracPart with
    | None =>
        match natural 10 intPart with
        | Some i => Some (inject_Z (Z.of_N i))
        | None => None
        end
    | Some f =>
        let scale := pow10 (- Z.of_nat (List.length f)) in
        match isEmpty intPart, isEmpty f with
        | true, true => None
        | _, _ =>
            match digitsValue 10 intPart 0%N, digitsValue 10 f 0%N with
            | Some i, Some fv =>
                Some (inject_Z (Z.of_N i) + inject_Z (Z.of_N fv) * scale)%Q
            | _, _ => None
            end
        end
    end in
  match significand, exponent with
  | Some m, Some e => Some (m * pow10 e)%Q
  | _, _ => None
  end.

(** [0x], [0o] and [0b] integers. *)
Definition nonDecimal (s : JSString) : option N :=
  match s with
  | z :: b :: ds =>
      if (z =? chr "0")%N then
        if ((b =? chr "x") || (b =? chr "X"))%N then natural 16 ds
        else if ((b =? chr "o") || (b =? chr "O"))%N then natural 8 ds
        else if ((b =? chr "b") || (b =? chr "B"))%N then natural 2 ds
        else None
      else None
  | _ => None
  end.

Definition roundHalfEven (x : Q) : Z :=
  let f := Qfloor x in
  match Qcompare (x - inject_Z f) (1 # 2) with
  | Lt => f
  | Gt => (f + 1)%Z
  | Eq => if Z.even f then f else (f + 1)%Z
  end.

(** The binary order of magnitude of a positive [a]: the [e] with
    [2^e <= a < 2^(e+1)]. *)
Definition magnitude (a : Q) : Z :=
  let e0 := (Z.log2 (Qnum a) - Z.log2 (Zpos (Qden a)))%Z in
  if Qle_bool (pow2 e0) a then e0 else (e0 - 1)%Z.

(** The exponent of the double nearest to [a]: that of [a] itself, or the
    smallest normal one for the subnormal numbers. *)
Definition exponentOf (a : Q) : Z := Z.max (magnitude a) (-1022).

(** The nearest multiple of the unit in the last place of [a], which has
    53 significant bits. *)
Definition roundMagnitude (a : Q) : Q :=
  let ulp := pow2 (exponentOf a - 52) in
  (inject_Z (roundHalfEven (a / ulp)) * ulp)%Q.

(** The double nearest to [q] (ties to even), or an infinity past the
    largest double. *)
Definition roundToDouble (q : Q) : JSNumber :=
  if Qeq_bool q 0 then Finite 0
  else
    let negative := negb (Qle_bool 0 q) in
    let r := roundMagnitude (Qabs q) in
    if Qle_bool (pow2 1024) r then Infinity negative
    else Finite (Qred (if negative then - r else r)).

(** StringToNumber. *)
Definition StringToNumber (s : JSString) : JSNumber :=
  let s := trim s in
  if isEmpty s then Finite 0
  else
    match nonDecimal s with
    | Some n => roundToDouble (inject_Z (Z.of_N n))
    | None =>
        let (negative, body) := sign s in
        if eqb body (str "Infinity") then Infinity negative
        else
          match unsignedDecimal body with
          | Some q => roundToDouble (if negative then - q else q)
          | None => NaN
          end
    end.

(** [Number(value)] for a string or [undefined]. *)
Definition Number (value : option JSString) : JSNumber :=
  match value with
  | None => NaN
  | Some s => StringToNumber s
  end.

End ToNumber.

(** ** Arithmetic on numbers

    The operators of the language on [number] values, which are doubles:
    the result of an operation on finite operands is the exact result
    rounded to the nearest double, an infinity past the largest one.  The
    sign of a zero is not modelled: none of the code embedded here divides
    by a zero or tells the two zeros apart. *)

Module Double.

(** An integer literal, and a [length] or an index, as a number.  The
    length of an array is below [2^32], so it is a double. *)
Definition ofZ (z : Z) : JSNumber := Finite (inject_Z z).
Definition ofNat (n : nat) : JSNumber := ofZ (Z.of_nat n).

Definition isNegative (q : Q) : bool := negb (Qle_bool 0 q).

(** [a + b]. *)
Definition add (a b : JSNumber) : JSNumber :=
  match a, b with
  | NaN, _ | _, NaN => NaN
  | Infinity s, Infinity s' => if Bool.eqb s s' then Infinity s else NaN
  | Infinity s, Finite _ => Infinity s
  | Finite _, Infinity s => Infinity s
  | Finite p, Finite q => ToNumber.roundToDouble (p + q)
  end.

(** [a - b]. *)
Definition sub (a b : JSNumber) : JSNumber :=
  match a, b with
  | NaN, _ | _, NaN => NaN
  | Infinity s, Infinity s' => if Bool.eqb s s' then NaN else Infinity s
  | Infinity s, Finite _ => Infinity s
  | Finite _, Infinity s => Infinity (negb s)
  | Finite p, Finite q => ToNumber.roundToDouble (p - q)
  end.

(** [a * b]. *)
Definition mul (a b : JSNumber) : JSNumber :=
  match a, b with
  | NaN, _ | _, NaN => NaN
  | Infinity s, Infinity s' => Infinity (xorb s s')
  | Infinity s, Finite q | Finite q, Infinity s =>
      if Qeq_bool q 0 then NaN else Infinity (xorb s (isNegative q))
  | Finite p, Finite q => ToNumber.roundToDouble (p * q)
  end.

(** [a / b]. *)
Definition div (a b : JSNumber) : JSNumber :=
  match a, b with
  | NaN, _ | _, NaN => NaN
  | Infinity _, Infinity _ => NaN
  | Infinity s, Finite q => Infinity (xorb s (isNegative q))
  | Finite _, Infinity _ => Finite 0
  | Finite p, Finite q =>
      if Qeq_bool q 0 then (if Qeq_bool p 0 then NaN else Infinity (isNegative p))
      else ToNumber.roundToDouble (p / q)
  end.

(** [a <= b] and [a < b]: false when either side is not-a-number. *)
Definition leb (a b : JSNumber) : bool :=
  match a, b with
  | NaN, _ => false
  | _, NaN => false
  | Infinity true, _ => true
  | Infinity false, Infinity false => true
  | Infinity false, _ => false
  | Finite _, Infinity negative => negb negative
  | Finite p, Finite q => Qle_bool p q
  end.

Definition ltb (a b : JSNumber) : bool :=
  match a, b with
  | NaN, _ => false
  | _, NaN => false
  | Infinity true, Infinity true => false
  | Infinity true, _ => true
  | Infinity false, _ => false
  | Finite _, Infinity negative => negb negative
  | Finite p, Finite q => negb (Qle_bool q p)
  end.

(** [a === b] on numbers. *)
Definition eqb (a b : JSNumber) : bool :=
  match a, b with
  | Finite p, Finite q => Qeq_bool p q
  | Infinity s, Infinity s' => Bool.eqb s s'
  | _, _ => false
  end.

(** [Math.max(a, b)] and [Math.min(a, b)]: not-a-number if either is. *)
Definition mathMax (a b : JSNumber) : JSNumber :=
  match a, b with
  | NaN, _ | _, NaN => NaN
  | Infinity false, _ | _, Infinity false => Infinity false
  | Infinity true, x | x, Infinity true => x
  | Finite p, Finite q => Finite (if Qle_bool p q then q else p)
  end.

Definition mathMin (a b : JSNumber) : JSNumber :=
  match a, b with
  | NaN, _ | _, NaN => NaN
  | Infinity true, _ | _, Infinity true => Infinity true
  | Infinity false, x | x, Infinity false => x
  | Finite p, Finite q => Finite (if Qle_bool p q then p else q)
  end.

(** A number that is at least zero, and one that is so unless it is
    not-a-number. *)
Definition nonneg (a : JSNumber) : Prop := leb (ofZ 0) a = true.
Definition nonnegOrNaN (a : JSNumber) : Prop := a = NaN \/ nonneg a.

End Double.

(** ** [parseLineMeta.ts] *)

Module LineMeta.

(** [MagicMoveStepMeta].  [startLine] only ever holds the default [1] or a
    [Math.floor] result, so it is an integer. *)
Record Meta : Set := mkMeta {
  lines : bool;
  startLine : Z
}.

(** The [specified] object of [LineMetaParseResult]. *)
Record Specified : Set := mkSpecified {
  specLines : bool;
  specStartLine : bool
}.

Record LineMetaParseResult : Set := mkResult {
  meta : Meta;
  specified : Specified
}.

(** The captures of [info.matchAll(re)] for [re = /\{( [^}]* )\}/g]: scanning left to
    right, each [{] opens a group that runs to the next [}]; a [{] with no
    [}] after it matches nothing.  [open] holds the code units read since
    the opening [{], newest first. *)
Fixpoint braceGroups (info : JSString) (open : option JSString) : list JSString :=
  match info with
  | [] => []
  | c :: rest =>
      match open with
      | None =>
          if (c =? chr "{")%N then braceGroups rest (Some [])
          else braceGroups rest None
      | Some acc =>
          if (c =? chr "}")%N then rev acc :: braceGroups rest None
          else braceGroups rest (Some (c :: acc))
      end
  end.

(** [const [rawKey, rawValue] = part.split(":").map((s) => s?.trim())]:
    [rawValue] is [undefined] ([None]) when there is no colon. *)
Definition keyOf (part : JSString) : JSString :=
  match split (chr ":") part with
  | k :: _ => trim k
  | [] => []
  end.

Definition valueOf (part : JSString) : option JSString :=
  match split (chr ":") part with
  | _ :: v :: _ => Some (trim v)
  | _ => None
  end.

(** The [rawPart]s the two loops of [parseLineMetaDetailed] visit, in
    order. *)
Definition rawParts (info : JSString) : list JSString :=
  flat_map (split (chr ",")) (braceGroups info None).

Section WithNumber.

(** The built-in [Number(value)], [None] being [undefined]. *)
Variable Number : option JSString -> JSNumber.

(** The body of the inner [for] loop, on the result under construction. *)
Definition processPart (r : LineMetaParseResult) (rawPart : JSString)
    : LineMetaParseResult :=
  let part := trim rawPart in
  if isEmpty part then r
  else
    let rawKey := keyOf part in
    let rawValue := valueOf part in
    if isEmpty rawKey then r
    else if eqb rawKey (str "lines") then
      mkResult
        (mkMeta (match rawValue with
                 | Some v => eqb v (str "true")
                 | None => false
                 end)
                (startLine (meta r)))
        (mkSpecified true (specStartLine (specified r)))
    else if eqb rawKey (str "startLine") then
      let n := Number rawValue in
      if isFinite n && geOne n then
        mkResult (mkMeta (lines (meta r)) (Math_floor n))
                 (mkSpecified (specLines (specified r)) true)
      else r
    else r.

(** The body of the outer [for] loop. *)
Definition processBlock (r : LineMetaParseResult) (block : JSString)
    : LineMetaParseResult :=
  fold_left processPart (split (chr ",") block) r.

(** [parseLineMetaDetailed(info)], [None] being [undefined]. *)
Definition parseLineMetaDetailed (info : option JSString) : LineMetaParseResult :=
  let r := mkResult (mkMeta false 1) (mkSpecified false false) in
  match info with
  | None => r
  | Some info =>
      if isEmpty info then r
      else
        let blocks := braceGroups info None in
        fold_left processBlock blocks r
  end.

End WithNumber.

End LineMeta.

(** ** [parseMagicMove.ts] *)

Module MagicMove.
Import LineMeta.

Record Fence : Set := mkFence {
  fence : JSString;
  info : JSString;
  body : JSString
}.

(** [line.match(re)] for [re = /^(`{3,})( .* )$/]: the leading backticks, at least three,
    and the rest of the line, which must hold no line terminator for [.*]
    to reach the end of the string. *)
Definition matchOpen (line : JSString) : option (JSString * JSString) :=
  let ticks := takeWhile (fun c => (c =? chr "`")%N) line in
  let rest := dropWhile (fun c => (c =? chr "`")%N) line in
  if (3 <=? length ticks)%nat && forallb (fun c => negb (isLineTerminator c)) rest
  then Some (ticks, rest)
  else None.

(** The two nested [while] loops of [parseFencedBlocks], over the lines
    still to read.  [open] is [None] while the outer loop looks for an
    opening fence; inside a fence it holds the fence, its info and the
    body lines read so far, newest first.  A fence still open at the end
    of the input is pushed and ends the scan. *)
Fixpoint scanLines (lines : list JSString)
    (open : option (JSString * JSString * list JSString)) : list Fence :=
  match lines with
  | [] =>
      match open with
      | None => []
      | Some (f, i, bodyLines) => [mkFence f i (join lineFeed (rev bodyLines))]
      end
  | l :: rest =>
      match open with
      | None =>
          match matchOpen l with
          | None => scanLines rest None
          | Some (f, rawInfo) => scanLines rest (Some (f, trim rawInfo, []))
          end
      | Some (f, i, bodyLines) =>
          if startsWith f l then
            mkFence f i (join lineFeed (rev bodyLines)) :: scanLines rest None
          else scanLines rest (Some (f, i, l :: bodyLines))
      end
  end.

Definition parseFencedBlocks (input : JSString) : list Fence :=
  let lines := split 10 (replaceCRLF input) in
  scanLines lines None.

(** [stripFirstWord(info)], by [/^(\S+)(?:\s+( .* ))?$/]: the first word is
    the longest prefix free of white space; what follows it is either
    nothing, or white space and then a remainder free of line terminators.
    Anything else does not match and gives two empty strings. *)
Definition stripFirstWord (info : JSString) : JSString * JSString :=
  let first := takeWhile (fun c => negb (isWhiteSpace c)) info in
  let after := dropWhile (fun c => negb (isWhiteSpace c)) info in
  if isEmpty first then ([], [])
  else if isEmpty after then (first, [])
  else
    let rest := dropWhile isWhiteSpace after in
    if forallb (fun c => negb (isLineTerminator c)) rest then (first, trim rest)
    else ([], []).

(** [MagicMoveStep]. *)
Record Step : Set := mkStep {
  lang : JSString;
  code : JSString;
  stepMeta : Meta
}.

(** [MagicMoveBlock]. *)
Record Block : Set := mkBlock {
  kind : JSString;
  outerMeta : Meta;
  steps : list Step;
  errors : list JSString
}.

(** [MagicMoveParseResult]. *)
Record ParseResult : Set := mkParseResult {
  blocks : list Block;
  docErrors : list JSString
}.

(** One match of the wrapper expression: its groups 2, 3 and 4. *)
Record Wrapper : Set := mkWrapper {
  group2 : JSString;
  group3 : JSString;
  group4 : JSString
}.

(** ["\n````(?=\n|$)"] at the head of [s]. *)
Definition closesHere (s : JSString) : bool :=
  startsWith (lineFeed ++ str "````") s &&
  match skipn 5 s with
  | [] => true
  | c :: _ => (c =? 10)%N
  end.

(** The lazy [([\s\S]*?)] followed by the closing fence: the first place
    where the closing fence matches.  Gives group 4 and what follows the
    match. *)
Fixpoint findClose (s : JSString) (acc : JSString) : option (JSString * JSString) :=
  if closesHere s then Some (rev acc, skipn 5 s)
  else match s with
       | [] => None
       | c :: rest => findClose rest (c :: acc)
       end.

(** [( [^\n]* )\n]: the text up to the next line feed, and what follows it. *)
Fixpoint upToLineFeed (s : JSString) (acc : JSString) : option (JSString * JSString) :=
  match s with
  | [] => None
  | c :: rest =>
      if (c =? 10)%N then Some (rev acc, rest) else upToLineFeed rest (c :: acc)
  end.

(** [\s*( [^\n]* )\n( [\s\S]*? )\n````(?=\n|$)] after the keyword: the greedy
    [\s*] first takes all [k] white-space code units, and gives them back
    one at a time while the rest fails to match. *)
Fixpoint afterKeyword (s : JSString) (k : nat) : option (JSString * JSString * JSString) :=
  let attempt :=
    match upToLineFeed (skipn k s) [] with
    | Some (g3, inner) =>
        match findClose inner [] with
        | Some (g4, rest) => Some (g3, g4, rest)
        | None => None
        end
    | None => None
    end in
  match attempt with
  | Some r => Some r
  | None =>
      match k with
      | O => None
      | S k' => afterKeyword s k'
      end
  end.

(** [(md\s+magic-move|shiki-magic-move)]: the matched text and what
    follows it. *)
Definition keyword (s : JSString) : option (JSString * JSString) :=
  if startsWith (str "md") s then
    let s1 := skipn 2 s in
    let ws := takeWhile isWhiteSpace s1 in
    let s2 := dropWhile isWhiteSpace s1 in
    if negb (isEmpty ws) && startsWith (str "magic-move") s2
    then Some (str "md" ++ ws ++ str "magic-move", skipn 10 s2)
    else None
  else if startsWith (str "shiki-magic-move") s
  then Some (str "shiki-magic-move", skipn 16 s)
  else None.

(** The expression from its four backticks on. *)
Definition fromBackticks (s : JSString) : option (Wrapper * JSString) :=
  if startsWith (str "````") s then
    match keyword (dropWhile isWhiteSpace (skipn 4 s)) with
    | Some (g2, s1) =>
        match afterKeyword s1 (length (takeWhile isWhiteSpace s1)) with
        | Some (g3, g4, rest) => Some (mkWrapper g2 g3 g4, rest)
        | None => None
        end
    | None => None
    end
  else None.

(** One attempt of the wrapper expression at the head of [s]; [atStart]
    says that [s] is the whole input, where [^] matches.  Gives the match
    and what follows it. *)
Definition matchHere (atStart : bool) (s : JSString) : option (Wrapper * JSString) :=
  match (if atStart then fromBackticks s else None) with
  | Some r => Some r
  | None =>
      match s with
      | c :: rest => if (c =? 10)%N then fromBackticks rest else None
      | [] => None
      end
  end.

(** [input.matchAll(re)]: the matches from left to right, each search
    resuming where the previous match ended.  [skip] counts the code
    units of the current match still to step over. *)
Fixpoint matchAllFrom (s : JSString) (atStart : bool) (skip : nat) : list Wrapper :=
  match skip with
  | S skip' =>
      match s with
      | [] => []
      | _ :: rest => matchAllFrom rest false skip'
      end
  | O =>
      match s with
      | [] => []
      | _ :: rest =>
          match matchHere atStart s with
          | Some (w, after) =>
              w :: matchAllFrom rest false (length s - length after - 1)
          | None => matchAllFrom rest false 0
          end
      end
  end.

Definition matchAll (input : JSString) : list Wrapper :=
  matchAllFrom input true 0.

Section WithNumber.

Variable Number : option JSString -> JSNumber.

(** The body of [for (const f of fences)]: [None] is [continue]. *)
Definition stepOfFence (outer : Meta) (f : Fence) : option Step :=
  if negb (eqb (fence f) (str "```")) then None
  else
    let (first, rest) := stripFirstWord (info f) in
    let parsed := parseLineMetaDetailed Number (Some rest) in
    let m :=
      mkMeta
        (if specLines (specified parsed) then lines (meta parsed) else lines outer)
        (if specStartLine (specified parsed) then startLine (meta parsed)
         else startLine outer) in
    Some (mkStep (if isEmpty first then str "text" else first) (body f) m).

Fixpoint stepsOfFences (outer : Meta) (fences : list Fence) : list Step :=
  match fences with
  | [] => []
  | f :: rest =>
      match stepOfFence outer f with
      | Some s => s :: stepsOfFences outer rest
      | None => stepsOfFences outer rest
      end
  end.

(** [`Step ${idx + 1}: startLine must be >= 1`]. *)
Definition startLineError (idx : nat) : JSString :=
  str "Step " ++ decimal (idx + 1) ++ str ": startLine must be >= 1".

(** [for (const [idx, s] of steps.entries()) ...]. *)
Fixpoint startLineErrors (idx : nat) (ss : list Step) : list JSString :=
  match ss with
  | [] => []
  | s :: rest =>
      (if (startLine (stepMeta s) <? 1)%Z then [startLineError idx] else [])
      ++ startLineErrors (idx + 1) rest
  end.

Definition noStepsError : JSString :=
  str "No code steps found inside this magic-move block.".

(** The body of [for (const m of input.matchAll(re))]. *)
Definition blockOfWrapper (w : Wrapper) : Block :=
  let kind := trim (group2 w) in
  let outerInfo := trim (group3 w) in
  let inner := group4 w in
  let outerMeta := meta (parseLineMetaDetailed Number (Some outerInfo)) in
  let fences := parseFencedBlocks inner in
  let steps := stepsOfFences outerMeta fences in
  let errors :=
    (if (length steps =? 0)%nat then [noStepsError] else [])
    ++ startLineErrors 0 steps in
  mkBlock kind outerMeta steps errors.

Definition noBlocksError : JSString :=
  str "No magic-move blocks found." ++ lineFeed ++ lineFeed ++
  str "Supported formats:" ++ lineFeed ++
  str "- ````md magic-move ... ```` (4 backticks)" ++ lineFeed ++
  str "- ````shiki-magic-move {lines:true} ... ```` (4 backticks)" ++ lineFeed ++
  lineFeed ++
  str "Inside, include multiple triple-backtick code fences (```lang ... ```).".

(** [parseMagicMove(input)]. *)
Definition parseMagicMove (input : JSString) : ParseResult :=
  let blocks := map blockOfWrapper (matchAll input) in
  mkParseResult blocks
    (if (length blocks =? 0)%nat then [noBlocksError] else []).

End WithNumber.

End MagicMove.

(** ** [page.tsx]: timeline, time-to-frame mapping, export *)

Module Page.
Import Double.

(** The object returned by the [timeline] memo. *)
Record Timeline : Set := mkTimeline {
  totalMs : JSNumber;
  startHold : JSNumber;
  betweenHold : JSNumber;
  endHold : JSNumber
}.

(** [timeline]: [stepCount] is [steps.length]; [transitionMs] is the
    component state of that name, a finite number: it starts at 800 and is
    only set from the slider, or through the clamp of the transition box.
    The three holds are the constants the memo declares.  The sum is
    evaluated as the code writes it, from the left, each operation
    rounding. *)
Definition timeline (stepCount : nat) (transitionMs : Q) : Timeline :=
  let startHold := ofZ 250 in
  let betweenHold := ofZ 120 in
  let endHold := ofZ 250 in
  if (stepCount <=? 1)%nat then
    mkTimeline (add startHold endHold) startHold betweenHold endHold
  else
    let transitions := ofNat (stepCount - 1) in
    let totalMs :=
      add (add (add startHold (mul transitions (Finite transitionMs)))
               (mul transitions betweenHold)) endHold in
    mkTimeline totalMs startHold betweenHold endHold.

(** What one call of [renderAt] hands to [drawCodeFrame].
    - [Holding i]: the static frame of [stepLayouts[i]] (its layout, its
      [showLineNumbers], [startLine] and [tokenLineCount], no token
      override).
    - [Transitioning i j p]: the frame of [stepLayouts[j]] with the tokens
      [animateLayouts({from: stepLayouts[i].layout, to: stepLayouts[j].layout,
      progress: p})], line numbers shown when either step shows them.
    The sizing of the canvas that precedes the drawing is left out. *)
Inductive Frame : Set :=
| Holding (step : nat)
| Transitioning (from to : nat) (progress : JSNumber).

(** The [for (let i = 0; i < steps - 1; i++)] loop of [renderAt], with the
    mutable [t] threaded through.  [remaining] is the number of iterations
    still to run, [steps - 1 - i]; when it reaches zero the code after the
    loop draws the last step. *)
Fixpoint pairLoop (tl : Timeline) (transitionMs : Q) (steps : nat)
    (remaining i : nat) (t : JSNumber) : Frame :=
  match remaining with
  | O => Holding (steps - 1)
  | S remaining' =>
      if leb t (Finite transitionMs) then
        let progress :=
          if leb (Finite transitionMs) (ofZ 0) then ofZ 1
          else div t (Finite transitionMs) in
        Transitioning i (i + 1) progress
      else
        let t := sub t (Finite transitionMs) in
        if leb t (betweenHold tl) then Holding (i + 1)
        else
          let t := sub t (betweenHold tl) in
          pairLoop tl transitionMs steps remaining' (i + 1) t
  end.

(** [renderAt(ms)].  [canvas] says that [canvasRef.current] and its 2D
    context exist; [stepLayouts] is [stepLayouts.length], [0] also standing
    for [stepLayouts === null].  [ms] is any number: the playhead can be
    set from a division by the width of the progress bar.  [None] is the
    early [return] that draws nothing. *)
Definition renderAt (canvas : bool) (stepLayouts : nat) (tl : Timeline)
    (transitionMs : Q) (ms : JSNumber) : option Frame :=
  if negb canvas || (stepLayouts =? 0)%nat then None
  else
    let clampMs := mathMax (ofZ 0) (mathMin (totalMs tl) ms) in
    let steps := stepLayouts in
    if (steps =? 1)%nat then Some (Holding 0)
    else
      let t := clampMs in
      if ltb t (startHold tl) then Some (Holding 0)
      else
        let t := sub t (startHold tl) in
        Some (pairLoop tl transitionMs steps (steps - 1) 0 t).

(** The value of the loop's [t] on entering its iteration [i], every
    earlier iteration having run to its end; [t0] is the value on entering
    the loop. *)
Fixpoint remainingAt (tl : Timeline) (transitionMs : Q) (t0 : JSNumber) (i : nat)
    : JSNumber :=
  match i with
  | O => t0
  | S j => sub (sub (remainingAt tl transitionMs t0 j) (Finite transitionMs))
               (betweenHold tl)
  end.

(** *** Export *)

(** What the [onExport] closure captured when it was created. *)
Record Env : Set := mkEnv {
  canvas : bool;          (* [canvasRef.current] (and its 2D context) exists *)
  stepLayouts : nat;      (* [stepLayouts.length], [0] also for [null] *)
  tl : Timeline;          (* [timeline] *)
  transitionMs : Q
}.

(** The component state [onExport] writes, with the log of what was drawn
    and of the object URLs revoked.  [frames] lists the [renderAt] calls,
    oldest first, each with its argument and the frame it drew. *)
Record State : Set := mkState {
  isExporting : bool;
  exportProgress : JSNumber;
  downloadUrl : option nat;
  layoutError : option JSString;
  playheadMs : JSNumber;
  revoked : list nat;
  frames : list (JSNumber * option Frame)
}.

(** The export's own render loop: the local [cancelled] flag and whether a
    [requestAnimationFrame(renderLoop)] callback is pending. *)
Record Loop : Set := mkLoop {
  cancelled : bool;
  scheduled : bool
}.

(** What happens while [await recordCanvasToWebm(...)] is pending: the
    browser runs the pending [renderLoop] callback ([elapsed] is
    [performance.now() - start]), or the recorder calls [onProgress]. *)
Inductive Event : Set :=
| AnimationFrame (elapsed : JSNumber)
| Progress (elapsed total : JSNumber).

(** A thrown value: an [Error] with its message, or anything else. *)
Inductive Thrown : Set :=
| ErrorObject (message : JSString)
| OtherValue.

(** How the [try] block ends: the recording resolves with a blob whose
    object URL is [url]; it resolves but [URL.createObjectURL] throws; or
    the recording rejects. *)
Inductive Outcome : Set :=
| Resolved (url : nat)
| ResolvedUrlThrows (e : Thrown)
| Rejected (e : Thrown).

Definition callRenderAt (env : Env) (ms : JSNumber) (st : State) : State :=
  mkState (isExporting st) (exportProgress st) (downloadUrl st) (layoutError st)
    (playheadMs st) (revoked st)
    (frames st ++ [(ms, renderAt (canvas env) (stepLayouts env) (tl env)
                          (transitionMs env) ms)]).

Definition setIsExporting (v : bool) (st : State) : State :=
  mkState v (exportProgress st) (downloadUrl st) (layoutError st)
    (playheadMs st) (revoked st) (frames st).

Definition setExportProgress (v : JSNumber) (st : State) : State :=
  mkState (isExporting st) v (downloadUrl st) (layoutError st)
    (playheadMs st) (revoked st) (frames st).

Definition setDownloadUrl (v : option nat) (st : State) : State :=
  mkState (isExporting st) (exportProgress st) v (layoutError st)
    (playheadMs st) (revoked st) (frames st).

Definition setLayoutError (v : option JSString) (st : State) : State :=
  mkState (isExporting st) (exportProgress st) (downloadUrl st) v
    (playheadMs st) (revoked st) (frames st).

Definition setPlayheadMs (v : JSNumber) (st : State) : State :=
  mkState (isExporting st) (exportProgress st) (downloadUrl st) (layoutError st)
    v (revoked st) (frames st).

Definition revokeObjectURL (st : State) : State :=
  match downloadUrl st with
  | Some url =>
      mkState (isExporting st) (exportProgress st) (downloadUrl st)
        (layoutError st) (playheadMs st) (revoked st ++ [url]) (frames st)
  | None => st
  end.

(** One run of the [renderLoop] callback. *)
Definition renderLoop (env : Env) (durationMs elapsed : JSNumber)
    (s : State * Loop) : State * Loop :=
  let (st, lp) := s in
  if negb (scheduled lp) then s
  else if cancelled lp then (st, mkLoop (cancelled lp) false)
  else
    let st := callRenderAt env elapsed st in
    (st, mkLoop (cancelled lp) (ltb elapsed durationMs)).

(** The [onProgress] callback handed to the recorder. *)
Definition onProgress (elapsed total : JSNumber) (st : State) : State :=
  setExportProgress (if leb total (ofZ 0) then ofZ 0 else div elapsed total) st.

Definition handleEvent (env : Env) (durationMs : JSNumber)
    (s : State * Loop) (ev : Event) : State * Loop :=
  match ev with
  | AnimationFrame elapsed => renderLoop env durationMs elapsed s
  | Progress elapsed total => (onProgress elapsed total (fst s), snd s)
  end.

(** [e instanceof Error ? e.message : "Export failed"]. *)
Definition errorMessage (e : Thrown) : JSString :=
  match e with
  | ErrorObject message => message
  | OtherValue => str "Export failed"
  end.

(** [onExport].  [events] are the callbacks that run while the recording
    is awaited and [outcome] is how the [try] block ends.  The result also
    carries the export's loop state, so that a callback still pending
    after the export has finished can be run against it. *)
Definition onExport (env : Env) (st : State) (events : list Event)
    (outcome : Outcome) : State * option Loop :=
  if negb (canvas env) then (st, None)
  else if (stepLayouts env =? 0)%nat then (st, None)
  else
    let st := setIsExporting true st in
    let st := setExportProgress (ofZ 0) st in
    let st := revokeObjectURL st in
    let st := setDownloadUrl None st in
    let durationMs := totalMs (tl env) in
    let lp := mkLoop false true in
    let (st, lp) := fold_left (handleEvent env durationMs) events (st, lp) in
    let (st, lp) :=
      match outcome with
      | Resolved url =>
          (setDownloadUrl (Some url) st, mkLoop true (scheduled lp))
      | ResolvedUrlThrows e =>
          (setLayoutError (Some (errorMessage e)) st, mkLoop true (scheduled lp))
      | Rejected e =>
          (setLayoutError (Some (errorMessage e)) st, mkLoop true (scheduled lp))
      end in
    let st := setIsExporting false st in
    let st := setExportProgress (ofZ 0) st in
    let st := setPlayheadMs (ofZ 0) st in
    let st := callRenderAt env (ofZ 0) st in
    (st, Some lp).

End Page.

(** ** Token animation *)

Module Animate.

(** Modelled from the spec: a positioned token of a Layout
    ([{ text, color, x, y, width, height }], section 3).  The layout engine
    ([codeLayout.ts]) and the animator ([animate.ts]) are imported by
    [page.tsx] but are not among the sources. *)
Record Token : Set := mkToken {
  text : JSString;
  color : JSString;
  x : Qc;
  y : Qc;
  width : Qc;
  height : Qc
}.

(** Modelled from the spec: the Layout of one step (section 3). *)
Record Layout : Set := mkLayout {
  tokens : list Token;
  lineCount : nat;
  gutterWidth : Qc;
  contentHeight : Qc;
  backgroundColor : JSString
}.

(** Modelled from the spec: an AnimatedToken
    ([{ text, color, x, y, opacity }], section 3). *)
Record AnimatedToken : Set := mkAnimated {
  aText : JSString;
  aColor : JSString;
  aX : Qc;
  aY : Qc;
  opacity : Qc
}.

(** Modelled from the spec: the identity of a token, its text with the
    0-based rank of that text among the tokens of its own layout
    (section 4.3, matching rule). *)
Definition Key : Set := (JSString * nat)%type.

Definition keyEqb (a b : Key) : bool :=
  eqb (fst a) (fst b) && (snd a =? snd b)%nat.

(** Modelled from the spec: how many of the tokens already seen carry the
    text [t]. *)
Fixpoint occurrences (t : JSString) (seen : list Token) : nat :=
  match seen with
  | [] => 0
  | s :: rest =>
      if eqb (text s) t then S (occurrences t rest) else occurrences t rest
  end.

(** Modelled from the spec: the tokens of a layout, each with its key;
    [seen] holds the tokens before them. *)
Fixpoint keyedFrom (seen : list Token) (ts : list Token) : list (Key * Token) :=
  match ts with
  | [] => []
  | t :: rest =>
      ((text t, occurrences (text t) seen), t) :: keyedFrom (t :: seen) rest
  end.

Definition keyed (ts : list Token) : list (Key * Token) := keyedFrom [] ts.

(** Modelled from the spec: the token of a keyed layout with the key [k],
    if there is one. *)
Definition lookup (k : Key) (l : list (Key * Token)) : option Token :=
  option_map snd (find (fun e => keyEqb (fst e) k) l).

(** Modelled from the spec: linear interpolation from [a] to [b]. *)
Definition lerp (a b p : Qc) : Qc := a + (b - a) * p.

(** Modelled from the spec: a token drawn where its layout has it, at the
    given opacity. *)
Definition still (o : Qc) (t : Token) : AnimatedToken :=
  mkAnimated (text t) (color t) (x t) (y t) o.

(** Modelled from the spec: the tokens of the destination that match no
    token of the source. *)
Definition added (from to : Layout) : list Token :=
  map snd
    (filter (fun e => match lookup (fst e) (keyed (tokens from)) with
                      | Some _ => false
                      | None => true
                      end)
            (keyed (tokens to))).

(** Modelled from the spec: one token of the source layout at [progress]
    (section 4.3): matched, it moves by linear interpolation towards its
    match, takes the match's color once [progress > 0] and keeps opacity 1;
    unmatched, it stays in place and fades out. *)
Definition animateFrom (to : Layout) (progress : Qc) (e : Key * Token)
    : AnimatedToken :=
  let a := snd e in
  match lookup (fst e) (keyed (tokens to)) with
  | Some b =>
      mkAnimated (text a)
        (if ltb 0 progress then color b else color a)
        (lerp (x a) (x b) progress)
        (lerp (y a) (y b) progress)
        1
  | None => still (1 - progress) a
  end.

(** Modelled from the spec: [animate(from, to, progress)] (section 4.3).
    The tokens of the source come first, in their order, then the tokens
    only the destination has, fading in in place. *)
Definition animateLayouts (from to : Layout) (progress : Qc) : list AnimatedToken :=
  map (animateFrom to progress) (keyed (tokens from))
  ++ map (still progress) (added from to).

(** A token that is painted: its opacity is not zero. *)
Definition visible (t : AnimatedToken) : bool := negb (Qc_eq_bool (opacity t) 0).

End Animate.

(** ** [page.tsx]: live playback and the step list *)

Module Playback.
Import Page.

(** The refs and state the playback effect touches: [lastFrameRef.current]
    (a timestamp, or [null]) and [playheadMs]. *)
Record Player : Set := mkPlayer {
  lastFrameRef : option Q;
  playhead : JSNumber
}.

(** One run of the [tick] callback of the playback effect, [now] being the
    timestamp the browser passes, a finite number: [last] falls back to
    [now] on the first frame, and the playhead wraps to 0 on reaching
    [totalMs]. *)
Definition tick (totalMs : JSNumber) (st : Player) (now : Q) : Player :=
  let last := match lastFrameRef st with Some l => l | None => now end in
  let dt := Double.sub (Finite now) (Finite last) in
  let next := Double.add (playhead st) dt in
  mkPlayer (Some now) (if Double.leb totalMs next then Double.ofZ 0 else next).

(** [SimpleStep]. *)
Record SimpleStep : Set := mkSimpleStep {
  code : JSString
}.

(** [addSimpleStep]. *)
Definition addSimpleStep (simpleSteps : list SimpleStep) : list SimpleStep :=
  simpleSteps ++
  [mkSimpleStep (str "// Step " ++ decimal (List.length simpleSteps + 1))].

(** [simpleSteps.filter((_, i) => i !== index)], [i] being the index of
    the head. *)
Fixpoint filterIndex (index i : nat) (l : list SimpleStep) : list SimpleStep :=
  match l with
  | [] => []
  | s :: rest =>
      if negb (i =? index)%nat then s :: filterIndex index (i + 1) rest
      else filterIndex index (i + 1) rest
  end.

(** [removeSimpleStep(index)], as the step list held afterwards: the early
    return leaves it as it was.  [index] is an index of the list the page
    renders, a natural number. *)
Definition removeSimpleStep (index : nat) (simpleSteps : list SimpleStep)
    : list SimpleStep :=
  if (List.length simpleSteps <=? 1)%nat then simpleSteps
  else filterIndex index 0 simpleSteps.

(** The updater of the block-index effect (the markdown page): [blocks] is
    [parsed.blocks.length], [idx] the block index held, a finite number. *)
Definition clampBlockIndex (blocks : nat) (idx : Qc) : Qc :=
  let max := Math_max 0 (ofNat blocks - 1) in
  Math_min (Math_max 0 idx) max.

End Playback.

(** ** Number inputs of the settings *)

Module Inputs.
Import Double.

(** [a || b] on numbers: [b] when [a] is not-a-number or zero. *)
Definition orElse (a b : JSNumber) : JSNumber :=
  match a with
  | NaN => b
  | Finite q => if Qeq_bool q 0 then b else a
  | Infinity _ => a
  end.

Section WithNumber.

Variable Number : option JSString -> JSNumber.

(** The start-line box: [Math.max(1, Number(e.target.value) || 1)]
    ([page.tsx] and [settings-popover.tsx]). *)
Definition startLineInput (value : JSString) : JSNumber :=
  mathMax (Finite 1) (orElse (Number (Some value)) (Finite 1)).

(** The FPS box of the markdown page:
    [Math.max(10, Math.min(60, Number(e.target.value) || 30))]. *)
Definition fpsInput (value : JSString) : JSNumber :=
  mathMax (Finite 10) (mathMin (Finite 60) (orElse (Number (Some value)) (Finite 30))).

(** The transition box of the markdown page:
    [Math.max(100, Math.min(5000, Number(e.target.value) || 800))]. *)
Definition transitionInput (value : JSString) : JSNumber :=
  mathMax (Finite 100)
    (mathMin (Finite 5000) (orElse (Number (Some value)) (Finite 800))).

End WithNumber.

End Inputs.

(** ** [code-editor.tsx] *)

Module CodeEditor.

(** [handleChange], as the value it passes to [onChange].  [maxLines] is
    the prop of that name, a line count; [0] also stands for the prop
    being absent, both being falsy. *)
Definition handleChange (maxLines : nat) (newValue : JSString) : JSString :=
  if (maxLines =? 0)%nat then newValue
  else
    let lines := split 10 newValue in
    if (maxLines <? List.length lines)%nat
    then join lineFeed (firstn maxLines lines)
    else newValue.

(** [lineCount]: [value.split("\n").length]. *)
Definition lineCount (value : JSString) : nat := List.length (split 10 value).

End CodeEditor.

(** * Theorems *)

(** ** Arithmetic on numbers *)

Ltac qc2q :=
  unfold Num.ofNat, Num.num, Qcle, Qclt, Qcdiv, Qcminus, Qcopp, Qcplus, Qcmult, Q2Qc in *;
  cbn [this] in *;
  rewrite ?Qred_correct in *;
  unfold inject_Z in *.

Lemma leb_le (a b : Qc) : leb a b = true <-> a <= b.
Proof. unfold leb. rewrite Qle_bool_iff. reflexivity. Qed.

Lemma leb_gt (a b : Qc) : leb a b = false <-> b < a.
Proof.
  unfold leb. split; intro H.
  - destruct (Qclt_le_dec b a) as [Hlt | Hle]; [exact Hlt |].
    apply Qle_bool_iff in Hle. congruence.
  - destruct (Qle_bool a b) eqn:E; [| reflexivity].
    apply Qle_bool_iff in E. qc2q. lra.
Qed.

Lemma ltb_lt (a b : Qc) : ltb a b = true <-> a < b.
Proof.
  unfold ltb. rewrite negb_true_iff. apply leb_gt.
Qed.

Lemma ltb_ge (a b : Qc) : ltb a b = false <-> b <= a.
Proof.
  unfold ltb. rewrite negb_false_iff. apply leb_le.
Qed.

Lemma ofNat_succ (n : nat) : ofNat (S n) = ofNat n + 1.
Proof.
  apply Qc_is_canon. unfold ofNat, num, Qcplus, Q2Qc. cbn [this].
  rewrite !Qred_correct.
  rewrite Nat2Z.inj_succ. unfold Z.succ. rewrite inject_Z_plus. reflexivity.
Qed.

Lemma ofNat_0 : ofNat 0 = 0.
Proof. apply Qc_is_canon. reflexivity. Qed.

Lemma ofNat_nonneg (n : nat) : 0 <= ofNat n.
Proof.
  induction n as [| n IH].
  - rewrite ofNat_0. qc2q. lra.
  - rewrite ofNat_succ. qc2q. lra.
Qed.

Lemma ofNat_pred (n : nat) : (1 <= n)%nat -> ofNat (n - 1) = ofNat n - 1.
Proof.
  intro H. destruct n as [| n]; [lia |].
  replace (S n - 1)%nat with n by lia. rewrite ofNat_succ. ring.
Qed.

(** ** Rounding to the nearest double *)

Lemma Qle_bool_false (a b : Q) : Qle_bool a b = false <-> (b < a)%Q.
Proof.
  split; intro H.
  - apply Qnot_le_lt. intro L. apply Qle_bool_iff in L. congruence.
  - destruct (Qle_bool a b) eqn:E; [| reflexivity].
    apply Qle_bool_iff in E. lra.
Qed.

Ltac qle_hyps :=
  repeat match goal with
         | H : Qle_bool _ _ = true |- _ => apply Qle_bool_iff in H
         | H : Qle_bool _ _ = false |- _ => apply Qle_bool_false in H
         end;
  change (inject_Z 0) with 0%Q in *.

Section RoundingFacts.
Import ToNumber Double.
Local Open Scope Q_scope.

Lemma pow2_Qpower (z : Z) : pow2 z == 2 ^ z.
Proof.
  unfold pow2. destruct (Z.leb_spec 0 z) as [H | H].
  - exact (Zpower_Qpower 2 z H).
  - assert (Hp : (0 < 2 ^ (- z))%Z) by (apply Z.pow_pos_nonneg; lia).
    assert (E : 2 ^ z == / inject_Z (2 ^ (- z))).
    { replace z with (- (- z))%Z at 1 by lia.
      rewrite Qpower_opp. apply Qinv_comp. symmetry.
      exact (Zpower_Qpower 2 (- z) ltac:(lia)). }
    rewrite E.
    destruct (2 ^ (- z))%Z as [| p | p]; try lia.
    cbn. reflexivity.
Qed.

Lemma pow2_pos (z : Z) : 0 < pow2 z.
Proof. rewrite pow2_Qpower. apply Qpower_0_lt. reflexivity. Qed.

Lemma pow2_add (a b : Z) : pow2 (a + b) == pow2 a * pow2 b.
Proof.
  rewrite !pow2_Qpower. apply Qpower_plus. intro H. discriminate H.
Qed.

Lemma pow2_le (a b : Z) : (a <= b)%Z -> pow2 a <= pow2 b.
Proof.
  intro H. rewrite !pow2_Qpower. apply Qpower_le_compat_l; [exact H |].
  unfold Qle. cbn. lia.
Qed.

Lemma pow2_lt (a b : Z) : (a < b)%Z -> pow2 a < pow2 b.
Proof.
  intro H. rewrite !pow2_Qpower. apply Qpower_lt_compat_l; [exact H | reflexivity].
Qed.

Lemma pow2_lt_inv (a b : Z) : pow2 a < pow2 b -> (a < b)%Z.
Proof.
  rewrite !pow2_Qpower. intro H. eapply Qpower_lt_compat_l_inv; [exact H | reflexivity].
Qed.

Lemma pow2_nonneg_Z (z : Z) : (0 <= z)%Z -> pow2 z = inject_Z (2 ^ z).
Proof.
  intro H. unfold pow2. destruct (Z.leb_spec 0 z); [reflexivity | lia].
Qed.

Lemma Qlt_pow2_shift (a : Q) (x y : Z) :
  a * pow2 y < pow2 (x + y) -> a < pow2 x.
Proof.
  rewrite pow2_add. intro H.
  apply Qmult_lt_r in H; [exact H | apply pow2_pos].
Qed.

Lemma Qlt_pow2_shift' (a : Q) (x y : Z) :
  pow2 (x + y) < a * pow2 y -> pow2 x < a.
Proof.
  rewrite pow2_add. intro H.
  apply Qmult_lt_r in H; [exact H | apply pow2_pos].
Qed.

Lemma magnitude_spec (a : Q) :
  0 < a -> pow2 (magnitude a) <= a /\ a < pow2 (magnitude a + 1).
Proof.
  intro Ha. destruct a as [n d]. unfold magnitude. cbn [Qnum Qden].
  assert (Hn : (0 < n)%Z) by (unfold Qlt in Ha; cbn in Ha; lia).
  set (ln := Z.log2 n). set (ld := Z.log2 (Zpos d)).
  assert (Hln : (2 ^ ln <= n < 2 ^ (ln + 1))%Z).
  { pose proof (Z.log2_spec n Hn) as H. rewrite <- Z.add_1_r in H. exact H. }
  assert (Hld : (2 ^ ld <= Zpos d < 2 ^ (ld + 1))%Z).
  { pose proof (Z.log2_spec (Zpos d) ltac:(lia)) as H. rewrite <- Z.add_1_r in H. exact H. }
  assert (Hln0 : (0 <= ln)%Z) by apply Z.log2_nonneg.
  assert (Hld0 : (0 <= ld)%Z) by apply Z.log2_nonneg.
  assert (Hup : n # d < pow2 (ln - ld + 1)).
  { apply (Qlt_pow2_shift _ _ ld).
    replace (ln - ld + 1 + ld)%Z with (ln + 1)%Z by lia.
    rewrite !pow2_nonneg_Z by lia.
    unfold Qlt, Qmult, inject_Z. cbn [Qnum Qden].
    assert (0 < 2 ^ ld)%Z by (apply Z.pow_pos_nonneg; lia).
    rewrite Pos.mul_1_r. nia. }
  assert (Hlow : pow2 (ln - ld - 1) < n # d).
  { apply (Qlt_pow2_shift' _ _ (ld + 1)).
    replace (ln - ld - 1 + (ld + 1))%Z with ln by lia.
    rewrite !pow2_nonneg_Z by lia.
    unfold Qlt, Qmult, inject_Z. cbn [Qnum Qden].
    assert (0 < 2 ^ ln)%Z by (apply Z.pow_pos_nonneg; lia).
    rewrite Pos.mul_1_r. nia. }
  destruct (Qle_bool (pow2 (ln - ld)) (n # d)) eqn:E.
  - apply Qle_bool_iff in E. split; [exact E | exact Hup].
  - split.
    + apply Qlt_le_weak. exact Hlow.
    + replace (ln - ld - 1 + 1)%Z with (ln - ld)%Z by lia.
      apply Qnot_le_lt. intro H. apply Qle_bool_iff in H. congruence.
Qed.

Lemma magnitude_unique (a : Q) (e : Z) :
  pow2 e <= a -> a < pow2 (e + 1) -> magnitude a = e.
Proof.
  intros H1 H2.
  assert (Ha : 0 < a) by (eapply Qlt_le_trans; [apply pow2_pos | exact H1]).
  destruct (magnitude_spec a Ha) as [M1 M2].
  assert (magnitude a < e + 1)%Z.
  { apply pow2_lt_inv. eapply Qle_lt_trans; [exact M1 | exact H2]. }
  assert (e < magnitude a + 1)%Z.
  { apply pow2_lt_inv. eapply Qle_lt_trans; [exact H1 | exact M2]. }
  lia.
Qed.

Lemma magnitude_le (a b : Q) : 0 < a -> a <= b -> (magnitude a <= magnitude b)%Z.
Proof.
  intros Ha Hab.
  assert (Hb : 0 < b) by (eapply Qlt_le_trans; eassumption).
  destruct (magnitude_spec a Ha) as [A1 A2].
  destruct (magnitude_spec b Hb) as [B1 B2].
  assert (magnitude a < magnitude b + 1)%Z.
  { apply pow2_lt_inv. eapply Qle_lt_trans; [exact A1 |].
    eapply Qle_lt_trans; [exact Hab | exact B2]. }
  lia.
Qed.

Lemma roundHalfEven_comp (x y : Q) : x == y -> roundHalfEven x = roundHalfEven y.
Proof.
  intro H. unfold roundHalfEven. rewrite (Qfloor_comp _ _ H).
  assert (E : x - inject_Z (Qfloor y) == y - inject_Z (Qfloor y)) by (rewrite H; reflexivity).
  rewrite (Qcompare_comp _ _ E _ _ (Qeq_refl (1 # 2))). reflexivity.
Qed.

Lemma roundHalfEven_Z (z : Z) : roundHalfEven (inject_Z z) = z.
Proof.
  unfold roundHalfEven. rewrite Qfloor_Z.
  assert (E : inject_Z z - inject_Z z == 0) by ring.
  rewrite (Qcompare_comp _ _ E _ _ (Qeq_refl (1 # 2))). reflexivity.
Qed.

Lemma roundHalfEven_mono (x y : Q) : x <= y -> (roundHalfEven x <= roundHalfEven y)%Z.
Proof.
  intro H. pose proof (Qfloor_resp_le x y H) as Hf.
  unfold roundHalfEven.
  pose proof (Qfloor_le x) as Lx. pose proof (Qlt_floor x) as Ux.
  pose proof (Qfloor_le y) as Ly. pose proof (Qlt_floor y) as Uy.
  destruct (Z.eq_dec (Qfloor x) (Qfloor y)) as [E | E].
  - rewrite <- E in *.
    destruct (Qcompare_spec (x - inject_Z (Qfloor x)) (1 # 2)) as [Cx | Cx | Cx];
    destruct (Qcompare_spec (y - inject_Z (Qfloor x)) (1 # 2)) as [Cy | Cy | Cy];
    try destruct (Z.even (Qfloor x)); try lia; exfalso; lra.
  - assert (Qfloor x + 1 <= Qfloor y)%Z by lia.
    destruct (Qcompare (x - inject_Z (Qfloor x)) (1 # 2));
    destruct (Qcompare (y - inject_Z (Qfloor y)) (1 # 2));
    try destruct (Z.even (Qfloor x)); try destruct (Z.even (Qfloor y)); lia.
Qed.

Lemma roundHalfEven_nonneg (x : Q) : 0 <= x -> (0 <= roundHalfEven x)%Z.
Proof.
  intro H. change 0%Z with (roundHalfEven (inject_Z 0)).
  apply roundHalfEven_mono. exact H.
Qed.

Lemma magnitude_comp (a b : Q) : 0 < a -> a == b -> magnitude a = magnitude b.
Proof.
  intros Ha E. symmetry. destruct (magnitude_spec a Ha) as [H1 H2].
  apply magnitude_unique; rewrite <- E; assumption.
Qed.

Lemma Qdiv_pow2 (a : Q) (e : Z) : a / pow2 e == a * pow2 (- e).
Proof.
  assert (H : pow2 e * pow2 (- e) == 1).
  { rewrite <- pow2_add. replace (e + - e)%Z with 0%Z by lia. reflexivity. }
  pose proof (pow2_pos e) as P.
  unfold Qdiv. apply Qmult_comp; [reflexivity |].
  rewrite <- (Qmult_1_l (/ pow2 e)), <- H.
  rewrite (Qmult_comm (pow2 e)), <- Qmult_assoc, Qmult_inv_r, Qmult_1_r by lra.
  reflexivity.
Qed.

Lemma roundMagnitude_nonneg (a : Q) : 0 <= a -> 0 <= roundMagnitude a.
Proof.
  intro H. unfold roundMagnitude.
  apply Qmult_le_0_compat.
  - change 0 with (inject_Z 0). rewrite <- Zle_Qle.
    apply roundHalfEven_nonneg. rewrite Qdiv_pow2.
    apply Qmult_le_0_compat; [exact H | apply Qlt_le_weak, pow2_pos].
  - apply Qlt_le_weak, pow2_pos.
Qed.

Lemma roundMagnitude_upper (a : Q) :
  0 < a -> roundMagnitude a <= pow2 (exponentOf a + 1).
Proof.
  intro Ha. unfold roundMagnitude. set (e := exponentOf a).
  destruct (magnitude_spec a Ha) as [_ H2].
  assert (He : (magnitude a <= e)%Z) by (unfold e, exponentOf; lia).
  assert (Hq : a / pow2 (e - 52) <= inject_Z (2 ^ 53)).
  { rewrite Qdiv_pow2. rewrite <- (pow2_nonneg_Z 53) by lia.
    replace 53%Z with (e + 1 + - (e - 52))%Z by lia.
    rewrite (pow2_add (e + 1)).
    apply Qmult_le_compat_r; [| apply Qlt_le_weak, pow2_pos].
    apply Qlt_le_weak. eapply Qlt_le_trans; [exact H2 |].
    apply pow2_le. lia. }
  apply roundHalfEven_mono in Hq. rewrite roundHalfEven_Z in Hq.
  replace (e + 1)%Z with (53 + (e - 52))%Z by lia.
  rewrite (pow2_add 53). rewrite (pow2_nonneg_Z 53) by lia.
  apply Qmult_le_compat_r; [| apply Qlt_le_weak, pow2_pos].
  rewrite <- Zle_Qle. exact Hq.
Qed.

Lemma roundMagnitude_lower (a : Q) :
  0 < a -> exponentOf a = magnitude a -> pow2 (exponentOf a) <= roundMagnitude a.
Proof.
  intros Ha He. unfold roundMagnitude. set (e := exponentOf a) in *.
  destruct (magnitude_spec a Ha) as [H1 _]. rewrite <- He in H1.
  assert (Hq : inject_Z (2 ^ 52) <= a / pow2 (e - 52)).
  { rewrite Qdiv_pow2. rewrite <- (pow2_nonneg_Z 52) by lia.
    replace 52%Z with (e + - (e - 52))%Z at 1 by lia.
    rewrite (pow2_add e).
    apply Qmult_le_compat_r; [exact H1 | apply Qlt_le_weak, pow2_pos]. }
  apply roundHalfEven_mono in Hq. rewrite roundHalfEven_Z in Hq.
  replace e with (52 + (e - 52))%Z at 1 by lia.
  rewrite (pow2_add 52). rewrite (pow2_nonneg_Z 52) by lia.
  apply Qmult_le_compat_r; [| apply Qlt_le_weak, pow2_pos].
  rewrite <- Zle_Qle. exact Hq.
Qed.

Lemma roundMagnitude_mono (a b : Q) :
  0 < a -> a <= b -> roundMagnitude a <= roundMagnitude b.
Proof.
  intros Ha Hab.
  assert (Hb : 0 < b) by (eapply Qlt_le_trans; eassumption).
  pose proof (magnitude_le a b Ha Hab) as Hm.
  destruct (Z.eq_dec (exponentOf a) (exponentOf b)) as [E | E].
  - unfold roundMagnitude. rewrite E.
    apply Qmult_le_compat_r; [| apply Qlt_le_weak, pow2_pos].
    rewrite <- Zle_Qle. apply roundHalfEven_mono.
    rewrite !Qdiv_pow2.
    apply Qmult_le_compat_r; [exact Hab | apply Qlt_le_weak, pow2_pos].
  - assert (Hlt : (exponentOf a < exponentOf b)%Z) by (unfold exponentOf in *; lia).
    assert (Heb : exponentOf b = magnitude b) by (unfold exponentOf in *; lia).
    eapply Qle_trans; [apply roundMagnitude_upper; exact Ha |].
    eapply Qle_trans; [| apply roundMagnitude_lower; assumption].
    apply pow2_le. lia.
Qed.

Lemma roundMagnitude_comp (a b : Q) :
  0 < a -> a == b -> roundMagnitude a == roundMagnitude b.
Proof.
  intros Ha E. unfold roundMagnitude, exponentOf.
  rewrite (magnitude_comp a b Ha E).
  rewrite (roundHalfEven_comp (a / _) (b / pow2 (Z.max (magnitude b) (-1022) - 52))).
  - reflexivity.
  - rewrite E. reflexivity.
Qed.

(** A value with a 53-bit integer significand and an exponent in range is
    its own rounding. *)
Lemma roundMagnitude_exact (a : Q) (m k : Z) :
  (0 < m < 2 ^ 53)%Z -> (-1074 <= k)%Z -> a == inject_Z m * pow2 k ->
  roundMagnitude a == a.
Proof.
  intros Hm Hk Ea.
  assert (Ha : 0 < a).
  { rewrite Ea. apply Qmult_lt_0_compat; [| apply pow2_pos].
    change 0 with (inject_Z 0). rewrite <- Zlt_Qlt. lia. }
  destruct (magnitude_spec a Ha) as [H1 _].
  assert (Hup : a < pow2 (53 + k)).
  { rewrite Ea, pow2_add. apply Qmult_lt_compat_r; [apply pow2_pos |].
    rewrite (pow2_nonneg_Z 53) by lia. rewrite <- Zlt_Qlt. lia. }
  assert (Hmag : (magnitude a < 53 + k)%Z).
  { apply pow2_lt_inv. eapply Qle_lt_trans; eassumption. }
  unfold roundMagnitude. set (e := exponentOf a).
  assert (He : (e <= 52 + k)%Z) by (unfold e, exponentOf; lia).
  set (s := (k - e + 52)%Z).
  assert (Hq : a / pow2 (e - 52) == inject_Z (m * 2 ^ s)).
  { rewrite Qdiv_pow2, Ea, inject_Z_mult.
    rewrite <- (pow2_nonneg_Z s) by (unfold s; lia).
    rewrite <- Qmult_assoc, <- pow2_add.
    replace (k + - (e - 52))%Z with s by (unfold s; lia). reflexivity. }
  rewrite (roundHalfEven_comp _ _ Hq), roundHalfEven_Z.
  rewrite inject_Z_mult, <- (pow2_nonneg_Z s) by (unfold s; lia).
  rewrite <- Qmult_assoc, <- pow2_add.
  replace (s + (e - 52))%Z with k by (unfold s; lia).
  symmetry. exact Ea.
Qed.

Lemma roundToDouble_pos (q : Q) :
  0 < q ->
  roundToDouble q =
  if Qle_bool (pow2 1024) (roundMagnitude (Qabs q)) then Infinity false
  else Finite (Qred (roundMagnitude (Qabs q))).
Proof.
  intro H. unfold roundToDouble.
  destruct (Qeq_bool q 0) eqn:E; [apply Qeq_bool_iff in E; lra |].
  assert (L : Qle_bool 0 q = true) by (apply Qle_bool_iff; lra).
  rewrite L. reflexivity.
Qed.

Lemma roundToDouble_neg (q : Q) :
  q < 0 ->
  roundToDouble q =
  if Qle_bool (pow2 1024) (roundMagnitude (Qabs q)) then Infinity true
  else Finite (Qred (- roundMagnitude (Qabs q))).
Proof.
  intro H. unfold roundToDouble.
  destruct (Qeq_bool q 0) eqn:E; [apply Qeq_bool_iff in E; lra |].
  destruct (Qle_bool 0 q) eqn:L; [apply Qle_bool_iff in L; lra |].
  reflexivity.
Qed.

Lemma roundToDouble_zero (q : Q) : q == 0 -> roundToDouble q = Finite 0.
Proof.
  intro H. unfold roundToDouble. apply Qeq_bool_iff in H. rewrite H. reflexivity.
Qed.

Lemma Qabs_pos_eq (q : Q) : 0 < q -> Qabs q == q.
Proof. intro H. apply Qabs_pos. lra. Qed.

Lemma Qabs_neg_eq (q : Q) : q < 0 -> Qabs q == - q.
Proof. intro H. apply Qabs_neg. lra. Qed.

Lemma roundToDouble_not_NaN (q : Q) : roundToDouble q <> NaN.
Proof.
  unfold roundToDouble. destruct (Qeq_bool q 0); [discriminate |].
  cbv zeta. destruct (Qle_bool _ _); discriminate.
Qed.

(** Rounding keeps the order. *)
Lemma roundToDouble_mono (p q : Q) :
  p <= q -> leb (roundToDouble p) (roundToDouble q) = true.
Proof.
  intro Hpq.
  destruct (Q_dec p 0) as [[Hp | Hp] | Hp]; destruct (Q_dec q 0) as [[Hq | Hq] | Hq];
    try (exfalso; lra).
  - (* both negative *)
    rewrite (roundToDouble_neg p Hp), (roundToDouble_neg q Hq).
    assert (Hm : roundMagnitude (Qabs q) <= roundMagnitude (Qabs p)).
    { apply roundMagnitude_mono.
      - rewrite Qabs_neg_eq by exact Hq. lra.
      - rewrite !Qabs_neg_eq by assumption. lra. }
    destruct (Qle_bool (pow2 1024) (roundMagnitude (Qabs p))) eqn:Ep.
    + destruct (Qle_bool _ (roundMagnitude (Qabs q))); reflexivity.
    + apply Qle_bool_false in Ep.
      destruct (Qle_bool (pow2 1024) (roundMagnitude (Qabs q))) eqn:Eq.
      * apply Qle_bool_iff in Eq. lra.
      * cbn [leb]. apply Qle_bool_iff. rewrite !Qred_correct. lra.
  - (* p < 0 < q *)
    rewrite (roundToDouble_neg p Hp), (roundToDouble_pos q Hq).
    pose proof (roundMagnitude_nonneg (Qabs p) (Qabs_nonneg p)) as Np.
    pose proof (roundMagnitude_nonneg (Qabs q) (Qabs_nonneg q)) as Nq.
    destruct (Qle_bool _ (roundMagnitude (Qabs p)));
      destruct (Qle_bool _ (roundMagnitude (Qabs q))); try reflexivity.
    cbn [leb]. apply Qle_bool_iff. rewrite !Qred_correct. lra.
  - (* p < 0, q = 0 *)
    rewrite (roundToDouble_neg p Hp), (roundToDouble_zero q Hq).
    pose proof (roundMagnitude_nonneg (Qabs p) (Qabs_nonneg p)) as Np.
    destruct (Qle_bool _ (roundMagnitude (Qabs p))); [reflexivity |].
    cbn [leb]. apply Qle_bool_iff. rewrite !Qred_correct. lra.
  - (* both positive *)
    rewrite (roundToDouble_pos p Hp), (roundToDouble_pos q Hq).
    assert (Hm : roundMagnitude (Qabs p) <= roundMagnitude (Qabs q)).
    { apply roundMagnitude_mono.
      - rewrite Qabs_pos_eq by exact Hp. lra.
      - rewrite !Qabs_pos_eq by assumption. lra. }
    destruct (Qle_bool (pow2 1024) (roundMagnitude (Qabs p))) eqn:Ep.
    + apply Qle_bool_iff in Ep.
      assert (Eq : Qle_bool (pow2 1024) (roundMagnitude (Qabs q)) = true)
        by (apply Qle_bool_iff; lra).
      rewrite Eq. reflexivity.
    + destruct (Qle_bool (pow2 1024) (roundMagnitude (Qabs q))); [reflexivity |].
      cbn [leb]. apply Qle_bool_iff. rewrite !Qred_correct. exact Hm.
  - (* p = 0 < q *)
    rewrite (roundToDouble_zero p Hp), (roundToDouble_pos q Hq).
    pose proof (roundMagnitude_nonneg (Qabs q) (Qabs_nonneg q)) as Nq.
    destruct (Qle_bool _ (roundMagnitude (Qabs q))); [reflexivity |].
    cbn [leb]. apply Qle_bool_iff. rewrite !Qred_correct. lra.
  - rewrite (roundToDouble_zero p Hp), (roundToDouble_zero q Hq). reflexivity.
Qed.

Lemma Qred_inject_Z (z : Z) : Qred (inject_Z z) = inject_Z z.
Proof.
  apply Qred_identity. cbn. apply Z.gcd_1_r.
Qed.

Lemma pow2_53_1024 : inject_Z (2 ^ 53) < pow2 1024.
Proof. rewrite <- (pow2_nonneg_Z 53) by lia. apply pow2_lt. lia. Qed.

(** Integers of magnitude below [2^53] are doubles. *)
Lemma roundToDouble_Z (z : Z) :
  (Z.abs z < 2 ^ 53)%Z -> roundToDouble (inject_Z z) = Finite (inject_Z z).
Proof.
  intro Hz. pose proof pow2_53_1024 as Hbig.
  destruct (Z.lt_trichotomy z 0) as [Hn | [-> | Hp]].
  - assert (Hq : inject_Z z < 0) by (change 0 with (inject_Z 0); rewrite <- Zlt_Qlt; lia).
    rewrite (roundToDouble_neg _ Hq).
    assert (E : roundMagnitude (Qabs (inject_Z z)) == inject_Z (- z)).
    { assert (A : Qabs (inject_Z z) == inject_Z (- z))
        by (rewrite Qabs_neg_eq by exact Hq; rewrite inject_Z_opp; reflexivity).
      apply (Qeq_trans _ (Qabs (inject_Z z))); [| exact A].
      apply (roundMagnitude_exact _ (- z) 0); [lia | lia |].
      rewrite A. change (pow2 0) with 1. ring. }
    assert (L : Qle_bool (pow2 1024) (roundMagnitude (Qabs (inject_Z z))) = false).
    { apply Qle_bool_false. rewrite E. eapply Qlt_trans; [| exact Hbig].
      rewrite <- Zlt_Qlt. lia. }
    rewrite L. f_equal.
    etransitivity; [apply Qred_complete | apply Qred_inject_Z].
    rewrite E, inject_Z_opp. ring.
  - reflexivity.
  - assert (Hq : 0 < inject_Z z) by (change 0 with (inject_Z 0); rewrite <- Zlt_Qlt; lia).
    rewrite (roundToDouble_pos _ Hq).
    assert (E : roundMagnitude (Qabs (inject_Z z)) == inject_Z z).
    { assert (A : Qabs (inject_Z z) == inject_Z z) by (apply Qabs_pos_eq; exact Hq).
      apply (Qeq_trans _ (Qabs (inject_Z z))); [| exact A].
      apply (roundMagnitude_exact _ z 0); [lia | lia |].
      rewrite A. change (pow2 0) with 1. ring. }
    assert (L : Qle_bool (pow2 1024) (roundMagnitude (Qabs (inject_Z z))) = false).
    { apply Qle_bool_false. rewrite E. eapply Qlt_trans; [| exact Hbig].
      rewrite <- Zlt_Qlt. lia. }
    rewrite L. f_equal.
    etransitivity; [apply Qred_complete; exact E | apply Qred_inject_Z].
Qed.

Lemma roundToDouble_comp (p q : Q) : p == q -> roundToDouble p = roundToDouble q.
Proof.
  intro E.
  destruct (Q_dec p 0) as [[Hp | Hp] | Hp].
  - assert (Hq : q < 0) by lra.
    rewrite (roundToDouble_neg p Hp), (roundToDouble_neg q Hq).
    assert (M : roundMagnitude (Qabs p) == roundMagnitude (Qabs q)).
    { apply roundMagnitude_comp; [rewrite Qabs_neg_eq by exact Hp; lra |].
      rewrite E. reflexivity. }
    assert (B : Qle_bool (pow2 1024) (roundMagnitude (Qabs p)) =
                Qle_bool (pow2 1024) (roundMagnitude (Qabs q)))
      by (rewrite M; reflexivity).
    destruct (Qle_bool (pow2 1024) (roundMagnitude (Qabs p)));
      rewrite <- B; [reflexivity |].
    f_equal. apply Qred_complete. rewrite M. reflexivity.
  - assert (Hq : 0 < q) by lra.
    rewrite (roundToDouble_pos p Hp), (roundToDouble_pos q Hq).
    assert (M : roundMagnitude (Qabs p) == roundMagnitude (Qabs q)).
    { apply roundMagnitude_comp; [rewrite Qabs_pos_eq by exact Hp; lra |].
      rewrite E. reflexivity. }
    assert (B : Qle_bool (pow2 1024) (roundMagnitude (Qabs p)) =
                Qle_bool (pow2 1024) (roundMagnitude (Qabs q)))
      by (rewrite M; reflexivity).
    destruct (Qle_bool (pow2 1024) (roundMagnitude (Qabs p)));
      rewrite <- B; [reflexivity |].
    f_equal. apply Qred_complete. exact M.
  - rewrite (roundToDouble_zero p Hp), (roundToDouble_zero q); [reflexivity | lra].
Qed.

(** Rounding keeps a value between two integers that are doubles. *)
Lemma roundToDouble_between (x : Q) (lo hi : Z) :
  (Z.abs lo < 2 ^ 53)%Z -> (Z.abs hi < 2 ^ 53)%Z ->
  inject_Z lo <= x -> x <= inject_Z hi ->
  exists r, roundToDouble x = Finite r /\ inject_Z lo <= r /\ r <= inject_Z hi.
Proof.
  intros Hlo Hhi L U.
  pose proof (roundToDouble_mono _ _ L) as ML. rewrite roundToDouble_Z in ML by exact Hlo.
  pose proof (roundToDouble_mono _ _ U) as MU. rewrite roundToDouble_Z in MU by exact Hhi.
  destruct (roundToDouble x) as [| [] | r]; cbn in ML, MU; try discriminate.
  exists r. apply Qle_bool_iff in ML. apply Qle_bool_iff in MU. auto.
Qed.

Lemma roundToDouble_ge (x : Q) (lo : Z) :
  (Z.abs lo < 2 ^ 53)%Z -> inject_Z lo <= x ->
  leb (Finite (inject_Z lo)) (roundToDouble x) = true.
Proof.
  intros Hlo L. rewrite <- (roundToDouble_Z lo Hlo). apply roundToDouble_mono. exact L.
Qed.

Lemma roundToDouble_le (x : Q) (hi : Z) :
  (Z.abs hi < 2 ^ 53)%Z -> x <= inject_Z hi ->
  leb (roundToDouble x) (Finite (inject_Z hi)) = true.
Proof.
  intros Hhi U. rewrite <- (roundToDouble_Z hi Hhi). apply roundToDouble_mono. exact U.
Qed.

Lemma roundToDouble_eq_Z (x : Q) (z : Z) :
  (Z.abs z < 2 ^ 53)%Z -> x == inject_Z z -> roundToDouble x = Finite (inject_Z z).
Proof.
  intros Hz E. rewrite (roundToDouble_comp _ _ E). apply roundToDouble_Z. exact Hz.
Qed.

Lemma roundToDouble_nonneg (x : Q) : 0 <= x -> nonneg (roundToDouble x).
Proof.
  intro H. apply (roundToDouble_ge x 0); [cbn; lia | exact H].
Qed.

End RoundingFacts.

(** ** Order and arithmetic of numbers *)

Section DoubleFacts.
Import ToNumber Double.
Local Open Scope Q_scope.

Lemma leb_Finite (p q : Q) : leb (Finite p) (Finite q) = true <-> p <= q.
Proof. cbn [leb]. apply Qle_bool_iff. Qed.

Lemma ltb_Finite (p q : Q) : ltb (Finite p) (Finite q) = true <-> p < q.
Proof. cbn [ltb]. rewrite negb_true_iff. apply Qle_bool_false. Qed.

Lemma leb_not_NaN (a b : JSNumber) : leb a b = true -> a <> NaN /\ b <> NaN.
Proof. destruct a as [| [] |], b as [| [] |]; cbn; split; congruence. Qed.

Lemma ltb_leb (a b : JSNumber) : ltb a b = true -> leb a b = true.
Proof.
  destruct a as [| [] | p], b as [| [] | q]; cbn; try congruence.
  rewrite negb_true_iff, Qle_bool_false, Qle_bool_iff. lra.
Qed.

Lemma leb_false_ltb (a b : JSNumber) :
  a <> NaN -> b <> NaN -> leb a b = false -> ltb b a = true.
Proof.
  destruct a as [| [] | p], b as [| [] | q]; cbn; try congruence.
  intros _ _ H. rewrite H. reflexivity.
Qed.

Lemma ltb_false_leb (a b : JSNumber) :
  a <> NaN -> b <> NaN -> ltb a b = false -> leb b a = true.
Proof.
  destruct a as [| [] | p], b as [| [] | q]; cbn; try congruence.
  intros _ _ H. apply negb_false_iff in H. exact H.
Qed.

Lemma leb_trans (a b c : JSNumber) : leb a b = true -> leb b c = true -> leb a c = true.
Proof.
  destruct a as [| [] | p], b as [| [] | q], c as [| [] | r]; cbn; try congruence.
  rewrite !Qle_bool_iff. lra.
Qed.

Lemma leb_refl (a : JSNumber) : a <> NaN -> leb a a = true.
Proof.
  destruct a as [| [] | p]; cbn; try congruence. intros _. apply Qle_bool_iff. lra.
Qed.

Lemma add_Z (a b : Z) :
  (Z.abs (a + b) < 2 ^ 53)%Z ->
  add (Finite (inject_Z a)) (Finite (inject_Z b)) = Finite (inject_Z (a + b)).
Proof.
  intro H. cbn [add]. apply roundToDouble_eq_Z; [exact H |].
  rewrite inject_Z_plus. reflexivity.
Qed.

Lemma sub_Z (a b : Z) :
  (Z.abs (a - b) < 2 ^ 53)%Z ->
  sub (Finite (inject_Z a)) (Finite (inject_Z b)) = Finite (inject_Z (a - b)).
Proof.
  intro H. cbn [sub]. apply roundToDouble_eq_Z; [exact H |].
  unfold Z.sub. rewrite inject_Z_plus, inject_Z_opp. reflexivity.
Qed.

Lemma mul_Z (a b : Z) :
  (Z.abs (a * b) < 2 ^ 53)%Z ->
  mul (Finite (inject_Z a)) (Finite (inject_Z b)) = Finite (inject_Z (a * b)).
Proof.
  intro H. cbn [mul]. apply roundToDouble_eq_Z; [exact H |].
  rewrite inject_Z_mult. reflexivity.
Qed.

Lemma add_mono (a a' b b' : JSNumber) :
  nonneg a -> leb a a' = true -> nonneg b -> leb b b' = true ->
  leb (add a b) (add a' b') = true /\ nonneg (add a b).
Proof.
  unfold nonneg, ofZ.
  destruct a as [| [] | p], a' as [| [] | p'], b as [| [] | q], b' as [| [] | q'];
    cbn [leb add Bool.eqb negb]; try congruence; intros Ha Haa Hb Hbb;
    try (split; reflexivity); qle_hyps;
    try (split; [apply roundToDouble_mono; lra | apply roundToDouble_nonneg; lra]);
    (split; [| apply roundToDouble_nonneg; lra]);
    pose proof (roundToDouble_nonneg (p + q) ltac:(lra)) as P; unfold nonneg, ofZ in P;
    destruct (roundToDouble (p + q)) as [| [] | r]; cbn in *; congruence.
Qed.

Lemma add_Finite_not_NaN (a : JSNumber) (q : Q) : a <> NaN -> add a (Finite q) <> NaN.
Proof.
  destruct a as [| [] | p]; cbn [add]; try congruence. intros _. apply roundToDouble_not_NaN.
Qed.

Lemma sub_nonneg (a : JSNumber) (q : Q) :
  leb (Finite q) a = true -> nonneg (sub a (Finite q)).
Proof.
  destruct a as [| [] | p]; cbn [leb sub negb]; try congruence.
  - reflexivity.
  - intro H. qle_hyps. apply roundToDouble_nonneg. lra.
Qed.

Lemma sub_passed (a : JSNumber) (q : Q) :
  nonnegOrNaN a -> leb a (Finite q) = false -> nonnegOrNaN (sub a (Finite q)).
Proof.
  intros [-> | Ha] H; [left; reflexivity |].
  right. apply sub_nonneg. apply ltb_leb. apply leb_false_ltb; [| discriminate | exact H].
  apply leb_not_NaN in Ha. tauto.
Qed.

Lemma div_unit (t : JSNumber) (T : Q) :
  nonneg t -> leb t (Finite T) = true -> leb (Finite T) (ofZ 0) = false ->
  leb (ofZ 0) (div t (Finite T)) = true /\ leb (div t (Finite T)) (ofZ 1) = true.
Proof.
  unfold nonneg, ofZ. destruct t as [| [] | q]; cbn [leb div negb]; try congruence.
  intros H0 HT Hpos. qle_hyps.
  assert (E : Qeq_bool T 0 = false).
  { destruct (Qeq_bool T 0) eqn:E; [| reflexivity]. apply Qeq_bool_iff in E. lra. }
  rewrite E.
  assert (Hq : 0 <= q / T /\ q / T <= 1).
  { split.
    - apply Qle_shift_div_l; lra.
    - apply Qle_shift_div_r; lra. }
  destruct (roundToDouble_between (q / T) 0 1) as (r & Er & L & U);
    [cbn; lia | cbn; lia | tauto | tauto |].
  rewrite Er. cbn [leb]. split; apply Qle_bool_iff; assumption.
Qed.

Lemma Math_clamp_spec (total ms : JSNumber) :
  let c := mathMax (ofZ 0) (mathMin total ms) in
  (ms = NaN \/ total = NaN -> c = NaN) /\
  (ms <> NaN -> total <> NaN -> nonneg c) /\
  (ms <> NaN -> nonneg total -> leb c total = true) /\
  (nonneg ms -> leb ms total = true -> eqb c ms = true) /\
  (ltb ms (ofZ 0) = true -> total <> NaN -> c = ofZ 0) /\
  (nonneg total -> leb total ms = true -> c = total).
Proof.
  cbv zeta. unfold nonneg, ofZ.
  destruct total as [| [] | p], ms as [| [] | q];
    cbn [mathMax mathMin leb ltb eqb negb Bool.eqb];
    repeat split; try congruence; try tauto; intros;
    try match goal with H : _ \/ _ |- _ => destruct H; discriminate end;
    repeat match goal with
           | |- context [if Qle_bool ?a ?b then _ else _] =>
               lazymatch b with
               | context [Qle_bool] => fail
               | _ => let E := fresh "E" in destruct (Qle_bool a b) eqn:E
               end
           end;
    cbn [mathMax mathMin leb ltb eqb negb Bool.eqb] in *;
    try reflexivity; try congruence; try tauto;
    repeat match goal with
           | H : negb _ = true |- _ => apply negb_true_iff in H
           end;
    qle_hyps; try (exfalso; lra);
    try (apply Qle_bool_iff; lra);
    try (apply Qeq_bool_iff; lra).
Qed.

End DoubleFacts.

(** ** Timeline *)

Section TimelineFacts.
Import ToNumber Double Page.
Local Open Scope Q_scope.

Lemma timeline_holds (n : nat) (T : Q) :
  startHold (timeline n T) = ofZ 250 /\
  betweenHold (timeline n T) = ofZ 120 /\
  endHold (timeline n T) = ofZ 250.
Proof.
  unfold timeline. destruct (n <=? 1)%nat; cbn; auto.
Qed.

Lemma timeline_totalMs_single (n : nat) (T : Q) :
  (n <= 1)%nat -> totalMs (timeline n T) = ofZ 500.
Proof.
  intro Hn. unfold timeline.
  destruct (Nat.leb_spec n 1) as [_ | Hgt]; [| lia].
  reflexivity.
Qed.

Lemma timeline_totalMs_several (n : nat) (T : Q) :
  (2 <= n)%nat ->
  totalMs (timeline n T) =
  add (add (add (ofZ 250) (mul (ofNat (n - 1)) (Finite T)))
           (mul (ofNat (n - 1)) (ofZ 120))) (ofZ 250).
Proof.
  intro Hn. unfold timeline.
  destruct (Nat.leb_spec n 1) as [Hle | _]; [lia | reflexivity].
Qed.

(** With a whole number of milliseconds per transition every operation of
    the sum is exact, as long as the total stays below [2^53]. *)
Lemma timeline_totalMs_integer (n : nat) (z : Z) (T : Q) :
  (2 <= n)%nat -> T == inject_Z z -> (0 <= z)%Z ->
  (500 + Z.of_nat n * (z + 120) < 2 ^ 53)%Z ->
  totalMs (timeline n T) =
  ofZ (250 + (Z.of_nat n - 1) * z + (Z.of_nat n - 1) * 120 + 250).
Proof.
  intros Hn HT Hz Hb. rewrite timeline_totalMs_several by exact Hn.
  unfold ofNat, ofZ.
  replace (Z.of_nat (n - 1)) with (Z.of_nat n - 1)%Z by lia.
  set (k := (Z.of_nat n - 1)%Z) in *.
  assert (Hk : (1 <= k)%Z) by lia.
  assert (Hkz : (0 <= k * z)%Z) by nia.
  assert (E : mul (Finite (inject_Z k)) (Finite T) = Finite (inject_Z (k * z))).
  { cbn [mul]. apply roundToDouble_eq_Z; [nia |].
    rewrite HT, inject_Z_mult. reflexivity. }
  rewrite E. rewrite mul_Z by nia. rewrite !add_Z by nia.
  reflexivity.
Qed.




Lemma mul_ofNat_mono (k k' : nat) (q : Q) :
  0 <= q -> (k <= k')%nat ->
  leb (mul (ofNat k) (Finite q)) (mul (ofNat k') (Finite q)) = true /\
  nonneg (mul (ofNat k) (Finite q)).
Proof.
  intros Hq Hk. unfold ofNat, ofZ. cbn [mul].
  assert (H0 : 0 <= inject_Z (Z.of_nat k)).
  { change 0 with (inject_Z 0). rewrite <- Zle_Qle. lia. }
  assert (H1 : inject_Z (Z.of_nat k) <= inject_Z (Z.of_nat k')).
  { rewrite <- Zle_Qle. lia. }
  split.
  - apply roundToDouble_mono. apply Qmult_le_compat_r; assumption.
  - apply roundToDouble_nonneg. apply Qmult_le_0_compat; assumption.
Qed.

Lemma totalMs_chain (k k' : nat) (T : Q) :
  0 <= T -> (k <= k')%nat ->
  leb (add (add (add (ofZ 250) (mul (ofNat k) (Finite T)))
                (mul (ofNat k) (ofZ 120))) (ofZ 250))
      (add (add (add (ofZ 250) (mul (ofNat k') (Finite T)))
                (mul (ofNat k') (ofZ 120))) (ofZ 250)) = true.
Proof.
  intros HT Hk.
  destruct (mul_ofNat_mono k k' T HT Hk) as [M1 N1].
  destruct (mul_ofNat_mono k k' (inject_Z 120) ltac:(unfold Qle; cbn; lia) Hk) as [M2 N2].
  assert (N250 : nonneg (ofZ 250)) by reflexivity.
  assert (L250 : leb (ofZ 250) (ofZ 250) = true) by reflexivity.
  destruct (add_mono _ _ _ _ N250 L250 N1 M1) as [M3 N3].
  destruct (add_mono _ _ _ _ N3 M3 N2 M2) as [M4 N4].
  destruct (add_mono _ _ _ _ N4 M4 N250 L250) as [M5 _].
  exact M5.
Qed.

Lemma totalMs_chain_0 (T : Q) :
  add (add (add (ofZ 250) (mul (ofNat 0) (Finite T)))
           (mul (ofNat 0) (ofZ 120))) (ofZ 250) = Finite (inject_Z 500).
Proof.
  assert (E : mul (ofNat 0) (Finite T) = Finite 0).
  { cbn [mul ofNat ofZ]. apply roundToDouble_zero. cbn [Z.of_nat]. ring. }
  rewrite E. reflexivity.
Qed.

(** C8.  For a non-negative transition duration (the holds are the
    non-negative built-in constants) the total duration never decreases
    when a step is added. *)
Theorem timeline_totalMs_monotone (n : nat) (T : Q) :
  0 <= T -> leb (totalMs (timeline n T)) (totalMs (timeline (S n) T)) = true.
Proof.
  intro HT.
  destruct (le_lt_dec 2 n) as [Hge | Hlt].
  - rewrite !timeline_totalMs_several by lia.
    replace (S n - 1)%nat with (S (n - 1)) by lia.
    apply totalMs_chain; [exact HT | lia].
  - assert (Hn : n = 0%nat \/ n = 1%nat) by lia.
    destruct Hn as [-> | ->].
    + rewrite !timeline_totalMs_single by lia. reflexivity.
    + rewrite timeline_totalMs_single by lia.
      rewrite timeline_totalMs_several by lia.
      change (ofZ 500) with (Finite (inject_Z 500)).
      rewrite <- (totalMs_chain_0 T). cbn [Nat.sub].
      apply totalMs_chain; [exact HT | lia].
Qed.

Lemma timeline_totalMs_monotone_witness :
  leb (totalMs (timeline 2 800)) (totalMs (timeline 3 800)) = true.
Proof.
  apply (timeline_totalMs_monotone 2 800).
  unfold Qle. cbn. lia.
Defined.

(** The length of an array is below [2^32]; with such a step count the
    total is a number. *)
Lemma timeline_totalMs_not_NaN (k : nat) (T : Q) :
  (Z.of_nat k < 2 ^ 32)%Z -> totalMs (timeline k T) <> NaN.
Proof.
  intro Hk. unfold timeline. destruct (k <=? 1)%nat; cbn [totalMs]; [discriminate |].
  unfold ofNat, ofZ. rewrite (mul_Z (Z.of_nat (k - 1)) 120) by lia.
  apply add_Finite_not_NaN. apply add_Finite_not_NaN.
  cbn [mul add].
  pose proof (roundToDouble_not_NaN (inject_Z (Z.of_nat (k - 1)) * T)) as N.
  destruct (roundToDouble _) as [| [] | r]; cbn; try discriminate; try congruence.
  apply roundToDouble_not_NaN.
Qed.

End TimelineFacts.

(** ** Time-to-frame mapping *)

Section RenderFacts.
Import ToNumber Double Page.
Local Open Scope Q_scope.

(** The loop, entered at pair [i] with [t0] as its [t]. *)
Lemma pairLoop_trace (tl : Timeline) (T : Q) (n : nat) :
  forall (r i : nat) (t0 : JSNumber),
    let rem := remainingAt tl T t0 in
    let passed := fun j =>
      leb (rem j) (Finite T) = false /\
      leb (sub (rem j) (Finite T)) (betweenHold tl) = false in
    (forall m, (m < r)%nat -> (forall j, (j < m)%nat -> passed j) ->
       (leb (rem m) (Finite T) = true ->
          pairLoop tl T n r i t0 =
          Transitioning (i + m) (i + m + 1)
            (if leb (Finite T) (ofZ 0) then ofZ 1 else div (rem m) (Finite T))) /\
       (leb (rem m) (Finite T) = false ->
        leb (sub (rem m) (Finite T)) (betweenHold tl) = true ->
          pairLoop tl T n r i t0 = Holding (i + m + 1))) /\
    ((forall j, (j < r)%nat -> passed j) -> pairLoop tl T n r i t0 = Holding (n - 1)).
Proof.
  intro r. induction r as [| r IH]; intros i t0 rem passed.
  - split; [intros m Hm; lia | reflexivity].
  - assert (Hshift : forall m,
              rem (S m) = remainingAt tl T (sub (sub t0 (Finite T)) (betweenHold tl)) m).
    { intro m. subst rem. induction m as [| m IHm]; [reflexivity |].
      cbn [remainingAt] in *. rewrite IHm. reflexivity. }
    split.
    + intros [| m] Hm Hpassed.
      * rewrite !Nat.add_0_r. cbn [pairLoop]. subst rem. cbn [remainingAt]. split.
        -- intro Hle. rewrite Hle. reflexivity.
        -- intros Hgt Hhold. rewrite Hgt, Hhold. reflexivity.
      * destruct (Hpassed 0%nat ltac:(lia)) as [Hgt Hgt'].
        subst rem. cbn [remainingAt] in Hgt, Hgt'.
        cbn [pairLoop]. rewrite Hgt, Hgt'.
        destruct (IH (i + 1)%nat (sub (sub t0 (Finite T)) (betweenHold tl))) as [IHm _].
        specialize (IHm m ltac:(lia)).
        replace (i + S m)%nat with (i + 1 + m)%nat by lia.
        rewrite !Hshift. apply IHm.
        intros j Hj. specialize (Hpassed (S j) ltac:(lia)).
        unfold passed in Hpassed. rewrite !Hshift in Hpassed. exact Hpassed.
    + intro Hpassed.
      destruct (Hpassed 0%nat ltac:(lia)) as [Hgt Hgt'].
      subst rem. cbn [remainingAt] in Hgt, Hgt'.
      cbn [pairLoop]. rewrite Hgt, Hgt'.
      destruct (IH (i + 1)%nat (sub (sub t0 (Finite T)) (betweenHold tl))) as [_ IHend].
      apply IHend.
      intros j Hj. specialize (Hpassed (S j) ltac:(lia)).
      unfold passed in Hpassed. rewrite !Hshift in Hpassed. exact Hpassed.
Qed.

Lemma remainingAt_nonneg (tl : Timeline) (T : Q) (b : Q) (t0 : JSNumber) (i : nat) :
  betweenHold tl = Finite b ->
  nonnegOrNaN t0 ->
  (forall j, (j < i)%nat ->
     leb (remainingAt tl T t0 j) (Finite T) = false /\
     leb (sub (remainingAt tl T t0 j) (Finite T)) (betweenHold tl) = false) ->
  nonnegOrNaN (remainingAt tl T t0 i).
Proof.
  intros Hb H0. induction i as [| i IH]; intro Hpassed; [exact H0 |].
  cbn [remainingAt].
  destruct (Hpassed i ltac:(lia)) as [P1 P2].
  specialize (IH (fun j Hj => Hpassed j ltac:(lia))).
  rewrite Hb in *. apply sub_passed; [| exact P2]. apply sub_passed; assumption.
Qed.

Lemma renderAt_entry (tl : Timeline) (s : Q) (c : JSNumber) :
  startHold tl = Finite s -> ltb c (startHold tl) = false ->
  nonnegOrNaN (sub c (startHold tl)).
Proof.
  intros Hs H. rewrite Hs in *.
  destruct c as [| [] | q]; [left; reflexivity | | |]; right.
  - discriminate H.
  - reflexivity.
  - apply sub_nonneg. apply ltb_false_leb; [discriminate | discriminate | exact H].
Qed.

(** C1.  With at least two step layouts, [renderAt] clamps the elapsed
    time to [[0, totalMs]] (a time that is not a number stays so), draws
    step 0 while the clamped time is below [startHold], and otherwise
    walks the consecutive pairs: with [rem i] the value of [t] on entering
    pair [i -> i+1] (every earlier pair having been passed), it draws the
    transition [i -> i+1] at progress [rem i / transitionMs] when
    [rem i <= transitionMs] (progress [1] when [transitionMs] is [0]), the
    hold of step [i+1] when the time left after the transition is at most
    [betweenHold], and the hold of the last step once every pair has been
    passed.  The subtractions and the division are the program's, in
    double precision. *)
Theorem renderAt_time_to_state (k n : nat) (T : Q) (ms : JSNumber) :
  (2 <= n)%nat ->
  let tl := timeline k T in
  let clampMs := mathMax (ofZ 0) (mathMin (totalMs tl) ms) in
  let rem := remainingAt tl T (sub clampMs (startHold tl)) in
  let passed := fun j : nat =>
    leb (rem j) (Finite T) = false /\
    leb (sub (rem j) (Finite T)) (betweenHold tl) = false in
  let out := renderAt true n tl T ms in
  ((ms = NaN \/ totalMs tl = NaN -> clampMs = NaN) /\
   (ms <> NaN -> totalMs tl <> NaN -> leb (ofZ 0) clampMs = true) /\
   (ms <> NaN -> leb (ofZ 0) (totalMs tl) = true -> leb clampMs (totalMs tl) = true) /\
   (leb (ofZ 0) ms = true -> leb ms (totalMs tl) = true -> eqb clampMs ms = true) /\
   (ltb ms (ofZ 0) = true -> totalMs tl <> NaN -> clampMs = ofZ 0) /\
   (leb (ofZ 0) (totalMs tl) = true -> leb (totalMs tl) ms = true ->
    clampMs = totalMs tl)) /\
  (ltb clampMs (startHold tl) = true -> out = Some (Holding 0)) /\
  (ltb clampMs (startHold tl) = false ->
   forall i, (S i < n)%nat -> (forall j, (j < i)%nat -> passed j) ->
     (leb (rem i) (Finite T) = true ->
        out = Some (Transitioning i (S i)
                      (if Qeq_bool T 0 then ofZ 1 else div (rem i) (Finite T)))) /\
     (leb (rem i) (Finite T) = false ->
      leb (sub (rem i) (Finite T)) (betweenHold tl) = true ->
        out = Some (Holding (S i)))) /\
  (ltb clampMs (startHold tl) = false ->
   (forall j, (S j < n)%nat -> passed j) -> out = Some (Holding (n - 1))).
Proof.
  intros Hn tl clampMs rem passed out.
  destruct (timeline_holds k T) as (Hs & Hb & _). fold tl in Hs, Hb.
  assert (Hout : out =
    if ltb clampMs (startHold tl) then Some (Holding 0)
    else Some (pairLoop tl T n (n - 1) 0 (sub clampMs (startHold tl)))).
  { subst out. unfold renderAt. cbn [negb orb].
    destruct (Nat.eqb_spec n 0) as [E | _]; [lia |].
    destruct (Nat.eqb_spec n 1) as [E | _]; [lia |].
    reflexivity. }
  split; [exact (Math_clamp_spec (totalMs tl) ms) |].
  split; [| split].
  - intro Hlt. rewrite Hout, Hlt. reflexivity.
  - intros Hge i Hi Hpassed.
    destruct (pairLoop_trace tl T n (n - 1) 0 (sub clampMs (startHold tl))) as [Hm _].
    specialize (Hm i ltac:(lia) Hpassed).
    rewrite Hout, Hge. destruct Hm as [Htr Hho]. split.
    + intro Hle. rewrite (Htr Hle). cbn [Nat.add].
      replace (i + 1)%nat with (S i) by lia.
      assert (Hpos : nonnegOrNaN (rem i)).
      { apply (remainingAt_nonneg tl T (inject_Z 120)); [exact Hb | | exact Hpassed].
        rewrite Hs.
        destruct clampMs as [| [] | c] eqn:Ec; [left; reflexivity | | |];
          right; rewrite Hs in Hge.
        - cbn in Hge. discriminate.
        - reflexivity.
        - apply sub_nonneg. apply ltb_false_leb; [discriminate | discriminate | exact Hge]. }
      destruct Hpos as [Hnan | Hpos].
      { fold (rem i) in Hle. rewrite Hnan in Hle. discriminate Hle. }
      pose proof (leb_trans _ _ _ Hpos Hle) as H0T.
      apply leb_Finite in H0T. change (inject_Z 0) with 0 in H0T.
      assert (E : leb (Finite T) (ofZ 0) = Qeq_bool T 0).
      { unfold ofZ. cbn [leb]. change (inject_Z 0) with 0.
        destruct (Qeq_bool T 0) eqn:E0.
        - apply Qeq_bool_iff in E0. apply Qle_bool_iff. lra.
        - apply Qle_bool_false. apply Qeq_bool_neq in E0. lra. }
      rewrite E. reflexivity.
    + intros Hgt Hle. rewrite (Hho Hgt Hle). cbn [Nat.add].
      replace (i + 1)%nat with (S i) by lia. reflexivity.
  - intros Hge Hpassed.
    destruct (pairLoop_trace tl T n (n - 1) 0 (sub clampMs (startHold tl))) as [_ Hend].
    rewrite Hout, Hge. rewrite Hend; [reflexivity |].
    intros j Hj. apply Hpassed. lia.
Qed.

Lemma renderAt_time_to_state_witness :
  renderAt true 3 (timeline 3 800) 800 (ofZ 1500) =
    Some (Transitioning 1 2
            (if Qeq_bool 800 0 then ofZ 1
             else div (remainingAt (timeline 3 800) 800
                         (sub (mathMax (ofZ 0)
                                 (mathMin (totalMs (timeline 3 800)) (ofZ 1500)))
                              (startHold (timeline 3 800))) 1)
                      (Finite 800))) /\
  renderAt true 5 (timeline 5 (3532510957718733 # 35184372088832))
    (3532510957718733 # 35184372088832)
    (Finite (8898127701265613 # 8796093022208)) = Some (Holding 4).
Proof.
  split.
  - pose proof (renderAt_time_to_state 3 3 800 (ofZ 1500) (le_S 2 2 (le_n 2))) as H.
    cbv zeta in H. destruct H as (_ & _ & H & _).
    specialize (H ltac:(vm_compute; reflexivity) 1%nat (le_n 3)).
    apply H.
    + intros j Hj. assert (j = 0%nat) as -> by lia.
      split; vm_compute; reflexivity.
    + vm_compute. reflexivity.
  - pose proof (renderAt_time_to_state 5 5 (3532510957718733 # 35184372088832)
                  (Finite (8898127701265613 # 8796093022208))
                  (le_S 2 4 (le_S 2 3 (le_S 2 2 (le_n 2))))) as H.
    cbv zeta in H. destruct H as (_ & _ & H & _).
    specialize (H ltac:(vm_compute; reflexivity) 3%nat (le_n 5)).
    apply H.
    + intros j Hj.
      assert (Hj' : j = 0%nat \/ j = 1%nat \/ j = 2%nat) by lia.
      destruct Hj' as [-> | [-> | ->]]; split; vm_compute; reflexivity.
    + vm_compute. reflexivity.
    + vm_compute. reflexivity.
Defined.

(** Sample frames of a three-step timeline at 800 ms per transition. *)
Example renderAt_samples :
  map (fun ms => renderAt true 3 (timeline 3 800) 800 ms)
    [ofZ (-5); ofZ 249; ofZ 250; ofZ 650; ofZ 1050; ofZ 1170; ofZ 1171;
     ofZ 2090; ofZ 2091; ofZ 99999; NaN; Infinity false; Infinity true] =
  [Some (Holding 0); Some (Holding 0);
   Some (Transitioning 0 1 (Finite 0));
   Some (Transitioning 0 1 (Finite (1 # 2)));
   Some (Transitioning 0 1 (Finite 1));
   Some (Holding 1);
   Some (Transitioning 1 2 (Finite (5764607523034235 # 4611686018427387904)));
   Some (Holding 2); Some (Holding 2); Some (Holding 2);
   Some (Holding 2); Some (Holding 2); Some (Holding 0)].
Proof. vm_compute. reflexivity. Qed.

End RenderFacts.

(** ** Export *)

Section ExportFacts.
Import ToNumber Double Page.
Local Open Scope Q_scope.

Lemma renderAt_zero (k n : nat) (T : Q) :
  (Z.of_nat k < 2 ^ 32)%Z -> n <> 0%nat ->
  renderAt true n (timeline k T) T (ofZ 0) = Some (Holding 0).
Proof.
  intros Hk Hn. unfold renderAt. cbn [negb orb].
  destruct (Nat.eqb_spec n 0) as [E | _]; [contradiction |].
  destruct (n =? 1)%nat; [reflexivity |].
  pose proof (timeline_totalMs_not_NaN k T Hk) as N.
  destruct (timeline_holds k T) as (Hs & _ & _). rewrite Hs.
  assert (E : ltb (mathMax (ofZ 0) (mathMin (totalMs (timeline k T)) (ofZ 0))) (ofZ 250)
              = true).
  { unfold ofZ. destruct (totalMs (timeline k T)) as [| [] | p]; [congruence | | |];
      cbn [mathMin mathMax]; try reflexivity.
    destruct (Qle_bool p (inject_Z 0)) eqn:E1.
    - destruct (Qle_bool (inject_Z 0) p) eqn:E2; [| reflexivity].
      qle_hyps. cbn [ltb]. apply negb_true_iff. apply Qle_bool_false.
      assert (0 < inject_Z 250) by reflexivity. lra.
    - reflexivity. }
  rewrite E. reflexivity.
Qed.

(** C7.  Once the export has started (a canvas and at least one step
    layout exist), however the recording ends -- it resolves, it resolves
    and creating the object URL throws, or it rejects -- and whatever ran
    while it was awaited, the export ends with the progress fraction at 0,
    the playhead at 0 and [renderAt(0)] as the last frame drawn, which on
    the component's timeline (of a step list, whose length is below
    [2^32]) is the hold of step 0; its render loop is cancelled, so a
    callback still pending draws nothing. *)
Theorem onExport_cleanup (env : Env) (st : State) (events : list Event)
    (outcome : Outcome) :
  canvas env = true -> stepLayouts env <> 0%nat ->
  exists st' lp earlier,
    onExport env st events outcome = (st', Some lp) /\
    isExporting st' = false /\
    exportProgress st' = ofZ 0 /\
    playheadMs st' = ofZ 0 /\
    frames st' =
      earlier ++
      [(ofZ 0, renderAt true (stepLayouts env) (tl env) (transitionMs env) (ofZ 0))] /\
    (forall k, (Z.of_nat k < 2 ^ 32)%Z -> tl env = timeline k (transitionMs env) ->
       frames st' = earlier ++ [(ofZ 0, Some (Holding 0))]) /\
    cancelled lp = true /\
    (forall elapsed,
       fst (renderLoop env (totalMs (tl env)) elapsed (st', lp)) = st').
Proof.
  intros Hc Hn. unfold onExport, callRenderAt. rewrite !Hc. cbn [negb].
  destruct (Nat.eqb_spec (stepLayouts env) 0) as [E | _]; [contradiction |].
  destruct (fold_left _ events _) as [st1 lp1].
  assert (Hloop : forall s b elapsed,
            fst (renderLoop env (totalMs (tl env)) elapsed (s, mkLoop true b)) = s).
  { intros s b elapsed. unfold renderLoop. cbn. destruct b; reflexivity. }
  destruct outcome as [url | e | e]; cbn -[renderAt renderLoop ofZ];
    eexists; eexists; exists (frames st1);
    (split; [reflexivity |]); cbn -[renderAt renderLoop ofZ];
    (split; [reflexivity |]); (split; [reflexivity |]);
    (split; [reflexivity |]); (split; [reflexivity |]);
    (split; [intros k Hk Htl; rewrite Htl, renderAt_zero by assumption; reflexivity |]);
    (split; [reflexivity |]);
    intro elapsed; apply Hloop.
Qed.

Lemma onExport_cleanup_witness :
  exists st' lp earlier,
    onExport (mkEnv true 2 (timeline 2 800) 800)
      (mkState false (ofZ 0) (Some 7%nat) None (ofZ 40) [] [])
      [AnimationFrame (ofZ 16); Progress (ofZ 16) (ofZ 1420)]
      (Rejected OtherValue) = (st', Some lp) /\
    isExporting st' = false /\
    exportProgress st' = ofZ 0 /\
    playheadMs st' = ofZ 0 /\
    frames st' =
      earlier ++ [(ofZ 0, renderAt true 2 (timeline 2 800) 800 (ofZ 0))] /\
    (forall k, (Z.of_nat k < 2 ^ 32)%Z -> timeline 2 800 = timeline k 800 ->
       frames st' = earlier ++ [(ofZ 0, Some (Holding 0))]) /\
    cancelled lp = true /\
    (forall elapsed,
       fst (renderLoop (mkEnv true 2 (timeline 2 800) 800)
              (totalMs (timeline 2 800)) elapsed (st', lp)) = st').
Proof.
  apply (onExport_cleanup (mkEnv true 2 (timeline 2 800) 800)
           (mkState false (ofZ 0) (Some 7%nat) None (ofZ 40) [] [])
           [AnimationFrame (ofZ 16); Progress (ofZ 16) (ofZ 1420)]
           (Rejected OtherValue)).
  - reflexivity.
  - cbn. discriminate.
Defined.

End ExportFacts.

(** ** Metadata parser *)

Section LineMetaFacts.
Import LineMeta.

Variable Number : option JSString -> JSNumber.

Lemma eqb_eq (a b : JSString) : eqb a b = true <-> a = b.
Proof.
  unfold eqb. destruct (list_eq_dec N.eq_dec a b); split; congruence.
Qed.

Lemma eqb_neq (a b : JSString) : eqb a b = false <-> a <> b.
Proof.
  unfold eqb. destruct (list_eq_dec N.eq_dec a b); split; congruence.
Qed.

Lemma fold_left_flat_map {A B C : Type} (f : A -> C -> A) (g : B -> list C)
    (l : list B) (a : A) :
  fold_left (fun acc b => fold_left f (g b) acc) l a = fold_left f (flat_map g l) a.
Proof.
  revert a. induction l as [| b l IH]; intro a; cbn.
  - reflexivity.
  - rewrite fold_left_app. apply IH.
Qed.

(** The parser is the fold of the loop body over the parts it visits. *)
Lemma parseLineMetaDetailed_fold (info : JSString) :
  parseLineMetaDetailed Number (Some info) =
  fold_left (processPart Number) (rawParts info)
    (mkResult (mkMeta false 1) (mkSpecified false false)).
Proof.
  unfold parseLineMetaDetailed, rawParts.
  destruct info as [| c info]; [reflexivity |].
  cbn [isEmpty]. unfold processBlock. apply fold_left_flat_map.
Qed.

Lemma geOne_floor (n : JSNumber) :
  isFinite n && geOne n = true -> (1 <= Math_floor n)%Z.
Proof.
  destruct n as [| b | q]; cbn; try discriminate.
  intro H. apply Qle_bool_iff in H.
  apply Qfloor_resp_le in H. exact H.
Qed.

Lemma processPart_cases (r : LineMetaParseResult) (rawPart : JSString) :
  processPart Number r rawPart = r \/
  processPart Number r rawPart =
    mkResult (mkMeta (match valueOf (trim rawPart) with
                      | Some v => eqb v (str "true")
                      | None => false
                      end) (startLine (meta r)))
             (mkSpecified true (specStartLine (specified r))) \/
  (isFinite (Number (valueOf (trim rawPart))) &&
     geOne (Number (valueOf (trim rawPart))) = true /\
   processPart Number r rawPart =
    mkResult (mkMeta (lines (meta r)) (Math_floor (Number (valueOf (trim rawPart)))))
             (mkSpecified (specLines (specified r)) true)).
Proof.
  unfold processPart.
  destruct (isEmpty (trim rawPart)); [left; reflexivity |].
  destruct (isEmpty (keyOf (trim rawPart))); [left; reflexivity |].
  destruct (eqb (keyOf (trim rawPart)) (str "lines")); [right; left; reflexivity |].
  destruct (eqb (keyOf (trim rawPart)) (str "startLine")); [| left; reflexivity].
  destruct (isFinite _ && geOne _) eqn:E; [| left; reflexivity].
  right. right. split; reflexivity.
Qed.

Lemma processPart_startLine_ge1 (r : LineMetaParseResult) (rawPart : JSString) :
  (1 <= startLine (meta r))%Z ->
  (1 <= startLine (meta (processPart Number r rawPart)))%Z.
Proof.
  intro H.
  destruct (processPart_cases r rawPart) as [-> | [-> | [E ->]]]; cbn.
  - exact H.
  - exact H.
  - apply geOne_floor. exact E.
Qed.

Lemma fold_processPart_startLine_ge1 (parts : list JSString) (r : LineMetaParseResult) :
  (1 <= startLine (meta r))%Z ->
  (1 <= startLine (meta (fold_left (processPart Number) parts r)))%Z.
Proof.
  revert r. induction parts as [| p parts IH]; intros r H; cbn.
  - exact H.
  - apply IH. apply processPart_startLine_ge1. exact H.
Qed.

Lemma parseLineMetaDetailed_startLine_ge1 (info : option JSString) :
  (1 <= startLine (meta (parseLineMetaDetailed Number info)))%Z.
Proof.
  destruct info as [info |]; [| cbn; lia].
  rewrite parseLineMetaDetailed_fold.
  apply fold_processPart_startLine_ge1. cbn. lia.
Qed.

(** The loop body by the key of the part. *)
Lemma processPart_eq (r : LineMetaParseResult) (rawPart : JSString) :
  let part := trim rawPart in
  let n := Number (valueOf part) in
  processPart Number r rawPart =
  if eqb (keyOf part) (str "lines") then
    mkResult (mkMeta (match valueOf part with
                      | Some v => eqb v (str "true")
                      | None => false
                      end) (startLine (meta r)))
             (mkSpecified true (specStartLine (specified r)))
  else if eqb (keyOf part) (str "startLine") && (isFinite n && geOne n) then
    mkResult (mkMeta (lines (meta r)) (Math_floor n))
             (mkSpecified (specLines (specified r)) true)
  else r.
Proof.
  cbv zeta. unfold processPart.
  destruct (trim rawPart) as [| c part] eqn:Ep; [reflexivity |].
  cbn [isEmpty].
  destruct (keyOf (c :: part)) as [| k key] eqn:Ek; [reflexivity |].
  cbn [isEmpty].
  destruct (eqb (k :: key) (str "lines")); [reflexivity |].
  destruct (eqb (k :: key) (str "startLine")); [| reflexivity].
  cbn [andb]. reflexivity.
Qed.


End LineMetaFacts.

(** ** Strings *)

Section StringFacts.

Lemma forallb_dropWhile (p q : N -> bool) (s : JSString) :
  forallb p s = true -> forallb p (dropWhile q s) = true.
Proof.
  induction s as [| c s IH]; cbn; [reflexivity |].
  intro H. apply andb_true_iff in H as [Hc Hs].
  destruct (q c); [apply IH; exact Hs |].
  cbn. rewrite Hc, Hs. reflexivity.
Qed.

Lemma forallb_rev (p : N -> bool) (s : JSString) :
  forallb p s = true -> forallb p (rev s) = true.
Proof.
  rewrite !forallb_forall. intros H c Hc. apply H. apply in_rev. exact Hc.
Qed.

Lemma forallb_trim (p : N -> bool) (s : JSString) :
  forallb p s = true -> forallb p (trim s) = true.
Proof.
  intro H. unfold trim, trimEnd, trimStart.
  apply forallb_rev, forallb_dropWhile, forallb_rev, forallb_dropWhile. exact H.
Qed.

Lemma dropWhile_head (p : N -> bool) (s : JSString) :
  match dropWhile p s with
  | [] => True
  | c :: _ => p c = false
  end.
Proof.
  induction s as [| c s IH]; cbn; [exact I |].
  destruct (p c) eqn:E; [exact IH | exact E].
Qed.

Lemma dropWhile_suffix (p : N -> bool) (s : JSString) :
  exists pre, s = pre ++ dropWhile p s.
Proof.
  induction s as [| c s [pre IH]]; cbn.
  - exists []. reflexivity.
  - destruct (p c).
    + exists (c :: pre). cbn. f_equal. exact IH.
    + exists []. reflexivity.
Qed.

Lemma trimEnd_prefix (s : JSString) : exists suf, s = trimEnd s ++ suf.
Proof.
  unfold trimEnd. destruct (dropWhile_suffix isWhiteSpace (rev s)) as [pre H].
  exists (rev pre). rewrite <- rev_app_distr, <- H, rev_involutive. reflexivity.
Qed.

Lemma trim_head (s : JSString) :
  match trim s with
  | [] => True
  | c :: _ => isWhiteSpace c = false
  end.
Proof.
  unfold trim. pose proof (dropWhile_head isWhiteSpace s) as Hh.
  fold (trimStart s) in Hh.
  destruct (trimEnd_prefix (trimStart s)) as [suf Hs].
  destruct (trimEnd (trimStart s)) as [| c t]; [exact I |].
  rewrite Hs in Hh. exact Hh.
Qed.

End StringFacts.

(** ** Block and step parser *)

Section MagicMoveFacts.
Import LineMeta MagicMove.

Variable Number : option JSString -> JSNumber.

Local Abbreviation notSpace := (fun c : N => negb (isWhiteSpace c)).
Local Abbreviation notTerminator := (fun c : N => negb (isLineTerminator c)).
Local Abbreviation isStepFence := (fun f : Fence => eqb (fence f) (str "```")).

(** What [parseFencedBlocks] guarantees of a fence's info string: it is
    trimmed at the front and holds no line terminator. *)
Local Abbreviation infoOK i :=
  (match i%list return Prop with nil => True | cons c _ => isWhiteSpace c = false end /\
   forallb notTerminator i%list = true).

Lemma matchOpen_rest (line f rest : JSString) :
  matchOpen line = Some (f, rest) -> forallb notTerminator rest = true.
Proof.
  unfold matchOpen.
  destruct (_ && _) eqn:E; [| discriminate].
  intro H. injection H as _ <-.
  apply andb_true_iff in E as [_ E]. exact E.
Qed.

Lemma scanLines_info (lines : list JSString)
    (open : option (JSString * JSString * list JSString)) :
  match open with
  | Some (_, i, _) => infoOK i
  | None => True
  end ->
  Forall (fun f => infoOK (info f)) (scanLines lines open).
Proof.
  revert open. induction lines as [| l lines IH]; intros open Hopen; cbn.
  - destruct open as [[[f i] b] |]; constructor; [exact Hopen | constructor].
  - destruct open as [[[f i] b] |].
    + destruct (startsWith f l).
      * constructor; [exact Hopen | apply IH; exact I].
      * apply IH. exact Hopen.
    + destruct (matchOpen l) as [[f rawInfo] |] eqn:E.
      * apply IH. split; [apply trim_head |].
        apply forallb_trim. eapply matchOpen_rest. exact E.
      * apply IH. exact I.
Qed.

Lemma parseFencedBlocks_info (input : JSString) :
  Forall (fun f => infoOK (info f)) (parseFencedBlocks input).
Proof.
  unfold parseFencedBlocks. apply scanLines_info. exact I.
Qed.

Lemma stripFirstWord_word (i : JSString) :
  infoOK i -> i <> [] ->
  fst (stripFirstWord i) = takeWhile notSpace i /\ fst (stripFirstWord i) <> [].
Proof.
  intros [Hhead Hterm] Hne. unfold stripFirstWord.
  destruct i as [| c i]; [contradiction |].
  cbn [takeWhile]. rewrite Hhead. cbn [negb isEmpty].
  destruct (isEmpty (dropWhile notSpace (c :: i))); [split; [reflexivity | discriminate] |].
  rewrite (forallb_dropWhile notTerminator isWhiteSpace).
  - split; [reflexivity | discriminate].
  - apply forallb_dropWhile. exact Hterm.
Qed.

Lemma stepOfFence_other (outer : Meta) (f : Fence) :
  isStepFence f = false -> stepOfFence Number outer f = None.
Proof.
  intro H. unfold stepOfFence. rewrite H. reflexivity.
Qed.

Lemma stepOfFence_step (outer : Meta) (f : Fence) :
  isStepFence f = true ->
  let first := fst (stripFirstWord (info f)) in
  let parsed := parseLineMetaDetailed Number (Some (snd (stripFirstWord (info f)))) in
  stepOfFence Number outer f =
  Some (mkStep (if isEmpty first then str "text" else first) (body f)
          (mkMeta
             (if specLines (specified parsed) then lines (meta parsed) else lines outer)
             (if specStartLine (specified parsed) then startLine (meta parsed)
              else startLine outer))).
Proof.
  intro H. unfold stepOfFence. rewrite H. cbn [negb].
  destruct (stripFirstWord (info f)) as [first rest]. reflexivity.
Qed.

Lemma stepsOfFences_Forall2 (R : Fence -> Step -> Prop) (outer : Meta)
    (fences : list Fence) :
  (forall f s, In f fences -> isStepFence f = true ->
     stepOfFence Number outer f = Some s -> R f s) ->
  Forall2 R (filter isStepFence fences) (stepsOfFences Number outer fences).
Proof.
  induction fences as [| f fences IH]; intro H; cbn [filter stepsOfFences].
  - constructor.
  - destruct (eqb (fence f) (str "```")) eqn:E.
    + pose proof (stepOfFence_step outer f E) as Hs. cbv zeta in Hs.
      rewrite Hs. constructor.
      * apply H; [left; reflexivity | exact E | exact Hs].
      * apply IH. intros g s Hg. apply H. right. exact Hg.
    + rewrite (stepOfFence_other outer f E).
      apply IH. intros g s Hg. apply H. right. exact Hg.
Qed.

Lemma Forall2_map_self {A B : Type} (f : A -> B) (R : A -> B -> Prop) (l : list A) :
  (forall a, In a l -> R a (f a)) -> Forall2 R l (map f l).
Proof.
  induction l as [| a l IH]; intro H; cbn; constructor.
  - apply H. left. reflexivity.
  - apply IH. intros b Hb. apply H. right. exact Hb.
Qed.

(** *** Start lines *)

Lemma stepOfFence_startLine_ge1 (outer : Meta) (f : Fence) (s : Step) :
  (1 <= startLine outer)%Z ->
  stepOfFence Number outer f = Some s -> (1 <= startLine (stepMeta s))%Z.
Proof.
  intros Ho Hs. destruct (eqb (fence f) (str "```")) eqn:E.
  - rewrite (stepOfFence_step outer f E) in Hs. cbv zeta in Hs.
    injection Hs as <-. cbn [stepMeta startLine].
    destruct (specStartLine _); [| exact Ho].
    exact (parseLineMetaDetailed_startLine_ge1 Number
             (Some (snd (stripFirstWord (info f))))).
  - rewrite (stepOfFence_other outer f E) in Hs. discriminate.
Qed.

Lemma stepsOfFences_startLine_ge1 (outer : Meta) (fences : list Fence) :
  (1 <= startLine outer)%Z ->
  Forall (fun s => (1 <= startLine (stepMeta s))%Z) (stepsOfFences Number outer fences).
Proof.
  intro Ho. induction fences as [| f fences IH]; cbn [stepsOfFences]; [constructor |].
  destruct (stepOfFence Number outer f) as [s |] eqn:E; [| exact IH].
  constructor; [| exact IH].
  eapply stepOfFence_startLine_ge1; eassumption.
Qed.

Lemma startLineErrors_none (ss : list Step) (idx : nat) :
  Forall (fun s => (1 <= startLine (stepMeta s))%Z) ss ->
  startLineErrors idx ss = [].
Proof.
  intro H. revert idx. induction H as [| s ss Hs _ IH]; intro idx; cbn.
  - reflexivity.
  - destruct (Z.ltb_spec (startLine (stepMeta s)) 1) as [Hlt | _]; [lia |].
    apply IH.
Qed.

(** C5.  Whatever the document, every step of every parsed block has a
    start line of at least 1; no block's error list holds a
    ["Step N: startLine must be >= 1"] message, the list being empty or
    just the no-steps message. *)
Theorem parseMagicMove_startLine_ge1 (input : JSString) :
  Forall (fun b =>
      Forall (fun s => (1 <= startLine (stepMeta s))%Z) (steps b) /\
      (forall idx, ~ In (startLineError idx) (errors b)) /\
      (errors b = [] \/ errors b = [noStepsError]))
    (blocks (parseMagicMove Number input)).
Proof.
  unfold parseMagicMove. cbn [blocks].
  apply Forall_map. apply Forall_forall. intros w _.
  unfold blockOfWrapper. cbn [steps errors].
  set (outer := meta (parseLineMetaDetailed Number (Some (trim (group3 w))))).
  assert (Ho : (1 <= startLine outer)%Z)
    by apply parseLineMetaDetailed_startLine_ge1.
  pose proof (stepsOfFences_startLine_ge1 outer (parseFencedBlocks (group4 w)) Ho)
    as Hsteps.
  rewrite (startLineErrors_none _ 0 Hsteps), app_nil_r.
  split; [exact Hsteps |]. split.
  - intros idx Hin.
    destruct (length _ =? 0)%nat; [| exact Hin].
    destruct Hin as [Hin | []].
    unfold noStepsError, startLineError in Hin. discriminate Hin.
  - destruct (length _ =? 0)%nat; [right | left]; reflexivity.
Qed.

(** *** The [lines] key *)


(** *** Step languages *)

(** C9 (amended).  In every parsed block each step, taken from a
    triple-backtick fence, has a non-empty language: ["text"] when the
    fence's info string is empty, and otherwise the first
    white-space-delimited word of the info string, whatever that word
    is. *)
Theorem step_language_first_word (input : JSString) :
  Forall2 (fun w b =>
      Forall2 (fun f s =>
          lang s <> [] /\
          (info f = [] -> lang s = str "text") /\
          (info f <> [] -> lang s = takeWhile notSpace (info f)))
        (filter isStepFence (parseFencedBlocks (group4 w))) (steps b))
    (matchAll input) (blocks (parseMagicMove Number input)).
Proof.
  unfold parseMagicMove. cbn [blocks].
  apply Forall2_map_self. intros w _.
  unfold blockOfWrapper. cbn [steps].
  pose proof (parseFencedBlocks_info (group4 w)) as Hinfo.
  rewrite Forall_forall in Hinfo.
  apply stepsOfFences_Forall2. intros f s Hin Hf Hs.
  rewrite (stepOfFence_step _ f Hf) in Hs. cbv zeta in Hs.
  injection Hs as <-. cbn [lang].
  destruct (info f) as [| c i] eqn:Ei.
  - cbn. split; [discriminate |]. split; [reflexivity | intro H; contradiction].
  - assert (Hne : c :: i <> []) by discriminate.
    specialize (Hinfo f Hin). rewrite Ei in Hinfo.
    destruct (stripFirstWord_word (c :: i) Hinfo Hne) as [Hw Hn].
    destruct (fst (stripFirstWord (c :: i))) as [| d first] eqn:Ef; [contradiction |].
    cbn [isEmpty]. split; [discriminate |]. split; [discriminate |].
    intros _. exact Hw.
Qed.

End MagicMoveFacts.

(** C9, as stated, fails: a fence whose info string is only a metadata
    group has no word before the metadata, and yet its language is not
    ["text"]: the group itself is taken as the language (and is not read
    as metadata, so the outer values are inherited). *)
Lemma metadata_only_fence_language :
  map (fun b => map (fun s => (MagicMove.lang s, MagicMove.stepMeta s)) (MagicMove.steps b))
    (MagicMove.blocks (MagicMove.parseMagicMove ToNumber.Number
       (join lineFeed
          [str "````shiki-magic-move {lines:true}";
           str "``` {startLine:3}"; str "x"; str "```";
           str "````"]))) =
  [[(str "{startLine:3}", LineMeta.mkMeta true 1)]] /\
  eqb (str "{startLine:3}") (str "text") = false.
Proof. vm_compute. split; reflexivity. Qed.

(** ** Token animation *)

Section AnimateFacts.
Import Animate.

Lemma keyEqb_eq (a b : Key) : keyEqb a b = true <-> a = b.
Proof.
  destruct a as [ta na], b as [tb nb]. unfold keyEqb. cbn [fst snd].
  rewrite andb_true_iff, eqb_eq, Nat.eqb_eq.
  split; [intros [-> ->]; reflexivity | intro H; injection H; auto].
Qed.

Lemma map_snd_keyedFrom (seen ts : list Token) : map snd (keyedFrom seen ts) = ts.
Proof.
  revert seen. induction ts as [| t ts IH]; intro seen; cbn; [reflexivity |].
  f_equal. apply IH.
Qed.

Lemma keyedFrom_text (seen ts : list Token) (e : Key * Token) :
  In e (keyedFrom seen ts) -> fst (fst e) = text (snd e).
Proof.
  revert seen. induction ts as [| t ts IH]; intros seen H; cbn in H; [contradiction |].
  destruct H as [<- | H]; [reflexivity | eapply IH; exact H].
Qed.

Lemma occurrences_cons_le (t : JSString) (s : Token) (seen : list Token) :
  (occurrences t seen <= occurrences t (s :: seen))%nat.
Proof.
  cbn. destruct (eqb (text s) t); lia.
Qed.

Lemma keyedFrom_rank (seen ts : list Token) (e : Key * Token) :
  In e (keyedFrom seen ts) -> (occurrences (fst (fst e)) seen <= snd (fst e))%nat.
Proof.
  revert seen. induction ts as [| t ts IH]; intros seen H; cbn in H; [contradiction |].
  destruct H as [<- | H]; [cbn; lia |].
  apply IH in H. pose proof (occurrences_cons_le (fst (fst e)) t seen). lia.
Qed.

(** Keys are unique within a layout. *)
Lemma keyedFrom_NoDup (seen ts : list Token) : NoDup (map fst (keyedFrom seen ts)).
Proof.
  revert seen. induction ts as [| t ts IH]; intro seen; cbn; constructor.
  - intro Hin. apply in_map_iff in Hin as [e [He Hin]].
    apply keyedFrom_rank in Hin. rewrite He in Hin. cbn in Hin.
    assert (E : eqb (text t) (text t) = true) by (apply eqb_eq; reflexivity).
    rewrite E in Hin. lia.
  - apply IH.
Qed.

Lemma lookup_In (l : list (Key * Token)) (k : Key) (b : Token) :
  NoDup (map fst l) -> (lookup k l = Some b <-> In (k, b) l).
Proof.
  unfold lookup. induction l as [| [k' t] l IH]; intro Hnd; cbn.
  - split; [discriminate | contradiction].
  - inversion Hnd as [| ? ? Hnotin Hnd']; subst.
    destruct (keyEqb k' k) eqn:E.
    + apply keyEqb_eq in E. subst k'. cbn. split.
      * intro H. injection H as ->. left. reflexivity.
      * intros [H | H]; [injection H as ->; reflexivity |].
        exfalso. apply Hnotin. apply in_map_iff. exists (k, b). auto.
    + rewrite (IH Hnd'). split; [intro H; right; exact H |].
      intros [H | H]; [| exact H].
      injection H as -> ->.
      assert (keyEqb k k = true) by (apply keyEqb_eq; reflexivity). congruence.
Qed.

Lemma lookup_None (l : list (Key * Token)) (k : Key) :
  lookup k l = None <-> ~ In k (map fst l).
Proof.
  unfold lookup. induction l as [| [k' t] l IH]; cbn.
  - split; [intros _ [] | reflexivity].
  - destruct (keyEqb k' k) eqn:E.
    + apply keyEqb_eq in E. subst k'. cbn. split; [discriminate |].
      intro H. exfalso. apply H. left. reflexivity.
    + rewrite IH. split.
      * intros H [Hk | Hk]; [| exact (H Hk)].
        subst k'. assert (keyEqb k k = true) by (apply keyEqb_eq; reflexivity).
        congruence.
      * intros H Hk. apply H. right. exact Hk.
Qed.

Section Matching.

Variables kf kt : list (Key * Token).
Hypothesis NoDup_kf : NoDup (map fst kf).
Hypothesis NoDup_kt : NoDup (map fst kt).

(** The destination tokens that match a source token, in source order. *)
Let matched : list (Key * Token) :=
  flat_map (fun e => match lookup (fst e) kt with
                     | Some b => [(fst e, b)]
                     | None => []
                     end) kf.

(** The destination tokens that match none. *)
Let fresh : list (Key * Token) :=
  filter (fun e => match lookup (fst e) kf with
                   | Some _ => false
                   | None => true
                   end) kt.

Lemma matched_In (k : Key) (b : Token) :
  In (k, b) matched <-> In k (map fst kf) /\ In (k, b) kt.
Proof.
  unfold matched. rewrite in_flat_map. split.
  - intros [e [He Hin]].
    destruct (lookup (fst e) kt) as [b' |] eqn:El; [| contradiction].
    destruct Hin as [Hin | []]. injection Hin as <- <-.
    split; [apply in_map; exact He | apply lookup_In; assumption].
  - intros [Hk Hb]. apply in_map_iff in Hk as [e [<- He]].
    exists e. split; [exact He |].
    apply (lookup_In kt _ _ NoDup_kt) in Hb. rewrite Hb. left. reflexivity.
Qed.

Lemma fresh_In (k : Key) (b : Token) :
  In (k, b) fresh <-> In (k, b) kt /\ ~ In k (map fst kf).
Proof.
  unfold fresh. rewrite filter_In. cbn [fst]. rewrite <- lookup_None.
  destruct (lookup k kf); split; intros [H1 H2]; split;
    congruence || assumption || discriminate.
Qed.

Lemma NoDup_keys_pairs (l : list (Key * Token)) : NoDup (map fst l) -> NoDup l.
Proof. apply NoDup_map_inv. Qed.

Lemma matched_keys_NoDup : NoDup (map fst matched).
Proof.
  unfold matched. clear fresh. revert NoDup_kf.
  induction kf as [| e l IH]; intro Hnd; cbn; [constructor |].
  inversion Hnd as [| ? ? Hnotin Hnd']; subst.
  destruct (lookup (fst e) kt) as [b |]; cbn; [| apply IH; exact Hnd'].
  constructor; [| apply IH; exact Hnd'].
  intro Hin. apply Hnotin.
  apply in_map_iff in Hin as [[k' b'] [Hk Hin]]. cbn in Hk. subst k'.
  apply in_flat_map in Hin as [e' [He' Hin]].
  destruct (lookup (fst e') kt) as [b'' |]; [| contradiction].
  destruct Hin as [Hin | []]. injection Hin as Hk _.
  rewrite <- Hk. apply in_map. exact He'.
Qed.

Lemma matched_fresh_Permutation : Permutation (matched ++ fresh) kt.
Proof.
  apply NoDup_Permutation.
  - apply NoDup_app.
    + apply NoDup_keys_pairs, matched_keys_NoDup.
    + apply NoDup_filter, NoDup_keys_pairs, NoDup_kt.
    + intros [k b] Hm Hf. apply matched_In in Hm as [Hk _].
      apply fresh_In in Hf as [_ Hn]. exact (Hn Hk).
  - apply NoDup_keys_pairs, NoDup_kt.
  - intros [k b]. rewrite in_app_iff, matched_In, fresh_In. split.
    + intros [[_ H] | [H _]]; exact H.
    + intro H. destruct (lookup k kf) as [a |] eqn:El.
      * left. split; [| exact H].
        destruct (in_dec (fun a b : Key =>
                    match Bool.bool_dec (keyEqb a b) true with
                    | left E => left (proj1 (keyEqb_eq a b) E)
                    | right E => right (fun H => E (proj2 (keyEqb_eq a b) H))
                    end) k (map fst kf)) as [Hin | Hnot]; [exact Hin |].
        apply lookup_None in Hnot. congruence.
      * right. split; [exact H | apply lookup_None; exact El].
Qed.

End Matching.

Lemma one_minus_one : (1 - 1 : Qc) = 0.
Proof. ring. Qed.

Lemma one_minus_zero : (1 - 0 : Qc) = 1.
Proof. ring. Qed.

Lemma lerp_0 (a b : Qc) : lerp a b 0 = a.
Proof. unfold lerp. ring. Qed.

Lemma lerp_1 (a b : Qc) : lerp a b 1 = b.
Proof. unfold lerp. ring. Qed.

Lemma animateFrom_0 (B : Layout) (e : Key * Token) :
  animateFrom B 0 e = still 1 (snd e).
Proof.
  unfold animateFrom, still.
  destruct (lookup (fst e) (keyed (tokens B))) as [b |].
  - rewrite !lerp_0. reflexivity.
  - rewrite one_minus_zero. reflexivity.
Qed.

Lemma animateFrom_1 (B : Layout) (e : Key * Token) :
  fst (fst e) = text (snd e) ->
  animateFrom B 1 e =
  match lookup (fst e) (keyed (tokens B)) with
  | Some b => still 1 b
  | None => still 0 (snd e)
  end.
Proof.
  intro He. unfold animateFrom, still.
  destruct (lookup (fst e) (keyed (tokens B))) as [b |] eqn:El.
  - rewrite !lerp_1.
    apply (lookup_In _ _ _ (keyedFrom_NoDup [] (tokens B))) in El.
    apply keyedFrom_text in El. cbn in El.
    rewrite <- He, El. reflexivity.
  - rewrite one_minus_one. reflexivity.
Qed.

Lemma visible_still_1 (b : Token) : visible (still 1 b) = true.
Proof. reflexivity. Qed.

Lemma visible_still_0 (a : Token) : visible (still 0 a) = false.
Proof. reflexivity. Qed.

Lemma filter_visible_from (B : Layout) (kf : list (Key * Token)) :
  (forall e, In e kf -> fst (fst e) = text (snd e)) ->
  filter visible (map (animateFrom B 1) kf) =
  map (fun e => still 1 (snd e))
    (flat_map (fun e => match lookup (fst e) (keyed (tokens B)) with
                        | Some b => [(fst e, b)]
                        | None => []
                        end) kf).
Proof.
  induction kf as [| e kf IH]; intro H; cbn [map filter flat_map]; [reflexivity |].
  rewrite animateFrom_1 by (apply H; left; reflexivity).
  rewrite IH by (intros e' He'; apply H; right; exact He').
  destruct (lookup (fst e) (keyed (tokens B))) as [b |].
  - rewrite visible_still_1. reflexivity.
  - rewrite visible_still_0. reflexivity.
Qed.

Lemma filter_visible_still_1 (l : list Token) :
  filter visible (map (still 1) l) = map (still 1) l.
Proof.
  induction l as [| t l IH]; cbn [map filter]; [reflexivity |].
  rewrite visible_still_1, IH. reflexivity.
Qed.

(** C4.  At progress 0 the animation of [A] into [B] is [A]'s own tokens,
    in order, each at its own position and color with opacity 1, followed
    by the tokens only [B] has at opacity 0.  At progress 1 every token of
    the output is a token of [B] at [B]'s position and color with opacity
    1, or a token of [A] at opacity 0, and the painted tokens are exactly
    [B]'s tokens, each once. *)
Theorem animateLayouts_endpoints (A B : Layout) :
  animateLayouts A B 0 =
    map (still 1) (tokens A) ++ map (still 0) (added A B) /\
  Permutation (filter visible (animateLayouts A B 1)) (map (still 1) (tokens B)) /\
  Forall (fun t => (exists b, In b (tokens B) /\ t = still 1 b) \/
                   (exists a, In a (tokens A) /\ t = still 0 a))
    (animateLayouts A B 1).
Proof.
  split; [| split].
  - unfold animateLayouts. f_equal.
    rewrite (map_ext _ (fun e => still 1 (snd e)) (animateFrom_0 B)).
    rewrite <- (map_map snd (still 1)). unfold keyed.
    rewrite map_snd_keyedFrom. reflexivity.
  - unfold animateLayouts. rewrite filter_app.
    rewrite filter_visible_from by (intros e He; eapply keyedFrom_text; exact He).
    rewrite filter_visible_still_1. unfold added.
    rewrite (map_map snd (still 1)), <- map_app.
    assert (E : map (still 1) (tokens B) =
                map (fun e => still 1 (snd e)) (keyed (tokens B))).
    { rewrite <- (map_map snd (still 1)). unfold keyed.
      rewrite map_snd_keyedFrom. reflexivity. }
    rewrite E. apply Permutation_map.
    apply matched_fresh_Permutation; apply keyedFrom_NoDup.
  - unfold animateLayouts. apply Forall_app. split.
    + apply Forall_forall. intros t Ht.
      apply in_map_iff in Ht as [e [<- He]].
      rewrite animateFrom_1 by (eapply keyedFrom_text; exact He).
      destruct (lookup (fst e) (keyed (tokens B))) as [b |] eqn:El.
      * left. exists b. split; [| reflexivity].
        apply (lookup_In _ _ _ (keyedFrom_NoDup [] (tokens B))) in El.
        apply (in_map snd) in El. unfold keyed in El.
        rewrite map_snd_keyedFrom in El. exact El.
      * right. exists (snd e). split; [| reflexivity].
        apply (in_map snd) in He. unfold keyed in He.
        rewrite map_snd_keyedFrom in He. exact He.
    + apply Forall_forall. intros t Ht.
      apply in_map_iff in Ht as [b [<- Hb]].
      left. exists b. split; [| reflexivity].
      unfold added in Hb. apply in_map_iff in Hb as [e [<- He]].
      apply filter_In in He as [He _].
      apply (in_map snd) in He. unfold keyed in He.
      rewrite map_snd_keyedFrom in He. exact He.
Qed.

End AnimateFacts.

(** Two occurrences of [x] match rank by rank; a token only the source
    has fades out in place, a token only the destination has fades in. *)
Example animateLayouts_halfway :
  let tok := fun (t : JSString) (px : Z) =>
    Animate.mkToken t (str "#fff") (num px) (num 0) (num 10) (num 20) in
  let A := Animate.mkLayout
             [tok (str "x") 0%Z; tok (str "+") 10%Z; tok (str "x") 20%Z]
             1 (num 0) (num 20) (str "#000") in
  let B := Animate.mkLayout
             [tok (str "x") 40%Z; tok (str "x") 80%Z; tok (str "y") 90%Z]
             1 (num 0) (num 20) (str "#000") in
  map (fun t => (Animate.aText t, this (Animate.aX t), this (Animate.opacity t)))
    (Animate.animateLayouts A B (Q2Qc (1 # 2))) =
  [(str "x", 20%Q, 1%Q); (str "+", 10%Q, (1 # 2)%Q); (str "x", 50%Q, 1%Q);
   (str "y", 90%Q, (1 # 2)%Q)].
Proof. vm_compute. reflexivity. Qed.

(** ** Remarks on the wrapper expression *)

(** The [\s*] after the keyword also matches line feeds.  When nothing
    follows the keyword on the wrapper's line, group 3 is therefore the
    next non-blank line, here the first fence's opening line, whose
    metadata becomes the block's outer metadata, and the fences are read
    from the line after it. *)
Example wrapper_info_taken_from_next_line :
  let doc :=
    join lineFeed
      [str "````md magic-move";
       str "```ts {lines:true}"; str "const a = 1"; str "```";
       str "```ts"; str "const a = 2"; str "```";
       str "````"] in
  map MagicMove.group3 (MagicMove.matchAll doc) = [str "```ts {lines:true}"] /\
  map (fun b => (MagicMove.outerMeta b,
                 map (fun s => (MagicMove.lang s, MagicMove.code s)) (MagicMove.steps b)))
    (MagicMove.blocks (MagicMove.parseMagicMove ToNumber.Number doc)) =
  [(LineMeta.mkMeta true 1, [(str "text", []); (str "text", [])])].
Proof. vm_compute. split; reflexivity. Qed.

(** * Written documents and further properties *)

(** ** Lines of a string *)

Section LineFacts.

Local Abbreviation isNot c := (fun d : N => negb (d =? c)%N).

Lemma split_cons (sep c : N) (s : JSString) :
  split sep (c :: s) =
  if (c =? sep)%N then [] :: split sep s
  else match split sep s with
       | [] => [[c]]
       | piece :: pieces => (c :: piece) :: pieces
       end.
Proof. reflexivity. Qed.

Lemma split_not_nil (sep : N) (s : JSString) : split sep s <> [].
Proof.
  induction s as [| c s IH]; cbn; [discriminate |].
  destruct (c =? sep)%N; [discriminate |].
  destruct (split sep s); discriminate.
Qed.

Lemma split_free (sep : N) (s : JSString) :
  forallb (isNot sep) s = true -> split sep s = [s].
Proof.
  induction s as [| c s IH]; cbn; [reflexivity |].
  intro H. apply andb_true_iff in H as [Hc Hs].
  apply negb_true_iff in Hc. rewrite Hc, (IH Hs). reflexivity.
Qed.

Lemma split_app_sep (sep : N) (l r : JSString) :
  forallb (isNot sep) l = true ->
  split sep (l ++ sep :: r) = l :: split sep r.
Proof.
  induction l as [| c l IH]; cbn [app forallb]; intro H.
  - rewrite split_cons, N.eqb_refl. reflexivity.
  - apply andb_true_iff in H as [Hc Hl]. apply negb_true_iff in Hc.
    rewrite split_cons, Hc, (IH Hl). reflexivity.
Qed.

(** The pieces of a split hold no separator. *)
Lemma split_pieces_free (sep : N) (s : JSString) :
  Forall (fun l => forallb (isNot sep) l = true) (split sep s).
Proof.
  induction s as [| c s IH]; cbn.
  - constructor; [reflexivity | constructor].
  - destruct (c =? sep)%N eqn:E.
    + constructor; [reflexivity | exact IH].
    + destruct (split sep s) as [| piece pieces].
      * constructor; [cbn; rewrite E; reflexivity | constructor].
      * inversion IH as [| ? ? Hp Hps]; subst.
        constructor; [cbn; rewrite E, Hp; reflexivity | exact Hps].
Qed.

Lemma join_cons (sep l : JSString) (ls : list JSString) :
  ls <> [] -> join sep (l :: ls) = l ++ sep ++ join sep ls.
Proof. destruct ls; [contradiction | reflexivity]. Qed.

Lemma join_split (sep : N) (s : JSString) : join [sep] (split sep s) = s.
Proof.
  induction s as [| c s IH]; [reflexivity |].
  rewrite split_cons. destruct (c =? sep)%N eqn:E.
  - apply N.eqb_eq in E. subst c.
    rewrite join_cons by apply split_not_nil. rewrite IH. reflexivity.
  - pose proof (split_not_nil sep s) as Hne.
    destruct (split sep s) as [| piece pieces]; [contradiction |].
    destruct pieces as [| p2 pieces].
    + cbn in IH. cbn. rewrite IH. reflexivity.
    + rewrite join_cons in IH by discriminate.
      rewrite join_cons by discriminate. cbn. rewrite <- IH. reflexivity.
Qed.

Lemma split_join (sep : N) (ls : list JSString) :
  ls <> [] ->
  Forall (fun l => forallb (isNot sep) l = true) ls ->
  split sep (join [sep] ls) = ls.
Proof.
  induction ls as [| l ls IH]; intros Hne H; [contradiction |].
  inversion H as [| ? ? Hl Hls]; subst.
  destruct ls as [| l2 ls].
  - cbn. apply split_free. exact Hl.
  - rewrite join_cons by discriminate. cbn [app].
    rewrite split_app_sep by exact Hl.
    rewrite IH; [reflexivity | discriminate | exact Hls].
Qed.

Lemma join_firstn_prefix (sep : JSString) (m : nat) (ls : list JSString) :
  exists suffix, join sep ls = join sep (firstn m ls) ++ suffix.
Proof.
  revert m. induction ls as [| l ls IH]; intro m.
  - exists []. destruct m; reflexivity.
  - destruct m as [| m].
    + exists (join sep (l :: ls)). reflexivity.
    + cbn [firstn]. destruct (IH m) as [suffix Hs].
      destruct ls as [| l2 ls].
      * exists []. destruct m; cbn; rewrite app_nil_r; reflexivity.
      * rewrite join_cons by discriminate.
        destruct m as [| m].
        -- exists (sep ++ join sep (l2 :: ls)). reflexivity.
        -- cbn [firstn] in *. rewrite (join_cons sep l) by discriminate.
           exists suffix. rewrite Hs, <- !app_assoc. reflexivity.
Qed.

Lemma replaceCRLF_free (s : JSString) :
  forallb (isNot 13) s = true -> replaceCRLF s = s.
Proof.
  induction s as [| c s IH]; [reflexivity |].
  intro H. cbn [forallb] in H. apply andb_true_iff in H as [Hc Hs].
  apply negb_true_iff in Hc.
  cbn [replaceCRLF]. destruct s as [| d s]; [reflexivity |].
  rewrite Hc. cbn [andb]. rewrite (IH Hs). reflexivity.
Qed.

Lemma forallb_join (p : N -> bool) (sep : JSString) (ls : list JSString) :
  forallb p sep = true ->
  Forall (fun l => forallb p l = true) ls ->
  forallb p (join sep ls) = true.
Proof.
  intros Hsep H. induction H as [| l ls Hl _ IH]; [reflexivity |].
  destruct ls as [| l2 ls]; [exact Hl |].
  rewrite join_cons by discriminate.
  rewrite !forallb_app, Hl, Hsep, IH. reflexivity.
Qed.

Lemma startsWith_app (p s : JSString) : startsWith p (p ++ s) = true.
Proof.
  induction p as [| c p IH]; [destruct s; reflexivity |].
  cbn. rewrite N.eqb_refl, IH. reflexivity.
Qed.

Lemma startsWith_refl (p : JSString) : startsWith p p = true.
Proof.
  rewrite <- (app_nil_r p) at 2. apply startsWith_app.
Qed.

(** A line that does not start with [p] still does not once something
    that [p] cannot contain follows it. *)
Lemma startsWith_extend (p l r : JSString) (c : N) :
  forallb (isNot c) p = true ->
  startsWith p l = false -> startsWith p (l ++ c :: r) = false.
Proof.
  revert l. induction p as [| a p IH]; intros l Hp H.
  - destruct l; discriminate H.
  - cbn [forallb] in Hp. apply andb_true_iff in Hp as [Ha Hp].
    destruct l as [| b l]; cbn [app startsWith].
    + apply negb_true_iff in Ha. rewrite Ha. reflexivity.
    + cbn [startsWith] in H. destruct (a =? b)%N; [| reflexivity].
      cbn [andb] in *. apply IH; assumption.
Qed.

Lemma startsWith_longer (p q l : JSString) :
  startsWith p l = false -> startsWith (p ++ q) l = false.
Proof.
  revert l. induction p as [| a p IH]; intros l H.
  - destruct l; discriminate H.
  - destruct l as [| b l]; [reflexivity |].
    cbn [app startsWith] in *. destruct (a =? b)%N; [| reflexivity].
    cbn [andb] in *. apply IH. exact H.
Qed.

Lemma takeWhile_app_stop (p : N -> bool) (l r : JSString) :
  forallb p l = true ->
  match r with [] => True | c :: _ => p c = false end ->
  takeWhile p (l ++ r) = l /\ dropWhile p (l ++ r) = r.
Proof.
  intros Hl Hr. induction l as [| c l IH]; cbn [app].
  - destruct r as [| c r]; [split; reflexivity |].
    cbn. rewrite Hr. split; reflexivity.
  - cbn [forallb] in Hl. apply andb_true_iff in Hl as [Hc Hl].
    cbn. rewrite Hc. destruct (IH Hl) as [-> ->]. split; reflexivity.
Qed.

Lemma dropWhile_stop (p : N -> bool) (s : JSString) :
  match s with [] => True | c :: _ => p c = false end -> dropWhile p s = s.
Proof.
  destruct s as [| c s]; [reflexivity |]. cbn. intros ->. reflexivity.
Qed.

Lemma trim_trim (s : JSString) : trim (trim s) = trim s.
Proof.
  pose proof (trim_head s) as Hh.
  unfold trim at 1. unfold trimStart. rewrite dropWhile_stop by exact Hh.
  unfold trim, trimEnd at 1 2.
  rewrite rev_involutive.
  rewrite (dropWhile_stop isWhiteSpace (dropWhile isWhiteSpace (rev (trimStart s)))).
  - reflexivity.
  - apply dropWhile_head.
Qed.

End LineFacts.

(** ** Metadata parser: composition and edge cases *)

Section LineMetaMore.
Import LineMeta.

Variable Number : option JSString -> JSNumber.

(** X1.  Parts with different keys can be processed in either order: the
    loop body commutes on two parts whose keys differ.  (Nothing is said
    of two parts with the same key.) *)
Theorem processPart_commute (r : LineMetaParseResult) (p q : JSString) :
  keyOf (trim p) <> keyOf (trim q) ->
  processPart Number (processPart Number r p) q =
  processPart Number (processPart Number r q) p.
Proof.
  intro Hk.
  pose proof (processPart_eq Number) as E. cbv zeta in E.
  rewrite (E (processPart Number r p) q), (E (processPart Number r q) p).
  rewrite (E r p), (E r q).
  destruct (eqb (keyOf (trim p)) (str "lines")) eqn:Epl;
    destruct (eqb (keyOf (trim q)) (str "lines")) eqn:Eql.
  - apply eqb_eq in Epl, Eql. congruence.
  - destruct (eqb (keyOf (trim q)) (str "startLine") && _); reflexivity.
  - destruct (eqb (keyOf (trim p)) (str "startLine") && _); reflexivity.
  - destruct (eqb (keyOf (trim p)) (str "startLine")) eqn:Eps;
      destruct (eqb (keyOf (trim q)) (str "startLine")) eqn:Eqs.
    + apply eqb_eq in Eps, Eqs. congruence.
    + cbn [andb]. reflexivity.
    + cbn [andb]. reflexivity.
    + reflexivity.
Qed.

Lemma fold_processPart_defaults (parts : list JSString) (r : LineMetaParseResult) :
  (specLines (specified r) = false -> lines (meta r) = false) ->
  (specStartLine (specified r) = false -> startLine (meta r) = 1%Z) ->
  let r' := fold_left (processPart Number) parts r in
  (specLines (specified r') = false -> lines (meta r') = false) /\
  (specStartLine (specified r') = false -> startLine (meta r') = 1%Z).
Proof.
  cbv zeta. revert r. induction parts as [| p parts IH]; intros r H1 H2; cbn [fold_left].
  - split; assumption.
  - pose proof (processPart_eq Number r p) as E. cbv zeta in E.
    apply IH; rewrite E.
    + destruct (eqb _ (str "lines")); [cbn; discriminate |].
      destruct (_ && _); [cbn |]; exact H1.
    + destruct (eqb _ (str "lines")); [cbn; exact H2 |].
      destruct (_ && _); [cbn; discriminate | exact H2].
Qed.

(** X2.  A key the parser does not report as specified holds its default:
    [lines] is [false] unless specified, [startLine] is [1] unless
    specified. *)
Theorem parseLineMetaDetailed_unspecified_default (info : option JSString) :
  let r := parseLineMetaDetailed Number info in
  (specLines (specified r) = false -> lines (meta r) = false) /\
  (specStartLine (specified r) = false -> startLine (meta r) = 1%Z).
Proof.
  destruct info as [info |]; [| cbn; split; reflexivity].
  cbv zeta. rewrite parseLineMetaDetailed_fold.
  apply (fold_processPart_defaults (rawParts info)); reflexivity.
Qed.

Lemma braceGroups_unclosed (info : JSString) (open : option JSString) :
  forallb (fun c => negb (c =? chr "}")%N) info = true ->
  braceGroups info open = [].
Proof.
  revert open. induction info as [| c info IH]; intros open H; [reflexivity |].
  cbn [forallb] in H. apply andb_true_iff in H as [Hc H].
  apply negb_true_iff in Hc. cbn [braceGroups].
  destruct open as [acc |].
  - rewrite Hc. apply IH. exact H.
  - destruct (c =? chr "{")%N; apply IH; exact H.
Qed.

Lemma braceGroups_unopened (info : JSString) :
  forallb (fun c => negb (c =? chr "{")%N) info = true ->
  braceGroups info None = [].
Proof.
  induction info as [| c info IH]; intro H; [reflexivity |].
  cbn [forallb] in H. apply andb_true_iff in H as [Hc H].
  apply negb_true_iff in Hc. cbn [braceGroups]. rewrite Hc. apply IH. exact H.
Qed.

(** X3.  Metadata is read only from closed brace groups: an info string
    with no opening brace, or with no closing brace (a group left open),
    parses to the defaults with nothing specified, whatever else it
    holds. *)
Theorem parseLineMetaDetailed_needs_closed_group (info : JSString) :
  forallb (fun c => negb (c =? chr "{")%N) info = true \/
  forallb (fun c => negb (c =? chr "}")%N) info = true ->
  parseLineMetaDetailed Number (Some info) =
  mkResult (mkMeta false 1) (mkSpecified false false).
Proof.
  intro H. rewrite parseLineMetaDetailed_fold. unfold rawParts.
  destruct H as [H | H].
  - rewrite (braceGroups_unopened info H). reflexivity.
  - rewrite (braceGroups_unclosed info None H). reflexivity.
Qed.

End LineMetaMore.

Lemma processPart_commute_witness :
  let r := LineMeta.mkResult (LineMeta.mkMeta false 1) (LineMeta.mkSpecified false false) in
  LineMeta.processPart ToNumber.Number
    (LineMeta.processPart ToNumber.Number r (str "lines:true")) (str "startLine:5") =
  LineMeta.processPart ToNumber.Number
    (LineMeta.processPart ToNumber.Number r (str "startLine:5")) (str "lines:true").
Proof.
  apply (processPart_commute ToNumber.Number). vm_compute. discriminate.
Defined.

Lemma parseLineMetaDetailed_needs_closed_group_witness :
  LineMeta.parseLineMetaDetailed ToNumber.Number (Some (str "ts {lines:true,startLine:5")) =
  LineMeta.mkResult (LineMeta.mkMeta false 1) (LineMeta.mkSpecified false false).
Proof.
  apply (parseLineMetaDetailed_needs_closed_group ToNumber.Number).
  right. reflexivity.
Defined.

(** ** Info strings as they are written *)

Section WrittenInfo.
Import LineMeta.

Variable Number : option JSString -> JSNumber.

Local Abbreviation isNot c := (fun d : N => negb (d =? c)%N).
Local Abbreviation default := (mkResult (mkMeta false 1) (mkSpecified false false)).

(** An info string as it is written: brace groups, each after a text
    free of opening braces and holding entries separated by commas, and a
    last text that holds no closed group. *)
Local Abbreviation group g :=
  (fst g ++ chr "{" :: join [chr ","] (snd g) ++ [chr "}"])%list.
Local Abbreviation writtenInfo groups post :=
  (flat_map (fun g : JSString * list JSString => group g) groups ++ post)%list.
Local Abbreviation entryOK e :=
  (forallb (isNot (chr ",")) e = true /\ forallb (isNot (chr "}")) e = true).
Local Abbreviation groupOK g :=
  (forallb (isNot (chr "{")) (fst g) = true /\ Forall (fun e => entryOK e) (snd g)).
Local Abbreviation postOK post :=
  (forallb (isNot (chr "{")) post = true \/ forallb (isNot (chr "}")) post = true).




Lemma processPart_empty (r : LineMetaParseResult) : processPart Number r [] = r.
Proof. reflexivity. Qed.




Local Abbreviation accepted e :=
  (eqb (keyOf (trim e)) (str "startLine") &&
   (isFinite (Number (valueOf (trim e))) && geOne (Number (valueOf (trim e))))).




End WrittenInfo.


(** ** Fences *)

Section FenceFacts.
Import LineMeta MagicMove.

Local Abbreviation isTick := (fun c : N => (c =? chr "`")%N).
Local Abbreviation notTerminator := (fun c : N => negb (isLineTerminator c)).
Local Abbreviation notLF := (fun c : N => negb (c =? 10)%N).
Local Abbreviation notCRLF := (fun c : N => negb (c =? 10)%N && negb (c =? 13)%N).

Lemma forallb_takeWhile (p : N -> bool) (s : JSString) :
  forallb p (takeWhile p s) = true.
Proof.
  induction s as [| c s IH]; [reflexivity |].
  cbn. destruct (p c) eqn:E; [cbn; rewrite E, IH |]; reflexivity.
Qed.

Lemma takeWhile_dropWhile (p : N -> bool) (s : JSString) :
  takeWhile p s ++ dropWhile p s = s.
Proof.
  induction s as [| c s IH]; [reflexivity |].
  cbn. destruct (p c); [cbn; rewrite IH |]; reflexivity.
Qed.

Lemma matchOpen_ticks (line f rest : JSString) :
  matchOpen line = Some (f, rest) ->
  (3 <= List.length f)%nat /\ forallb isTick f = true /\ line = f ++ rest.
Proof.
  unfold matchOpen. destruct (_ && _) eqn:E; [| discriminate].
  intro H. injection H as <- <-.
  apply andb_true_iff in E as [E _]. apply Nat.leb_le in E.
  split; [exact E |]. split; [apply forallb_takeWhile |].
  symmetry. apply takeWhile_dropWhile.
Qed.

Lemma scanLines_shape (lines : list JSString)
    (open : option (JSString * JSString * list JSString)) :
  match open with
  | Some (f, i, _) =>
      (3 <= List.length f)%nat /\ forallb isTick f = true /\
      trim i = i /\ forallb notTerminator i = true
  | None => True
  end ->
  Forall (fun f =>
      (3 <= List.length (fence f))%nat /\ forallb isTick (fence f) = true /\
      trim (info f) = info f /\ forallb notTerminator (info f) = true)
    (scanLines lines open).
Proof.
  revert open. induction lines as [| l lines IH]; intros open Hopen; cbn [scanLines].
  - destruct open as [[[f i] b] |]; constructor; [exact Hopen | constructor].
  - destruct open as [[[f i] b] |].
    + destruct (startsWith f l).
      * constructor; [exact Hopen | apply IH; exact I].
      * apply IH. exact Hopen.
    + destruct (matchOpen l) as [[f rawInfo] |] eqn:E; [| apply IH; exact I].
      apply IH. destruct (matchOpen_ticks l f rawInfo E) as (H3 & Ht & _).
      split; [exact H3 |]. split; [exact Ht |]. split; [apply trim_trim |].
      apply forallb_trim. eapply matchOpen_rest. exact E.
Qed.

(** X4.  Every fence [parseFencedBlocks] returns has for fence a run of
    at least three backticks and nothing else, and an info string that is
    trimmed and holds no line terminator. *)
Theorem parseFencedBlocks_fence_shape (input : JSString) :
  Forall (fun f =>
      (3 <= List.length (fence f))%nat /\ forallb isTick (fence f) = true /\
      trim (info f) = info f /\ forallb notTerminator (info f) = true)
    (parseFencedBlocks input).
Proof.
  unfold parseFencedBlocks. apply scanLines_shape. exact I.
Qed.

Lemma body_lines (f : JSString) (acc : list JSString) :
  f <> [] ->
  Forall (fun l => forallb notLF l = true /\ startsWith f l = false) acc ->
  Forall (fun l => startsWith f l = false) (split 10 (join lineFeed (rev acc))).
Proof.
  intros Hf Hacc. destruct acc as [| a acc].
  - cbn. constructor; [| constructor]. destruct f; [contradiction | reflexivity].
  - assert (Hne : rev (a :: acc) <> []).
    { intro E. apply (f_equal (@List.length _)) in E.
      rewrite length_rev in E. discriminate E. }
    apply Forall_rev in Hacc.
    unfold lineFeed. rewrite split_join.
    + eapply Forall_impl; [| exact Hacc]. intros l [_ H]. exact H.
    + exact Hne.
    + eapply Forall_impl; [| exact Hacc]. intros l [H _]. exact H.
Qed.

Lemma scanLines_body (lines : list JSString)
    (open : option (JSString * JSString * list JSString)) :
  Forall (fun l => forallb notLF l = true) lines ->
  match open with
  | Some (f, _, acc) =>
      f <> [] /\
      Forall (fun l => forallb notLF l = true /\ startsWith f l = false) acc
  | None => True
  end ->
  Forall (fun f => Forall (fun l => startsWith (fence f) l = false)
                     (split 10 (body f)))
    (scanLines lines open).
Proof.
  intro Hlines. revert open.
  induction Hlines as [| l lines Hl _ IH]; intros open Hopen; cbn [scanLines].
  - destruct open as [[[f i] b] |]; constructor; [| constructor].
    cbn [fence body]. destruct Hopen as [Hf Hacc]. apply body_lines; assumption.
  - destruct open as [[[f i] b] |].
    + destruct Hopen as [Hf Hacc]. destruct (startsWith f l) eqn:E.
      * constructor; [| apply IH; exact I].
        cbn [fence body]. apply body_lines; assumption.
      * apply IH. split; [exact Hf |]. constructor; [split; assumption | exact Hacc].
    + destruct (matchOpen l) as [[f rawInfo] |] eqn:E; [| apply IH; exact I].
      apply IH. destruct (matchOpen_ticks l f rawInfo E) as (H3 & _ & _).
      split; [| constructor]. intros ->. cbn in H3. lia.
Qed.

(** Where a fence lies among the lines [all] of the input: its opening
    line, the lines of its body, and what follows them. *)
Local Abbreviation fenceSegment all f :=
  (exists before opening rawInfo bodyLines rest,
     all = before ++ opening :: bodyLines ++ rest /\
     matchOpen opening = Some (fence f, rawInfo) /\
     info f = trim rawInfo /\
     body f = join lineFeed bodyLines /\
     Forall (fun l => startsWith (fence f) l = false) bodyLines /\
     match rest return Prop with
     | nil => True
     | cons closing _ => startsWith (fence f) closing = true
     end).

Lemma scanLines_segment (all lines : list JSString)
    (open : option (JSString * JSString * list JSString)) :
  match open with
  | None => exists before, all = before ++ lines
  | Some (f, i, acc) =>
      exists before opening rawInfo,
        all = before ++ opening :: rev acc ++ lines /\
        matchOpen opening = Some (f, rawInfo) /\ i = trim rawInfo /\
        Forall (fun l => startsWith f l = false) acc
  end ->
  Forall (fun f => fenceSegment all f) (scanLines lines open).
Proof.
  revert open. induction lines as [| l lines IH]; intros open Hopen; cbn [scanLines].
  - destruct open as [[[f i] acc] |]; constructor; [| constructor].
    destruct Hopen as (before & opening & rawInfo & Hall & Hm & Hi & Hacc).
    exists before, opening, rawInfo, (rev acc), []. cbn [fence info body].
    repeat split; try assumption. apply Forall_rev. exact Hacc.
  - destruct open as [[[f i] acc] |].
    + destruct Hopen as (before & opening & rawInfo & Hall & Hm & Hi & Hacc).
      destruct (startsWith f l) eqn:E.
      * constructor.
        -- exists before, opening, rawInfo, (rev acc), (l :: lines).
           cbn [fence info body].
           repeat split; try assumption. apply Forall_rev. exact Hacc.
        -- apply IH. exists (before ++ opening :: rev acc ++ [l]).
           rewrite Hall, <- !app_assoc. cbn [app]. rewrite <- app_assoc. reflexivity.
      * apply IH. exists before, opening, rawInfo.
        split; [| split; [exact Hm | split; [exact Hi |]]].
        -- rewrite Hall. cbn [rev]. rewrite <- app_assoc. reflexivity.
        -- constructor; assumption.
    + destruct Hopen as (before & Hall).
      destruct (matchOpen l) as [[f rawInfo] |] eqn:E.
      * apply IH. exists before, l, rawInfo.
        split; [exact Hall |]. split; [exact E |]. split; [reflexivity | constructor].
      * apply IH. exists (before ++ [l]). rewrite <- app_assoc. exact Hall.
Qed.

(** X5.  The body of every fence [parseFencedBlocks] returns is the lines
    of the input after the fence's opening line and before the first line
    that starts with the fence (or the end of the input, when no line
    does), joined by line feeds: the input's lines are some lines, the
    opening line, the body's lines, none of which starts with the fence,
    and then either nothing or a line that starts with the fence.  Read
    back as lines, no line of the body starts with the fence. *)
Theorem parseFencedBlocks_body_stops_at_fence (input : JSString) :
  Forall (fun f =>
      Forall (fun l => startsWith (fence f) l = false) (split 10 (body f)) /\
      exists before opening rawInfo bodyLines rest,
        split 10 (replaceCRLF input) = before ++ opening :: bodyLines ++ rest /\
        matchOpen opening = Some (fence f, rawInfo) /\
        info f = trim rawInfo /\
        body f = join lineFeed bodyLines /\
        Forall (fun l => startsWith (fence f) l = false) bodyLines /\
        match rest return Prop with
        | nil => True
        | cons closing _ => startsWith (fence f) closing = true
        end)
    (parseFencedBlocks input).
Proof.
  apply Forall_and.
  - unfold parseFencedBlocks. apply scanLines_body; [| exact I].
    apply (split_pieces_free 10).
  - unfold parseFencedBlocks.
    apply (scanLines_segment (split 10 (replaceCRLF input))).
    exists []. reflexivity.
Qed.

Lemma replaceCRLF_join (ls : list JSString) :
  Forall (fun l => forallb notCRLF l = true) ls ->
  replaceCRLF (join [13; 10]%N ls) = join lineFeed ls /\
  replaceCRLF (join lineFeed ls) = join lineFeed ls.
Proof.
  intro H. split.
  - induction H as [| l ls Hl Hls IH]; [reflexivity |].
    destruct ls as [| l2 ls].
    + cbn [join]. apply replaceCRLF_free.
      rewrite forallb_forall in *. intros c Hc. specialize (Hl c Hc).
      apply andb_true_iff in Hl as [_ Hl]. exact Hl.
    + rewrite (join_cons [13; 10]%N l), (join_cons lineFeed l) by discriminate.
      rewrite <- IH. clear IH Hls. generalize (join [13; 10]%N (l2 :: ls)). intro r.
      induction l as [| c l IHl]; [reflexivity |].
      cbn [forallb] in Hl. apply andb_true_iff in Hl as [Hc Hl].
      apply andb_true_iff in Hc as [_ Hc]. apply negb_true_iff in Hc.
      specialize (IHl Hl). cbn [app] in *.
      destruct l as [| d l]; cbn [app replaceCRLF] in *; rewrite Hc; cbn [andb];
        rewrite IHl; reflexivity.
  - apply replaceCRLF_free. apply forallb_join; [reflexivity |].
    eapply Forall_impl; [| exact H]. intros l Hl.
    rewrite forallb_forall in *. intros c Hc. specialize (Hl c Hc).
    apply andb_true_iff in Hl as [_ Hl]. exact Hl.
Qed.

(** X6.  A document with CRLF line ends is read as the same document with
    LF line ends: on lines that hold neither CR nor LF, the fences of the
    lines joined by CR LF are those of the lines joined by LF. *)
Theorem parseFencedBlocks_crlf (ls : list JSString) :
  Forall (fun l => forallb notCRLF l = true) ls ->
  parseFencedBlocks (join [13; 10]%N ls) = parseFencedBlocks (join lineFeed ls).
Proof.
  intro H. unfold parseFencedBlocks.
  destruct (replaceCRLF_join ls H) as [-> ->]. reflexivity.
Qed.

End FenceFacts.

Lemma parseFencedBlocks_crlf_witness :
  MagicMove.parseFencedBlocks
    (join [13; 10]%N [str "```ts {lines:true}"; str "const a = 1"; str "```"]) =
  MagicMove.parseFencedBlocks
    (join lineFeed [str "```ts {lines:true}"; str "const a = 1"; str "```"]).
Proof.
  apply parseFencedBlocks_crlf.
  repeat constructor.
Defined.

(** ** Well-formed documents *)

Section RoundTrip.
Import LineMeta MagicMove.

Variable Number : option JSString -> JSNumber.

Local Abbreviation isTick := (fun c : N => (c =? chr "`")%N).
Local Abbreviation notTerminator := (fun c : N => negb (isLineTerminator c)).
Local Abbreviation notLF := (fun c : N => negb (c =? 10)%N).
Local Abbreviation notCRLF := (fun c : N => negb (c =? 10)%N && negb (c =? 13)%N).

(** The lines a step is written with: its opening fence with the info, its
    code lines, its closing fence. *)
Local Abbreviation fenceLines :=
  (fun st : JSString * list JSString => (str "```" ++ fst st) :: snd st ++ [str "```"]).

(** A step that can be written so: the info is trimmed, holds no line
    terminator and does not begin with a backtick; the code lines hold no
    CR or LF and do not begin with three backticks. *)
Local Abbreviation writable st :=
  (trim (fst st) = fst st /\
   forallb notTerminator (fst st) = true /\
   match fst st return Prop with nil => True | cons c _ => isTick c = false end /\
   Forall (fun l => forallb notCRLF l = true /\ startsWith (str "```") l = false)
     (snd st)).

Lemma scanLines_collect (f i : JSString) (body acc rest : list JSString) :
  Forall (fun l => startsWith f l = false) body ->
  scanLines (body ++ rest) (Some (f, i, acc)) =
  scanLines rest (Some (f, i, rev body ++ acc)).
Proof.
  intro H. revert acc. induction H as [| l body Hl _ IH]; intro acc; [reflexivity |].
  cbn [app scanLines]. rewrite Hl, IH. cbn [rev]. rewrite <- app_assoc. reflexivity.
Qed.

Lemma matchOpen_opening (i : JSString) :
  forallb notTerminator i = true ->
  match i return Prop with nil => True | cons c _ => isTick c = false end ->
  matchOpen (str "```" ++ i) = Some (str "```", i).
Proof.
  intros Hterm Hhead. unfold matchOpen.
  destruct (takeWhile_app_stop isTick (str "```") i eq_refl Hhead) as [-> ->].
  rewrite Hterm. reflexivity.
Qed.

Lemma scanLines_steps (fs : list (JSString * list JSString)) (rest : list JSString) :
  Forall (fun st => writable st) fs ->
  scanLines (flat_map fenceLines fs ++ rest) None =
  map (fun st => mkFence (str "```") (fst st) (join lineFeed (snd st))) fs
  ++ scanLines rest None.
Proof.
  intro H. induction H as [| [i body] fs (Htrim & Hterm & Hhead & Hbody) _ IH];
    [reflexivity |].
  cbn [flat_map fst snd map app] in *.
  cbn [scanLines]. rewrite (matchOpen_opening i Hterm Hhead), Htrim.
  rewrite <- !app_assoc.
  rewrite scanLines_collect
    by (eapply Forall_impl; [| exact Hbody]; intros l [_ Hl]; exact Hl).
  cbn [app scanLines]. rewrite startsWith_refl.
  rewrite app_nil_r, rev_involutive, IH. reflexivity.
Qed.

Lemma notCRLF_notLF (l : JSString) :
  forallb notCRLF l = true -> forallb notLF l = true /\
  forallb (fun c => negb (c =? 13)%N) l = true.
Proof.
  intro H. rewrite !forallb_forall in *.
  split; intros c Hc; specialize (H c Hc);
    apply andb_true_iff in H as [H1 H2]; assumption.
Qed.

Lemma notTerminator_notCRLF (l : JSString) :
  forallb notTerminator l = true -> forallb notCRLF l = true.
Proof.
  rewrite !forallb_forall. intros H c Hc. specialize (H c Hc).
  unfold isLineTerminator in H. apply negb_true_iff in H.
  apply orb_false_iff in H as [H _]. apply orb_false_iff in H as [H _].
  apply orb_false_iff in H as [H1 H2]. rewrite H1, H2. reflexivity.
Qed.

Lemma fenceLines_free (fs : list (JSString * list JSString)) :
  Forall (fun st => writable st) fs ->
  Forall (fun l => forallb notCRLF l = true) (flat_map fenceLines fs).
Proof.
  intro H. induction H as [| [i body] fs (_ & Hterm & _ & Hbody) _ IH];
    [constructor |].
  cbn [flat_map fst snd]. apply Forall_app. split; [| exact IH].
  constructor.
  - change (str "```" ++ i) with ([96; 96; 96]%N ++ i). cbn [app forallb].
    cbn. apply notTerminator_notCRLF. exact Hterm.
  - apply Forall_app. split; [| repeat constructor].
    eapply Forall_impl; [| exact Hbody]. intros l [Hl _]. exact Hl.
Qed.

Lemma parseFencedBlocks_written (fs : list (JSString * list JSString)) :
  Forall (fun st => writable st) fs ->
  parseFencedBlocks (join lineFeed (flat_map fenceLines fs)) =
  map (fun st => mkFence (str "```") (fst st) (join lineFeed (snd st))) fs.
Proof.
  intro H. unfold parseFencedBlocks.
  destruct fs as [| st fs]; [reflexivity |].
  pose proof (fenceLines_free _ H) as Hfree.
  destruct (replaceCRLF_join _ Hfree) as [_ ->].
  unfold lineFeed. rewrite split_join.
  - pose proof (scanLines_steps (st :: fs) [] H) as E.
    cbn [scanLines] in E. rewrite !app_nil_r in E. exact E.
  - destruct st as [i body]. cbn. discriminate.
  - eapply Forall_impl; [| exact Hfree]. intros l Hl.
    apply notCRLF_notLF in Hl as [Hl _]. exact Hl.
Qed.

(** X7.  Fences written one after another are read back as they were
    written: for steps whose info is trimmed, free of line terminators and
    not starting with a backtick, and whose code lines hold no CR or LF and
    do not start with three backticks, [parseFencedBlocks] returns, in
    order, one triple-backtick fence per step with that info and that
    code. *)
Theorem parseFencedBlocks_reads_back (fs : list (JSString * list JSString)) :
  Forall (fun st => writable st) fs ->
  parseFencedBlocks (join lineFeed (flat_map fenceLines fs)) =
  map (fun st => mkFence (str "```") (fst st) (join lineFeed (snd st))) fs.
Proof. exact (parseFencedBlocks_written fs). Qed.

End RoundTrip.

Lemma parseFencedBlocks_reads_back_witness :
  MagicMove.parseFencedBlocks
    (join lineFeed
       [str "```ts {lines:true}"; str "const a = 1"; str "``"; str "```";
        str "```"; str "```"]) =
  [MagicMove.mkFence (str "```") (str "ts {lines:true}")
     (join lineFeed [str "const a = 1"; str "``"]);
   MagicMove.mkFence (str "```") [] []].
Proof.
  apply (parseFencedBlocks_reads_back
           [(str "ts {lines:true}", [str "const a = 1"; str "``"]); ([], [])]).
  repeat constructor.
Defined.

(** ** The wrapper expression *)

Section WrapperFacts.
Import MagicMove.

Local Abbreviation notLF := (fun c : N => negb (c =? 10)%N).
Local Abbreviation ticks4 := (str "````").

Lemma closesHere_not_LF (c : N) (s : JSString) :
  (c =? 10)%N = false -> closesHere (c :: s) = false.
Proof.
  intro H. unfold closesHere, lineFeed. cbn [app startsWith].
  rewrite N.eqb_sym, H. reflexivity.
Qed.

Lemma findClose_skip (l r acc : JSString) :
  forallb notLF l = true ->
  findClose (l ++ r) acc = findClose r (rev l ++ acc).
Proof.
  revert acc. induction l as [| c l IH]; intros acc H; [reflexivity |].
  cbn [forallb] in H. apply andb_true_iff in H as [Hc Hl].
  apply negb_true_iff in Hc.
  cbn [app findClose]. rewrite (closesHere_not_LF c _ Hc).
  rewrite (IH _ Hl). cbn [rev]. rewrite <- app_assoc. reflexivity.
Qed.

Lemma closesHere_line (l r : JSString) :
  startsWith ticks4 l = false ->
  closesHere (10%N :: l ++ 10%N :: r) = false.
Proof.
  intro H. unfold closesHere, lineFeed. cbn [app startsWith]. rewrite N.eqb_refl.
  cbn [andb]. rewrite (startsWith_extend ticks4 l r 10 eq_refl H). reflexivity.
Qed.

Lemma findClose_lines (ls : list JSString) (acc : JSString) :
  ls <> [] ->
  Forall (fun l => forallb notLF l = true /\ startsWith ticks4 l = false) ls ->
  findClose (join lineFeed ls ++ lineFeed ++ ticks4) acc =
  Some (rev acc ++ join lineFeed ls, []).
Proof.
  intros Hne H. revert acc.
  induction H as [| l ls [Hl Hs] Hls IH]; intro acc; [contradiction |].
  destruct ls as [| l2 ls].
  - cbn [join]. rewrite findClose_skip by exact Hl.
    cbn. rewrite rev_app_distr, rev_involutive. reflexivity.
  - rewrite join_cons by discriminate. rewrite <- !app_assoc.
    rewrite findClose_skip by exact Hl.
    inversion Hls as [| ? ? [Hl2 Hs2] _]; subst.
    assert (Hshape : exists r,
              join lineFeed (l2 :: ls) ++ lineFeed ++ ticks4 = l2 ++ 10%N :: r).
    { destruct ls as [| l3 ls].
      - exists ticks4. reflexivity.
      - rewrite join_cons by discriminate. rewrite <- !app_assoc.
        eexists. reflexivity. }
    destruct Hshape as [r Hr].
    unfold lineFeed at 1. cbn [app findClose].
    rewrite Hr at 1. rewrite (closesHere_line l2 r Hs2).
    rewrite IH by discriminate.
    cbn [rev]. rewrite !rev_app_distr, rev_involutive. cbn [rev app].
    rewrite <- !app_assoc. reflexivity.
Qed.

Lemma upToLineFeed_line (l r acc : JSString) :
  forallb notLF l = true ->
  upToLineFeed (l ++ 10%N :: r) acc = Some (rev acc ++ l, r).
Proof.
  revert acc. induction l as [| c l IH]; intros acc H.
  - cbn. rewrite app_nil_r. reflexivity.
  - cbn [forallb] in H. apply andb_true_iff in H as [Hc Hl].
    apply negb_true_iff in Hc. cbn [app upToLineFeed]. rewrite Hc.
    rewrite (IH _ Hl). cbn [rev]. rewrite <- app_assoc. reflexivity.
Qed.

Lemma afterKeyword_first (s : JSString) (k : nat) (g3 inner g4 rest : JSString) :
  upToLineFeed (skipn k s) [] = Some (g3, inner) ->
  findClose inner [] = Some (g4, rest) ->
  afterKeyword s k = Some (g3, g4, rest).
Proof.
  intros H1 H2. destruct k; cbn [afterKeyword]; rewrite H1, H2; reflexivity.
Qed.

Lemma keyword_tag (kw r : JSString) :
  kw = str "shiki-magic-move" \/ kw = str "md magic-move" ->
  dropWhile isWhiteSpace (kw ++ r) = kw ++ r /\
  keyword (kw ++ r) = Some (kw, r).
Proof.
  intros [-> | ->]; split; reflexivity.
Qed.

Lemma skipn_length_app (l r : JSString) : skipn (List.length l) (l ++ r) = r.
Proof. induction l as [| c l IH]; [reflexivity | exact IH]. Qed.

Lemma matchAllFrom_skip_all (s : JSString) (b : bool) :
  matchAllFrom s b (List.length s) = [].
Proof.
  revert b. induction s as [| c s IH]; intro b; [reflexivity |].
  cbn [List.length matchAllFrom]. apply IH.
Qed.

Lemma fromBackticks_wrapper (kw ws outerInfo inner : JSString) :
  kw = str "shiki-magic-move" \/ kw = str "md magic-move" ->
  forallb isWhiteSpace ws = true ->
  match outerInfo return Prop with
  | nil => False
  | cons c _ => isWhiteSpace c = false
  end ->
  forallb notLF outerInfo = true ->
  Forall (fun l => startsWith ticks4 l = false) (split 10 inner) ->
  fromBackticks
    (ticks4 ++ kw ++ ws ++ outerInfo ++ lineFeed ++ inner ++ lineFeed ++ ticks4) =
  Some (mkWrapper kw outerInfo inner, []).
Proof.
  intros Hkw Hws Hhead Hinfo Hinner. unfold fromBackticks.
  rewrite startsWith_app.
  change 4%nat with (List.length ticks4) at 1. rewrite skipn_length_app.
  destruct (keyword_tag kw (ws ++ outerInfo ++ lineFeed ++ inner ++ lineFeed ++ ticks4) Hkw)
    as [-> ->].
  assert (Hstop : match outerInfo ++ lineFeed ++ inner ++ lineFeed ++ ticks4 with
                  | [] => True
                  | c :: _ => isWhiteSpace c = false
                  end).
  { destruct outerInfo as [| c o]; [contradiction | exact Hhead]. }
  destruct (takeWhile_app_stop isWhiteSpace ws _ Hws Hstop) as [-> _].
  erewrite afterKeyword_first; [reflexivity | |].
  - rewrite skipn_length_app. unfold lineFeed at 1. cbn [app].
    apply upToLineFeed_line. exact Hinfo.
  - cbn [rev app].
    rewrite <- (join_split 10 inner) at 1.
    change [10%N] with lineFeed.
    rewrite (findClose_lines (split 10 inner) []).
    + cbn [rev app]. unfold lineFeed. rewrite join_split. reflexivity.
    + apply split_not_nil.
    + pose proof (split_pieces_free 10 inner) as Hfree.
      clear - Hfree Hinner.
      induction Hfree as [| l ls Hl _ IH]; [constructor |].
      inversion Hinner; subst. constructor; [split; assumption | apply IH; assumption].
Qed.

Lemma matchAll_wrapper_doc (kw ws outerInfo inner : JSString) :
  kw = str "shiki-magic-move" \/ kw = str "md magic-move" ->
  forallb isWhiteSpace ws = true ->
  match outerInfo return Prop with
  | nil => False
  | cons c _ => isWhiteSpace c = false
  end ->
  forallb notLF outerInfo = true ->
  Forall (fun l => startsWith ticks4 l = false) (split 10 inner) ->
  matchAll
    (ticks4 ++ kw ++ ws ++ outerInfo ++ lineFeed ++ inner ++ lineFeed ++ ticks4) =
  [mkWrapper kw outerInfo inner].
Proof.
  intros Hkw Hws Hhead Hinfo Hinner.
  pose proof (fromBackticks_wrapper kw ws outerInfo inner Hkw Hws Hhead Hinfo Hinner)
    as E.
  unfold matchAll.
  set (doc := ticks4 ++ kw ++ ws ++ outerInfo ++ lineFeed ++ inner ++ lineFeed ++ ticks4)
    in *.
  assert (Hdoc : exists c rest, doc = c :: rest) by (eexists; eexists; reflexivity).
  destruct Hdoc as (c & rest & Hdoc). rewrite Hdoc in *.
  cbn [matchAllFrom]. unfold matchHere. rewrite E.
  cbn [List.length]. rewrite Nat.sub_0_r. cbn [Nat.sub]. rewrite Nat.sub_0_r.
  rewrite matchAllFrom_skip_all. reflexivity.
Qed.

(** X8.  A document that is one wrapper is matched as one wrapper: four
    backticks, the keyword, any white space, a first text free of line
    feeds, a body none of whose lines starts with four backticks, and the
    closing four backticks give exactly one match, with that text as the
    wrapper's info and that body.  The white space may hold line feeds:
    when nothing follows the keyword on its line, the info is taken from
    the next non-blank line. *)
Theorem matchAll_single_wrapper (kw ws outerInfo inner : JSString) :
  kw = str "shiki-magic-move" \/ kw = str "md magic-move" ->
  forallb isWhiteSpace ws = true ->
  match outerInfo return Prop with
  | nil => False
  | cons c _ => isWhiteSpace c = false
  end ->
  forallb notLF outerInfo = true ->
  Forall (fun l => startsWith ticks4 l = false) (split 10 inner) ->
  matchAll
    (ticks4 ++ kw ++ ws ++ outerInfo ++ lineFeed ++ inner ++ lineFeed ++ ticks4) =
  [mkWrapper kw outerInfo inner].
Proof. exact (matchAll_wrapper_doc kw ws outerInfo inner). Qed.

End WrapperFacts.

Lemma matchAll_single_wrapper_witness :
  MagicMove.matchAll
    (str "````" ++ str "md magic-move" ++ lineFeed ++ str "```ts {lines:true}" ++
     lineFeed ++ str "const a = 1" ++ lineFeed ++ str "````") =
  [MagicMove.mkWrapper (str "md magic-move") (str "```ts {lines:true}")
     (str "const a = 1")].
Proof.
  apply (matchAll_single_wrapper (str "md magic-move") lineFeed
           (str "```ts {lines:true}") (str "const a = 1")).
  - right. reflexivity.
  - reflexivity.
  - reflexivity.
  - reflexivity.
  - repeat constructor.
Defined.

(** ** Whole documents *)

Section DocumentFacts.
Import LineMeta MagicMove.

Variable Number : option JSString -> JSNumber.

Local Abbreviation isTick := (fun c : N => (c =? chr "`")%N).
Local Abbreviation notSpace := (fun c : N => negb (isWhiteSpace c)).
Local Abbreviation notTerminator := (fun c : N => negb (isLineTerminator c)).
Local Abbreviation notLF := (fun c : N => negb (c =? 10)%N).
Local Abbreviation notCRLF := (fun c : N => negb (c =? 10)%N && negb (c =? 13)%N).
Local Abbreviation ticks4 := (str "````").
Local Abbreviation isStepFence := (fun f : Fence => eqb (fence f) (str "```")).
Local Abbreviation fenceLines :=
  (fun st : JSString * list JSString => (str "```" ++ fst st) :: snd st ++ [str "```"]).
Local Abbreviation writable st :=
  (trim (fst st) = fst st /\
   forallb notTerminator (fst st) = true /\
   match fst st return Prop with nil => True | cons c _ => isTick c = false end /\
   Forall (fun l => forallb notCRLF l = true /\ startsWith (str "```") l = false)
     (snd st)).

(** *** Documents without a wrapper *)

Lemma fromBackticks_needs_ticks (s : JSString) :
  startsWith ticks4 s = false -> fromBackticks s = None.
Proof. intro H. unfold fromBackticks. rewrite H. reflexivity. Qed.

Lemma matchAllFrom_no_ticks (s : JSString) (b : bool) :
  (forall n, startsWith ticks4 (skipn n s) = false) ->
  matchAllFrom s b 0 = [].
Proof.
  revert b. induction s as [| c s IH]; intros b H; [reflexivity |].
  cbn [matchAllFrom].
  assert (Hm : matchHere b (c :: s) = None).
  { unfold matchHere.
    rewrite (fromBackticks_needs_ticks (c :: s) (H 0%nat)).
    rewrite (fromBackticks_needs_ticks s (H 1%nat)).
    destruct b; destruct (c =? 10)%N; reflexivity. }
  rewrite Hm. apply IH. intro n. exact (H (S n)).
Qed.

(** X9.  A document in which four backticks in a row occur nowhere has no
    block, and the parser's result is the empty block list with the
    no-blocks message as its only error. *)
Theorem parseMagicMove_without_wrapper (input : JSString) :
  (forall n, startsWith ticks4 (skipn n input) = false) ->
  parseMagicMove Number input = mkParseResult [] [noBlocksError].
Proof.
  intro H. unfold parseMagicMove, matchAll.
  rewrite (matchAllFrom_no_ticks input true H). reflexivity.
Qed.

(** *** Blocks *)

Lemma matchAllFrom_Forall (P : Wrapper -> Prop) :
  (forall s w rest, fromBackticks s = Some (w, rest) -> P w) ->
  forall s b k, Forall P (matchAllFrom s b k).
Proof.
  intros HP s. induction s as [| c s IH]; intros b k.
  - destruct k; constructor.
  - destruct k as [| k]; cbn [matchAllFrom]; [| apply IH].
    destruct (matchHere b (c :: s)) as [[w after] |] eqn:E; [| apply IH].
    constructor; [| apply IH].
    unfold matchHere in E.
    destruct (if b then fromBackticks (c :: s) else None) as [[w' r'] |] eqn:E1.
    + injection E as <- _. destruct b; [| discriminate]. eapply HP. exact E1.
    + destruct (c =? 10)%N; [| discriminate]. eapply HP. exact E.
Qed.

Lemma keyword_shape (s g2 r : JSString) :
  keyword s = Some (g2, r) ->
  g2 = str "shiki-magic-move" \/
  exists ws, ws <> [] /\ forallb isWhiteSpace ws = true /\
             g2 = str "md" ++ ws ++ str "magic-move".
Proof.
  unfold keyword. destruct (startsWith (str "md") s).
  - destruct (_ && _) eqn:E; [| discriminate].
    intro H. injection H as <- _. right.
    apply andb_true_iff in E as [E _].
    exists (takeWhile isWhiteSpace (skipn 2 s)). split; [| split; [| reflexivity]].
    + destruct (takeWhile isWhiteSpace (skipn 2 s)); [discriminate | discriminate].
    + apply forallb_takeWhile.
  - destruct (startsWith (str "shiki-magic-move") s); [| discriminate].
    intro H. injection H as <- _. left. reflexivity.
Qed.

Lemma trim_md (ws : JSString) :
  trim (str "md" ++ ws ++ str "magic-move") = str "md" ++ ws ++ str "magic-move".
Proof.
  unfold trim. unfold trimStart. rewrite dropWhile_stop by reflexivity.
  unfold trimEnd. rewrite !rev_app_distr.
  rewrite dropWhile_stop by reflexivity.
  rewrite <- !rev_app_distr. apply rev_involutive.
Qed.

Lemma startsWith_split (p s : JSString) :
  startsWith p s = true -> s = p ++ skipn (List.length p) s.
Proof.
  revert s. induction p as [| a p IH]; intros s H; [reflexivity |].
  destruct s as [| b s]; [discriminate H |].
  cbn [startsWith] in H. apply andb_true_iff in H as [Hab H].
  apply N.eqb_eq in Hab. subst b. cbn [List.length skipn app].
  f_equal. apply IH. exact H.
Qed.

Lemma keyword_split (s g2 r : JSString) :
  keyword s = Some (g2, r) -> s = g2 ++ r.
Proof.
  unfold keyword. destruct (startsWith (str "md") s) eqn:Emd.
  - destruct (_ && _) eqn:E; [| discriminate].
    intro H. injection H as <- <-.
    apply andb_true_iff in E as [_ E].
    change (s = str "md" ++ (takeWhile isWhiteSpace (skipn 2 s) ++ str "magic-move") ++
                skipn 10 (dropWhile isWhiteSpace (skipn 2 s))).
    etransitivity; [exact (startsWith_split _ _ Emd) |].
    change (List.length (str "md")) with 2%nat.
    rewrite <- app_assoc. f_equal.
    etransitivity; [symmetry; apply (takeWhile_dropWhile isWhiteSpace) |]. f_equal.
    exact (startsWith_split _ _ E).
  - destruct (startsWith (str "shiki-magic-move") s) eqn:Esh; [| discriminate].
    intro H. injection H as <- <-.
    exact (startsWith_split _ _ Esh).
Qed.

Lemma matchAllFrom_located (s : JSString) (b : bool) (k : nat) :
  Forall (fun w => exists pre s' rest,
            s = pre ++ s' /\ fromBackticks s' = Some (w, rest))
    (matchAllFrom s b k).
Proof.
  revert b k. induction s as [| c s IH]; intros b k.
  - destruct k; constructor.
  - assert (Hs : forall b' k',
        Forall (fun w => exists pre s' rest,
                  c :: s = pre ++ s' /\ fromBackticks s' = Some (w, rest))
          (matchAllFrom s b' k')).
    { intros b' k'. eapply Forall_impl; [| apply (IH b' k')].
      intros w (pre & s' & rest & -> & H). exists (c :: pre), s', rest.
      split; [reflexivity | exact H]. }
    destruct k as [| k]; cbn [matchAllFrom]; [| apply Hs].
    destruct (matchHere b (c :: s)) as [[w after] |] eqn:E; [| apply Hs].
    constructor; [| apply Hs].
    unfold matchHere in E.
    destruct (if b then fromBackticks (c :: s) else None) as [[w' r'] |] eqn:E1.
    + injection E as <- _. destruct b; [| discriminate].
      exists [], (c :: s), r'. split; [reflexivity | exact E1].
    + destruct (c =? 10)%N; [| discriminate].
      exists [c], s, after. split; [reflexivity | exact E].
Qed.

(** X10.  The kind of a parsed block is ["shiki-magic-move"], or ["md"]
    and ["magic-move"] with white space between them, and it is the
    document's own text: the document holds four backticks, white space
    or nothing, and then the kind, code unit for code unit, so that the
    white space between ["md"] and ["magic-move"] is the run the document
    has there, kept as it is (several spaces, tabs or line ends
    included). *)
Theorem block_kind_shape (input : JSString) :
  Forall (fun b =>
      (kind b = str "shiki-magic-move" \/
       exists ws, ws <> [] /\ forallb isWhiteSpace ws = true /\
                  kind b = str "md" ++ ws ++ str "magic-move") /\
      exists pre sp post,
        forallb isWhiteSpace sp = true /\
        input = pre ++ ticks4 ++ sp ++ kind b ++ post)
    (blocks (parseMagicMove Number input)).
Proof.
  unfold parseMagicMove. cbn [blocks]. apply Forall_map.
  unfold matchAll.
  eapply Forall_impl; [| apply (matchAllFrom_located input true 0)].
  intros w (pre & s & rest & Hin & H). unfold blockOfWrapper. cbn [kind].
  unfold fromBackticks in H.
  destruct (startsWith ticks4 s) eqn:Et; [| discriminate].
  destruct (keyword _) as [[g2 s1] |] eqn:Ek; [| discriminate].
  destruct (afterKeyword _ _) as [[[g3 g4] r] |]; [| discriminate].
  injection H as <- _. cbn [group2].
  assert (Hk : trim g2 = g2).
  { destruct (keyword_shape _ _ _ Ek) as [-> | (ws & _ & _ & ->)];
      [reflexivity | apply trim_md]. }
  split.
  - rewrite Hk. destruct (keyword_shape _ _ _ Ek) as [-> | (ws & Hne & Hws & ->)].
    + left. reflexivity.
    + right. exists ws. split; [exact Hne |]. split; [exact Hws | reflexivity].
  - exists pre, (takeWhile isWhiteSpace (skipn 4 s)), s1.
    split; [apply forallb_takeWhile |].
    rewrite Hk, Hin. f_equal.
    etransitivity; [exact (startsWith_split _ _ Et) |].
    change (List.length ticks4) with 4%nat. f_equal.
    etransitivity; [symmetry; apply (takeWhile_dropWhile isWhiteSpace) |]. f_equal.
    apply keyword_split. exact Ek.
Qed.

(** X11.  A parsed block carries the no-steps message exactly when it has
    no step, and no error at all when it has one. *)
Theorem block_errors_iff_no_steps (input : JSString) :
  Forall (fun b =>
      (steps b = [] /\ errors b = [noStepsError]) \/
      (steps b <> [] /\ errors b = []))
    (blocks (parseMagicMove Number input)).
Proof.
  unfold parseMagicMove. cbn [blocks].
  apply Forall_map. apply Forall_forall. intros w _.
  unfold blockOfWrapper. cbn [steps errors].
  set (outer := meta (parseLineMetaDetailed Number (Some (trim (group3 w))))).
  pose proof (stepsOfFences_startLine_ge1 Number outer (parseFencedBlocks (group4 w))
                (parseLineMetaDetailed_startLine_ge1 Number _)) as Hsteps.
  rewrite (startLineErrors_none _ 0 Hsteps), app_nil_r.
  destruct (stepsOfFences Number outer (parseFencedBlocks (group4 w))) as [| s ss].
  - left. split; reflexivity.
  - right. split; [discriminate | reflexivity].
Qed.

(** *** Steps *)

Lemma stepsOfFences_In (outer : Meta) (fences : list Fence) (s : Step) :
  In s (stepsOfFences Number outer fences) ->
  exists f, In f fences /\ isStepFence f = true /\
            stepOfFence Number outer f = Some s.
Proof.
  induction fences as [| f fences IH]; cbn [stepsOfFences]; [contradiction |].
  destruct (eqb (fence f) (str "```")) eqn:E.
  - pose proof (stepOfFence_step Number outer f E) as Hs. cbv zeta in Hs.
    rewrite Hs. intros [<- | Hin].
    + exists f. split; [left; reflexivity |]. split; [exact E | exact Hs].
    + destruct (IH Hin) as (g & Hg & Hg').
      exists g. split; [right; exact Hg | exact Hg'].
  - rewrite (stepOfFence_other Number outer f E). intro Hin.
    destruct (IH Hin) as (g & Hg & Hg').
    exists g. split; [right; exact Hg | exact Hg'].
Qed.

Lemma stripFirstWord_first_free (i : JSString) :
  forallb notSpace (fst (stripFirstWord i)) = true.
Proof.
  unfold stripFirstWord.
  destruct (isEmpty (takeWhile notSpace i)); [reflexivity |].
  destruct (isEmpty (dropWhile notSpace i)); [apply forallb_takeWhile |].
  destruct (forallb _ (dropWhile isWhiteSpace _)); cbn [fst];
    [apply forallb_takeWhile | reflexivity].
Qed.

(** X12.  In every parsed block, the language of a step holds no white
    space, and no line of a step's code starts with three backticks. *)
Theorem step_shape (input : JSString) :
  Forall (fun b =>
      Forall (fun s =>
          forallb notSpace (lang s) = true /\
          Forall (fun l => startsWith (str "```") l = false) (split 10 (code s)))
        (steps b))
    (blocks (parseMagicMove Number input)).
Proof.
  unfold parseMagicMove. cbn [blocks].
  apply Forall_map. apply Forall_forall. intros w _.
  unfold blockOfWrapper. cbn [steps].
  apply Forall_forall. intros s Hs.
  apply stepsOfFences_In in Hs as (f & Hf & Hfence & Hs).
  rewrite (stepOfFence_step Number _ f Hfence) in Hs. cbv zeta in Hs.
  injection Hs as <-. cbn [lang code]. split.
  - pose proof (stripFirstWord_first_free (info f)) as H.
    destruct (fst (stripFirstWord (info f))); [reflexivity | exact H].
  - assert (Hbody : Forall (fun f => Forall (fun l => startsWith (fence f) l = false)
                                       (split 10 (body f)))
                      (parseFencedBlocks (group4 w))).
    { unfold parseFencedBlocks. apply scanLines_body; [| exact I].
      apply (split_pieces_free 10). }
    rewrite Forall_forall in Hbody. specialize (Hbody f Hf).
    apply eqb_eq in Hfence. rewrite Hfence in Hbody. exact Hbody.
Qed.

End DocumentFacts.

Lemma parseMagicMove_without_wrapper_witness :
  MagicMove.parseMagicMove ToNumber.Number (str "```a") =
  MagicMove.mkParseResult [] [MagicMove.noBlocksError].
Proof.
  apply (parseMagicMove_without_wrapper ToNumber.Number).
  intros [| [| [| [| [| n]]]]]; reflexivity.
Defined.

Section WholeDocument.
Import LineMeta MagicMove.

Variable Number : option JSString -> JSNumber.

Local Abbreviation isTick := (fun c : N => (c =? chr "`")%N).
Local Abbreviation notSpace := (fun c : N => negb (isWhiteSpace c)).
Local Abbreviation notTerminator := (fun c : N => negb (isLineTerminator c)).
Local Abbreviation notLF := (fun c : N => negb (c =? 10)%N).
Local Abbreviation notCRLF := (fun c : N => negb (c =? 10)%N && negb (c =? 13)%N).
Local Abbreviation ticks4 := (str "````").
Local Abbreviation fenceLines :=
  (fun st : JSString * list JSString => (str "```" ++ fst st) :: snd st ++ [str "```"]).
Local Abbreviation writable st :=
  (trim (fst st) = fst st /\
   forallb notTerminator (fst st) = true /\
   match fst st return Prop with nil => True | cons c _ => isTick c = false end /\
   Forall (fun l => forallb notCRLF l = true /\ startsWith (str "```") l = false)
     (snd st)).
Local Abbreviation languageOf i :=
  (match i return JSString with nil => str "text" | cons _ _ => takeWhile notSpace i end).

Lemma fenceLines_not_wrapper (fs : list (JSString * list JSString)) :
  Forall (fun st => writable st) fs ->
  Forall (fun l => startsWith ticks4 l = false) (flat_map fenceLines fs).
Proof.
  intro H. induction H as [| [i body] fs (_ & _ & Hhead & Hbody) _ IH];
    [constructor |].
  cbn [flat_map fst snd]. apply Forall_app. split; [| exact IH].
  constructor.
  - destruct i as [| c i]; [reflexivity |].
    assert (E : (96 =? c)%N = false) by (rewrite N.eqb_sym; exact Hhead).
    change (str "```" ++ c :: i) with (96 :: 96 :: 96 :: c :: i)%N.
    change ticks4 with [96; 96; 96; 96]%N.
    cbn [startsWith]. rewrite E, !N.eqb_refl. reflexivity.
  - apply Forall_app. split; [| repeat constructor].
    eapply Forall_impl; [| exact Hbody]. intros l [_ Hl].
    exact (startsWith_longer (str "```") (str "`") l Hl).
Qed.

Lemma written_language (i : JSString) :
  trim i = i -> forallb notTerminator i = true ->
  (if isEmpty (fst (stripFirstWord i)) then str "text" else fst (stripFirstWord i)) =
  languageOf i.
Proof.
  intros Htrim Hterm. destruct i as [| c i]; [reflexivity |].
  assert (Hok : isWhiteSpace c = false /\ forallb notTerminator (c :: i) = true).
  { split; [| exact Hterm]. pose proof (trim_head (c :: i)) as Hh.
    rewrite Htrim in Hh. exact Hh. }
  destruct (stripFirstWord_word (c :: i) Hok ltac:(discriminate)) as [Hw Hne].
  rewrite Hw in *. destruct (takeWhile notSpace (c :: i)); [contradiction | reflexivity].
Qed.

Lemma stepsOfFences_written (outer : Meta) (fs : list (JSString * list JSString)) :
  Forall (fun st => writable st) fs ->
  let ss := stepsOfFences Number outer
              (map (fun st => mkFence (str "```") (fst st) (join lineFeed (snd st))) fs) in
  map code ss = map (fun st => join lineFeed (snd st)) fs /\
  map lang ss = map (fun st => languageOf (fst st)) fs.
Proof.
  intro H. cbv zeta.
  induction H as [| [i codeLines] fs (Htrim & Hterm & _ & _) _ [IH1 IH2]];
    [split; reflexivity |].
  cbn [map stepsOfFences fst snd] in *.
  pose proof (stepOfFence_step Number outer
                (mkFence (str "```") i (join lineFeed codeLines)) eq_refl) as Hs.
  cbv zeta in Hs. rewrite Hs. cbn [map code lang info body].
  rewrite IH1, IH2, (written_language i Htrim Hterm). split; reflexivity.
Qed.

(** X13.  A document that is one wrapper with its info on the wrapper's
    line and its steps written one after another is read back as it was
    written: one block of the wrapper's kind, whose outer metadata is the
    parse of the wrapper's info, with no error, and with one step per
    written step, in order, each with the written code and with the first
    word of the written info as its language (["text"] for an empty
    info). *)
Theorem parseMagicMove_reads_back (kw outerInfo : JSString)
    (fs : list (JSString * list JSString)) :
  kw = str "shiki-magic-move" \/ kw = str "md magic-move" ->
  trim outerInfo = outerInfo -> outerInfo <> [] ->
  forallb notLF outerInfo = true ->
  fs <> [] -> Forall (fun st => writable st) fs ->
  exists b,
    parseMagicMove Number
      (ticks4 ++ kw ++ str " " ++ outerInfo ++ lineFeed ++
       join lineFeed (flat_map fenceLines fs) ++ lineFeed ++ ticks4) =
    mkParseResult [b] [] /\
    kind b = kw /\
    outerMeta b = meta (parseLineMetaDetailed Number (Some outerInfo)) /\
    errors b = [] /\
    map code (steps b) = map (fun st => join lineFeed (snd st)) fs /\
    map lang (steps b) = map (fun st => languageOf (fst st)) fs.
Proof.
  intros Hkw Htrim Hne Hinfo Hfs Hw.
  assert (Hhead : match outerInfo return Prop with
                  | nil => False
                  | cons c _ => isWhiteSpace c = false
                  end).
  { pose proof (trim_head outerInfo) as Hh. rewrite Htrim in Hh.
    destruct outerInfo; [contradiction | exact Hh]. }
  assert (Hlines : split 10 (join lineFeed (flat_map fenceLines fs)) =
                   flat_map fenceLines fs).
  { unfold lineFeed. apply split_join.
    - destruct fs as [| [i body] fs]; [contradiction | cbn; discriminate].
    - pose proof (fenceLines_free fs Hw) as Hfree.
      eapply Forall_impl; [| exact Hfree]. intros l Hl.
      apply notCRLF_notLF in Hl as [Hl _]. exact Hl. }
  assert (Hinner : Forall (fun l => startsWith ticks4 l = false)
                     (split 10 (join lineFeed (flat_map fenceLines fs)))).
  { rewrite Hlines. apply fenceLines_not_wrapper. exact Hw. }
  pose proof (matchAll_wrapper_doc kw (str " ") outerInfo _ Hkw eq_refl Hhead Hinfo Hinner)
    as Hmatch.
  unfold parseMagicMove. rewrite Hmatch. cbn [map List.length Nat.eqb].
  eexists. split; [reflexivity |].
  unfold blockOfWrapper. cbn [kind outerMeta errors steps group2 group3 group4].
  rewrite Htrim, (parseFencedBlocks_written fs Hw).
  set (outer := meta (parseLineMetaDetailed Number (Some outerInfo))).
  destruct (stepsOfFences_written outer fs Hw) as [Hcode Hlang].
  split; [destruct Hkw as [-> | ->]; reflexivity |].
  split; [reflexivity |].
  split; [| split; assumption].
  pose proof (stepsOfFences_startLine_ge1 Number outer
                (map (fun st => mkFence (str "```") (fst st) (join lineFeed (snd st))) fs)
                (parseLineMetaDetailed_startLine_ge1 Number _)) as Hsteps.
  rewrite (startLineErrors_none _ 0 Hsteps), app_nil_r.
  apply (f_equal (@List.length _)) in Hcode. rewrite !length_map in Hcode.
  rewrite Hcode. destruct fs; [contradiction | reflexivity].
Qed.

End WholeDocument.

Lemma parseMagicMove_reads_back_witness :
  exists b,
    MagicMove.parseMagicMove ToNumber.Number
      (str "````" ++ str "shiki-magic-move" ++ str " " ++ str "{lines:true}" ++ lineFeed ++
       join lineFeed
         (flat_map (fun st : JSString * list JSString =>
                      (str "```" ++ fst st) :: snd st ++ [str "```"])
            [(str "ts", [str "const a = 1"]);
             (str "ts {startLine:10}", [str "const a = 2"; str "a"])]) ++
       lineFeed ++ str "````") =
    MagicMove.mkParseResult [b] [] /\
    MagicMove.kind b = str "shiki-magic-move" /\
    MagicMove.outerMeta b =
      LineMeta.meta (LineMeta.parseLineMetaDetailed ToNumber.Number (Some (str "{lines:true}"))) /\
    MagicMove.errors b = [] /\
    map MagicMove.code (MagicMove.steps b) =
      map (fun st : JSString * list JSString => join lineFeed (snd st))
        [(str "ts", [str "const a = 1"]);
         (str "ts {startLine:10}", [str "const a = 2"; str "a"])] /\
    map MagicMove.lang (MagicMove.steps b) =
      map (fun st : JSString * list JSString =>
             match fst st return JSString with
             | nil => str "text"
             | cons _ _ => takeWhile (fun c : N => negb (isWhiteSpace c)) (fst st)
             end)
        [(str "ts", [str "const a = 1"]);
         (str "ts {startLine:10}", [str "const a = 2"; str "a"])].
Proof.
  apply (parseMagicMove_reads_back ToNumber.Number (str "shiki-magic-move")
           (str "{lines:true}")
           [(str "ts", [str "const a = 1"]);
            (str "ts {startLine:10}", [str "const a = 2"; str "a"])]).
  - left. reflexivity.
  - reflexivity.
  - discriminate.
  - reflexivity.
  - discriminate.
  - repeat constructor.
Defined.

(** ** Metadata inheritance in written documents *)

Section Inheritance.
Import LineMeta MagicMove.

Variable Number : option JSString -> JSNumber.

Local Abbreviation isTick := (fun c : N => (c =? chr "`")%N).
Local Abbreviation notSpace := (fun c : N => negb (isWhiteSpace c)).
Local Abbreviation notTerminator := (fun c : N => negb (isLineTerminator c)).
Local Abbreviation notLF := (fun c : N => negb (c =? 10)%N).
Local Abbreviation notCRLF := (fun c : N => negb (c =? 10)%N && negb (c =? 13)%N).
Local Abbreviation isStepFence := (fun f : Fence => eqb (fence f) (str "```")).
Local Abbreviation ticks4 := (str "````").
Local Abbreviation fenceLines :=
  (fun st : JSString * list JSString => (str "```" ++ fst st) :: snd st ++ [str "```"]).
Local Abbreviation writable st :=
  (trim (fst st) = fst st /\
   forallb notTerminator (fst st) = true /\
   match fst st return Prop with nil => True | cons c _ => isTick c = false end /\
   Forall (fun l => forallb notCRLF l = true /\ startsWith (str "```") l = false)
     (snd st)).
Local Abbreviation default := (mkResult (mkMeta false 1) (mkSpecified false false)).

(** The effective metadata of a step: per key, its own value when its own
    metadata specifies the key, the outer value otherwise. *)
Local Abbreviation inherits own outer m :=
  (lines m = (if specLines (specified own) then lines (meta own) else lines outer) /\
   startLine m =
     (if specStartLine (specified own) then startLine (meta own) else startLine outer)).







End Inheritance.



(** ** The [lines] key in a step's own metadata *)

Section LinesKey.
Import LineMeta MagicMove.

Variable Number : option JSString -> JSNumber.

Local Abbreviation isNot c := (fun d : N => negb (d =? c)%N).
Local Abbreviation notSpace := (fun c : N => negb (isWhiteSpace c)).
Local Abbreviation notTerminator := (fun c : N => negb (isLineTerminator c)).
Local Abbreviation default := (mkResult (mkMeta false 1) (mkSpecified false false)).
Local Abbreviation group g :=
  (fst g ++ chr "{" :: join [chr ","] (snd g) ++ [chr "}"])%list.
Local Abbreviation writtenInfo groups post :=
  (flat_map (fun g : JSString * list JSString => group g) groups ++ post)%list.
Local Abbreviation entryOK e :=
  (forallb (isNot (chr ",")) e = true /\ forallb (isNot (chr "}")) e = true).
Local Abbreviation groupOK g :=
  (forallb (isNot (chr "{")) (fst g) = true /\ Forall (fun e => entryOK e) (snd g)).
Local Abbreviation postOK post :=
  (forallb (isNot (chr "{")) post = true \/ forallb (isNot (chr "}")) post = true).






End LinesKey.



(** ** Frames and playback *)

Section PlaybackFacts.
Import ToNumber Double Page Playback.
Local Open Scope Q_scope.

Lemma pairLoop_in_range (tl : Timeline) (T b : Q) (n : nat) :
  betweenHold tl = Finite b ->
  forall (r i : nat) (t : JSNumber),
    nonnegOrNaN t -> (i + r = n - 1)%nat -> (1 <= n)%nat ->
    match pairLoop tl T n r i t with
    | Holding j => (j < n)%nat
    | Transitioning a c p =>
        c = (a + 1)%nat /\ (c < n)%nat /\
        leb (ofZ 0) p = true /\ leb p (ofZ 1) = true
    end.
Proof.
  intros Hb r. induction r as [| r IH]; intros i t Ht Hi Hn; cbn [pairLoop].
  - lia.
  - destruct (leb t (Finite T)) eqn:E1.
    + split; [reflexivity |]. split; [lia |].
      destruct (leb (Finite T) (ofZ 0)) eqn:E2; [split; reflexivity |].
      destruct Ht as [-> | Ht]; [discriminate E1 |].
      apply div_unit; assumption.
    + pose proof (sub_passed t T Ht E1) as Ht1.
      rewrite Hb. destruct (leb (sub t (Finite T)) (Finite b)) eqn:E3; [lia |].
      apply IH; [| lia | exact Hn].
      apply sub_passed; assumption.
Qed.

(** X14.  Whatever the elapsed time, the frame [renderAt] draws addresses
    step layouts that exist: a hold of a step below the step count, or a
    transition between two consecutive steps below it, whose progress lies
    between 0 and 1. *)
Theorem renderAt_frame_in_range (c : bool) (k n : nat) (T : Q) (ms : JSNumber)
    (f : Frame) :
  renderAt c n (timeline k T) T ms = Some f ->
  match f with
  | Holding j => (j < n)%nat
  | Transitioning a b p =>
      b = (a + 1)%nat /\ (b < n)%nat /\
      leb (ofZ 0) p = true /\ leb p (ofZ 1) = true
  end.
Proof.
  unfold renderAt. destruct (negb c || (n =? 0)%nat) eqn:E; [discriminate |].
  apply orb_false_iff in E as [_ E]. apply Nat.eqb_neq in E.
  destruct (Nat.eqb_spec n 1) as [-> | Hn1].
  - intro H. injection H as <-. lia.
  - destruct (timeline_holds k T) as (Hs & Hb & _).
    destruct (ltb _ (startHold (timeline k T))) eqn:E0.
    + intro H. injection H as <-. lia.
    + intro H. injection H as <-.
      apply (pairLoop_in_range _ T (inject_Z 120)); [exact Hb | | lia | lia].
      apply (renderAt_entry _ (inject_Z 250)); assumption.
Qed.

Lemma renderAt_frame_in_range_witness :
  (1 = 0 + 1)%nat /\ (1 < 3)%nat /\
  leb (ofZ 0) (Finite (1 # 2)) = true /\ leb (Finite (1 # 2)) (ofZ 1) = true.
Proof.
  apply (renderAt_frame_in_range true 3 3 800 (ofZ 650)
           (Transitioning 0 1 (Finite (1 # 2)))).
  vm_compute. reflexivity.
Defined.

Lemma pairLoop_past_end (tl : Timeline) (z B : Z) (n : nat) :
  betweenHold tl = ofZ 120 -> (0 <= z)%Z -> (Z.abs B < 2 ^ 53)%Z ->
  forall (r i : nat) (q : Q),
    (i + r = n - 1)%nat ->
    inject_Z (Z.of_nat r * (z + 120)) <= q -> q <= inject_Z B ->
    pairLoop tl (inject_Z z) n r i (Finite q) = Holding (n - 1).
Proof.
  intros Hb Hz HB r. induction r as [| r IH]; intros i q Hi L U; cbn [pairLoop].
  - reflexivity.
  - assert (HL : inject_Z (Z.of_nat r * (z + 120) + z + 120) <= q).
    { eapply Qle_trans; [| exact L]. rewrite <- Zle_Qle. lia. }
    assert (HzB : (0 <= Z.of_nat r * (z + 120))%Z) by nia.
    assert (HBpos : (Z.of_nat r * (z + 120) + z + 120 <= B)%Z).
    { rewrite Zle_Qle. eapply Qle_trans; eassumption. }
    assert (E1 : leb (Finite q) (Finite (inject_Z z)) = false).
    { cbn [leb]. apply Qle_bool_false. eapply Qlt_le_trans; [| exact HL].
      rewrite <- Zlt_Qlt. lia. }
    rewrite E1. cbn [sub].
    destruct (roundToDouble_between (q - inject_Z z)
                (Z.of_nat r * (z + 120) + 120) B) as (t1 & E2 & L1 & U1).
    + lia.
    + exact HB.
    + rewrite Zle_Qle in HBpos.
      replace (Z.of_nat r * (z + 120) + 120)%Z
        with (Z.of_nat r * (z + 120) + z + 120 - z)%Z by lia.
      unfold Z.sub at 1. rewrite inject_Z_plus, inject_Z_opp. lra.
    + assert (0 <= inject_Z z) by (change 0 with (inject_Z 0); rewrite <- Zle_Qle; lia).
      lra.
    + rewrite E2, Hb. unfold ofZ. cbn [leb sub].
      destruct (Qle_bool t1 (inject_Z 120)) eqn:E3.
      * apply Qle_bool_iff in E3.
        assert (Hr : (Z.of_nat r * (z + 120) + 120 <= 120)%Z).
        { rewrite Zle_Qle. lra. }
        assert (r = 0%nat) by nia. f_equal. lia.
      * destruct (roundToDouble_between (t1 - inject_Z 120)
                    (Z.of_nat r * (z + 120)) B) as (t2 & E4 & L2 & U2).
        -- lia.
        -- exact HB.
        -- rewrite inject_Z_plus in L1. lra.
        -- assert (0 <= inject_Z 120) by (unfold Qle; cbn; lia). lra.
        -- rewrite E4. apply IH; [lia | exact L2 | exact U2].
Qed.

(** X15.  With a transition duration that is a whole number of
    milliseconds [z >= 0], as the slider gives (the total staying below
    [2^53]), and on the timeline of its own step count, [renderAt] holds
    the last step throughout the end hold and at any later time. *)
Theorem renderAt_end_hold (n : nat) (z : Z) (ms : JSNumber) :
  (2 <= n)%nat -> (0 <= z)%Z -> (500 + Z.of_nat n * (z + 120) < 2 ^ 53)%Z ->
  ltb (sub (totalMs (timeline n (inject_Z z))) (endHold (timeline n (inject_Z z)))) ms
    = true ->
  renderAt true n (timeline n (inject_Z z)) (inject_Z z) ms = Some (Holding (n - 1)).
Proof.
  intros Hn Hz Hbound Hms.
  destruct (timeline_holds n (inject_Z z)) as (Hs & Hb & He).
  pose proof (timeline_totalMs_integer n z (inject_Z z) Hn (Qeq_refl _) Hz Hbound)
    as Htot.
  unfold ofZ in Htot.
  set (k := Z.of_nat (n - 1)).
  assert (Hk : (Z.of_nat n - 1 = k)%Z) by (unfold k; lia).
  rewrite Hk in Htot.
  set (Tot := (250 + k * z + k * 120 + 250)%Z) in *.
  assert (HkT : (0 <= k * (z + 120))%Z) by nia.
  assert (HTot : (Tot = k * (z + 120) + 500)%Z) by (unfold Tot; lia).
  assert (HTotB : (Z.abs Tot < 2 ^ 53)%Z) by nia.
  rewrite He, Htot in Hms. unfold ofZ in Hms. rewrite sub_Z in Hms by lia.
  unfold renderAt. cbn [negb orb].
  destruct (Nat.eqb_spec n 0) as [E | _]; [lia |].
  destruct (Nat.eqb_spec n 1) as [E | _]; [lia |].
  rewrite Htot, Hs.
  assert (Hclamp : exists c,
            mathMax (ofZ 0) (mathMin (Finite (inject_Z Tot)) ms) = Finite c /\
            inject_Z (Tot - 250) < c /\ c <= inject_Z Tot).
  { assert (P : inject_Z (Tot - 250) < inject_Z Tot) by (rewrite <- Zlt_Qlt; lia).
    assert (P0 : 0 <= inject_Z (Tot - 250))
      by (change 0 with (inject_Z 0); rewrite <- Zle_Qle; lia).
    unfold ofZ. change (inject_Z 0) with 0.
    assert (E : Qle_bool 0 (inject_Z Tot) = true) by (apply Qle_bool_iff; lra).
    destruct ms as [| [] | q]; cbn [ltb negb] in Hms; try discriminate.
    - cbn [mathMin mathMax].
      rewrite E. exists (inject_Z Tot). split; [reflexivity |]. split; [exact P | lra].
    - apply negb_true_iff, Qle_bool_false in Hms. cbn [mathMin mathMax].
      destruct (Qle_bool (inject_Z Tot) q) eqn:E1.
      + rewrite E. exists (inject_Z Tot). split; [reflexivity |]. split; [exact P | lra].
      + apply Qle_bool_false in E1.
        assert (E2 : Qle_bool 0 q = true) by (apply Qle_bool_iff; lra).
        rewrite E2. exists q. split; [reflexivity |]. split; lra. }
  destruct Hclamp as (c & -> & Lc & Uc).
  assert (Lc' : inject_Z 250 <= c).
  { eapply Qle_trans; [| apply Qlt_le_weak; exact Lc]. rewrite <- Zle_Qle. lia. }
  assert (E0 : ltb (Finite c) (ofZ 250) = false).
  { unfold ofZ. cbn [ltb]. apply negb_false_iff. apply Qle_bool_iff. exact Lc'. }
  rewrite E0. f_equal. unfold ofZ. cbn [sub].
  destruct (roundToDouble_between (c - inject_Z 250) (k * (z + 120)) Tot)
    as (t0 & E1 & L0 & U0).
  - lia.
  - exact HTotB.
  - replace (k * (z + 120))%Z with (Tot - 250 - 250)%Z by lia.
    unfold Z.sub at 1. rewrite inject_Z_plus, inject_Z_opp.
    change (inject_Z (-250)) with (- inject_Z 250). lra.
  - assert (0 <= inject_Z 250) by (unfold Qle; cbn; lia). lra.
  - rewrite E1.
    apply (pairLoop_past_end _ z Tot); try assumption; try lia.
Qed.

Lemma renderAt_end_hold_witness :
  renderAt true 3 (timeline 3 (inject_Z 800)) (inject_Z 800) (ofZ 2100) =
  Some (Holding (3 - 1)).
Proof.
  apply (renderAt_end_hold 3 800 (ofZ 2100)).
  - lia.
  - lia.
  - lia.
  - vm_compute. reflexivity.
Defined.

(** The bound on the duration matters.  With a transition of [10^20] ms
    the holds are smaller than the spacing of the doubles around the
    total, [totalMs - endHold] is [totalMs] again, and a time past the end
    is drawn as the end of the last transition, not as a hold. *)
Example renderAt_end_hold_large_transition :
  ltb (sub (totalMs (timeline 2 (inject_Z (10 ^ 20))))
           (endHold (timeline 2 (inject_Z (10 ^ 20)))))
      (ofZ (2 * 10 ^ 20)) = true /\
  renderAt true 2 (timeline 2 (inject_Z (10 ^ 20))) (inject_Z (10 ^ 20))
    (ofZ (2 * 10 ^ 20)) = Some (Transitioning 0 1 (ofZ 1)).
Proof. vm_compute. split; reflexivity. Qed.

Lemma tick_step (totalMs : JSNumber) (st : Player) (now : Q) :
  nonneg (playhead st) -> ltb (ofZ 0) totalMs = true ->
  match lastFrameRef st with Some l => l <= now | None => True end ->
  nonneg (playhead (tick totalMs st now)) /\
  ltb (playhead (tick totalMs st now)) totalMs = true.
Proof.
  intros Hp Htotal Hlast. unfold tick. cbn [playhead].
  set (last := match lastFrameRef st with Some l => l | None => now end).
  assert (Hle : last <= now).
  { subst last. destruct (lastFrameRef st); [exact Hlast | lra]. }
  assert (Hdt : nonneg (sub (Finite now) (Finite last))).
  { apply sub_nonneg. apply leb_Finite. exact Hle. }
  destruct (add_mono (playhead st) (playhead st)
              (sub (Finite now) (Finite last)) (sub (Finite now) (Finite last)))
    as [_ Hnext]; try assumption.
  { apply leb_refl. apply leb_not_NaN in Hp. tauto. }
  { apply leb_refl. apply leb_not_NaN in Hdt. tauto. }
  destruct (leb totalMs (add (playhead st) (sub (Finite now) (Finite last)))) eqn:E.
  - split; [reflexivity | exact Htotal].
  - split; [exact Hnext |].
    apply leb_false_ltb; [| | exact E].
    + apply ltb_leb, leb_not_NaN in Htotal. tauto.
    + apply leb_not_NaN in Hnext. tauto.
Qed.

(** X16.  During live playback, as long as the frame timestamps do not
    decrease, the playhead never leaves the timeline: after any number of
    ticks it is at least 0, and, once a tick has run, below [totalMs]. *)
Theorem tick_playhead_in_range (totalMs : JSNumber) (nows : list Q) (st : Player) :
  leb (ofZ 0) (playhead st) = true -> ltb (ofZ 0) totalMs = true ->
  Sorted Qle (match lastFrameRef st with Some l => l :: nows | None => nows end) ->
  leb (ofZ 0) (playhead (fold_left (tick totalMs) nows st)) = true /\
  (nows <> [] -> ltb (playhead (fold_left (tick totalMs) nows st)) totalMs = true).
Proof.
  intros Hp Htotal. revert st Hp.
  induction nows as [| now nows IH]; intros st Hp Hsorted; cbn [fold_left].
  - split; [exact Hp | intro H; contradiction].
  - assert (Hlast : match lastFrameRef st with Some l => l <= now | None => True end).
    { destruct (lastFrameRef st) as [l |]; [| exact I].
      inversion Hsorted as [| ? ? _ Hhd]; subst. inversion Hhd; subst. assumption. }
    assert (Hrest : Sorted Qle (now :: nows)).
    { destruct (lastFrameRef st) as [l |]; [| exact Hsorted].
      inversion Hsorted; assumption. }
    destruct (tick_step totalMs st now Hp Htotal Hlast) as [H0 Hlt].
    destruct (IH (tick totalMs st now) H0 Hrest) as [IH0 IHlt].
    split; [exact IH0 |]. intros _.
    destruct nows as [| now2 nows]; [cbn; exact Hlt |].
    apply IHlt. discriminate.
Qed.

Lemma tick_playhead_in_range_witness :
  leb (ofZ 0)
    (playhead (fold_left (tick (ofZ 500)) [16; 33 + (1 # 3); 600]
                 (mkPlayer None (ofZ 490)))) = true /\
  ([16; 33 + (1 # 3); 600] <> [] ->
   ltb (playhead (fold_left (tick (ofZ 500)) [16; 33 + (1 # 3); 600]
                    (mkPlayer None (ofZ 490)))) (ofZ 500) = true).
Proof.
  apply (tick_playhead_in_range (ofZ 500) [16; 33 + (1 # 3); 600]
           (mkPlayer None (ofZ 490))).
  - reflexivity.
  - reflexivity.
  - cbn. repeat constructor; unfold Qle; cbn; lia.
Defined.

End PlaybackFacts.

(** ** Export results *)

Section ExportMore.
Import Page.

Lemma handleEvent_keeps (env : Env) (d : JSNumber) (s : State * Loop) (ev : Event) :
  downloadUrl (fst (handleEvent env d s ev)) = downloadUrl (fst s) /\
  layoutError (fst (handleEvent env d s ev)) = layoutError (fst s) /\
  revoked (fst (handleEvent env d s ev)) = revoked (fst s).
Proof.
  destruct s as [st lp]. destruct ev as [elapsed | elapsed total]; cbn [handleEvent].
  - unfold renderLoop. destruct (negb (scheduled lp)); [repeat split |].
    destruct (cancelled lp); repeat split.
  - repeat split.
Qed.

Lemma fold_handleEvent_keeps (env : Env) (d : JSNumber) (events : list Event)
    (s : State * Loop) :
  downloadUrl (fst (fold_left (handleEvent env d) events s)) = downloadUrl (fst s) /\
  layoutError (fst (fold_left (handleEvent env d) events s)) = layoutError (fst s) /\
  revoked (fst (fold_left (handleEvent env d) events s)) = revoked (fst s).
Proof.
  revert s. induction events as [| ev events IH]; intro s; cbn [fold_left].
  - repeat split.
  - destruct (IH (handleEvent env d s ev)) as (H1 & H2 & H3).
    destruct (handleEvent_keeps env d s ev) as (K1 & K2 & K3).
    rewrite H1, H2, H3, K1, K2, K3. repeat split.
Qed.

(** X17.  An export that has started revokes the previous download URL, if
    there was one, and ends with the new blob's URL as the download URL
    when the recording resolved, the error message untouched; when the
    recording rejected or the URL could not be created it ends with no
    download URL and with the thrown error's message (["Export failed"]
    for a value that is not an error) as the error shown. *)
Theorem onExport_result (env : Env) (st : State) (events : list Event)
    (outcome : Outcome) :
  canvas env = true -> stepLayouts env <> 0%nat ->
  exists st' lp,
    onExport env st events outcome = (st', Some lp) /\
    revoked st' =
      revoked st ++ match downloadUrl st with Some u => [u] | None => [] end /\
    match outcome with
    | Resolved url => downloadUrl st' = Some url /\ layoutError st' = layoutError st
    | ResolvedUrlThrows e | Rejected e =>
        downloadUrl st' = None /\ layoutError st' = Some (errorMessage e)
    end.
Proof.
  intros Hc Hn. unfold onExport. rewrite Hc. cbn [negb].
  destruct (Nat.eqb_spec (stepLayouts env) 0) as [E | _]; [contradiction |].
  match goal with
  | |- context [fold_left ?f events ?s0] =>
      pose proof (fold_handleEvent_keeps env (totalMs (tl env)) events s0)
        as (H1 & H2 & H3);
      destruct (fold_left f events s0) as [st1 lp1]
  end.
  cbn [fst] in H1, H2, H3.
  assert (Hrev : revoked st1 =
            revoked st ++ match downloadUrl st with Some u => [u] | None => [] end).
  { rewrite H3. unfold revokeObjectURL. cbn.
    destruct (downloadUrl st); cbn; [reflexivity | rewrite app_nil_r; reflexivity]. }
  assert (Herr : layoutError st1 = layoutError st).
  { rewrite H2. unfold revokeObjectURL. cbn. destruct (downloadUrl st); reflexivity. }
  assert (Hurl : downloadUrl st1 = None) by exact H1.
  destruct outcome as [url | e | e]; eexists; eexists;
    (split; [reflexivity |]); cbn; (split; [exact Hrev |]); split;
    try reflexivity; assumption.
Qed.

End ExportMore.

Lemma onExport_result_witness :
  exists st' lp,
    Page.onExport (Page.mkEnv true 2 (Page.timeline 2 800%Q) 800%Q)
      (Page.mkState false (Double.ofZ 0) (Some 7%nat) None (Double.ofZ 40) [] [])
      [Page.Progress (Double.ofZ 16) (Double.ofZ 1420)]
      (Page.Rejected Page.OtherValue) = (st', Some lp) /\
    Page.revoked st' = [] ++ [7%nat] /\
    (Page.downloadUrl st' = None /\
     Page.layoutError st' = Some (Page.errorMessage Page.OtherValue)).
Proof.
  apply (onExport_result (Page.mkEnv true 2 (Page.timeline 2 800%Q) 800%Q)
           (Page.mkState false (Double.ofZ 0) (Some 7%nat) None (Double.ofZ 40) [] [])
           [Page.Progress (Double.ofZ 16) (Double.ofZ 1420)]
           (Page.Rejected Page.OtherValue)).
  - reflexivity.
  - discriminate.
Defined.

(** ** The step list *)

Section StepListFacts.
Import Playback.

Lemma filterIndex_before (index i : nat) (l : list SimpleStep) :
  (index < i)%nat -> filterIndex index i l = l.
Proof.
  revert i. induction l as [| s l IH]; intros i H; [reflexivity |].
  cbn [filterIndex]. destruct (Nat.eqb_spec i index) as [E | _]; [lia |].
  cbn [negb]. rewrite IH by lia. reflexivity.
Qed.

Lemma filterIndex_at (index i : nat) (l : list SimpleStep) :
  (i <= index)%nat ->
  filterIndex index i l = firstn (index - i) l ++ skipn (S (index - i)) l.
Proof.
  revert i. induction l as [| s l IH]; intros i H.
  - cbn. destruct (index - i)%nat; reflexivity.
  - cbn [filterIndex]. destruct (Nat.eqb_spec i index) as [E | E]; cbn [negb].
    + subst i. rewrite Nat.sub_diag. cbn [firstn skipn app].
      apply filterIndex_before. lia.
    + rewrite IH by lia.
      replace (index - i)%nat with (S (index - (i + 1))) by lia.
      reflexivity.
Qed.

(** X18.  [removeSimpleStep] never empties the step list: a single step
    stays; with two steps or more the step at the index is removed and the
    others keep their order; an index past the end removes nothing. *)
Theorem removeSimpleStep_keeps_a_step (index : nat) (simpleSteps : list SimpleStep) :
  simpleSteps <> [] ->
  removeSimpleStep index simpleSteps <> [] /\
  (List.length simpleSteps = 1%nat -> removeSimpleStep index simpleSteps = simpleSteps) /\
  ((2 <= List.length simpleSteps)%nat -> (index < List.length simpleSteps)%nat ->
     removeSimpleStep index simpleSteps =
       firstn index simpleSteps ++ skipn (S index) simpleSteps /\
     List.length (removeSimpleStep index simpleSteps) =
       (List.length simpleSteps - 1)%nat) /\
  ((List.length simpleSteps <= index)%nat ->
     removeSimpleStep index simpleSteps = simpleSteps).
Proof.
  intro Hne. unfold removeSimpleStep.
  destruct (Nat.leb_spec (List.length simpleSteps) 1) as [Hle | Hgt].
  - split; [exact Hne |]. split; [reflexivity |]. split; [lia |]. reflexivity.
  - rewrite filterIndex_at by lia. rewrite Nat.sub_0_r.
    assert (Hlen : (index < List.length simpleSteps)%nat ->
              List.length (firstn index simpleSteps ++ skipn (S index) simpleSteps) =
              (List.length simpleSteps - 1)%nat).
    { intro Hi. rewrite length_app, length_firstn, length_skipn. lia. }
    split; [| split; [lia | split]].
    + intro E. apply (f_equal (@List.length _)) in E.
      rewrite length_app, length_firstn, length_skipn in E. cbn in E. lia.
    + intros _ Hi. split; [reflexivity | exact (Hlen Hi)].
    + intro Hi. rewrite firstn_all2 by lia. rewrite skipn_all2 by lia.
      apply app_nil_r.
Qed.

(** X23.  Removing the step that was just added gives the step list back:
    [addSimpleStep] then [removeSimpleStep] at the new step's index is the
    identity on a list that is not empty, the steps before keeping their
    places.  On the empty list it is not: the added step, being the only
    one, stays. *)
Theorem addSimpleStep_then_remove (simpleSteps : list SimpleStep) :
  (simpleSteps <> [] ->
   removeSimpleStep (List.length simpleSteps) (addSimpleStep simpleSteps) =
   simpleSteps) /\
  (simpleSteps = [] ->
   removeSimpleStep (List.length simpleSteps) (addSimpleStep simpleSteps) =
   addSimpleStep simpleSteps).
Proof.
  unfold removeSimpleStep, addSimpleStep. rewrite length_app. cbn [List.length].
  split.
  - intro Hne.
    destruct (Nat.leb_spec (List.length simpleSteps + 1) 1) as [Hle | _].
    + destruct simpleSteps; [contradiction | cbn in Hle; lia].
    + rewrite filterIndex_at by lia. rewrite Nat.sub_0_r.
      rewrite firstn_app, firstn_all, Nat.sub_diag. cbn [firstn].
      rewrite skipn_all2 by (rewrite length_app; cbn; lia).
      rewrite !app_nil_r. reflexivity.
  - intros ->. reflexivity.
Qed.

End StepListFacts.

Lemma removeSimpleStep_keeps_a_step_witness :
  let l := [Playback.mkSimpleStep (str "a"); Playback.mkSimpleStep (str "b");
            Playback.mkSimpleStep (str "c")] in
  Playback.removeSimpleStep 1 l = firstn 1 l ++ skipn 2 l /\
  List.length (Playback.removeSimpleStep 1 l) = (List.length l - 1)%nat.
Proof.
  cbv zeta.
  destruct (removeSimpleStep_keeps_a_step 1
              [Playback.mkSimpleStep (str "a"); Playback.mkSimpleStep (str "b");
               Playback.mkSimpleStep (str "c")]) as (_ & _ & H & _).
  - discriminate.
  - apply H; cbn; lia.
Defined.

Lemma addSimpleStep_then_remove_witness :
  let l := [Playback.mkSimpleStep (str "a"); Playback.mkSimpleStep (str "b")] in
  Playback.removeSimpleStep 2 (Playback.addSimpleStep l) = l.
Proof.
  cbv zeta.
  apply (proj1 (addSimpleStep_then_remove
                  [Playback.mkSimpleStep (str "a"); Playback.mkSimpleStep (str "b")])).
  discriminate.
Defined.

(** ** Number inputs *)

Section InputFacts.
Import Double Inputs.

Variable Number : option JSString -> JSNumber.

Lemma orElse_cases (a d : JSNumber) :
  orElse a d = d \/
  (exists b, orElse a d = Infinity b) \/
  (exists q, orElse a d = Finite q /\ ~ (q == 0)%Q).
Proof.
  destruct a as [| b | q]; cbn.
  - left. reflexivity.
  - right. left. exists b. reflexivity.
  - destruct (Qeq_bool q 0) eqn:E; [left; reflexivity |].
    right. right. exists q. split; [reflexivity |].
    intro H. apply Qeq_bool_iff in H. congruence.
Qed.

(** X19.  Whatever is typed in the start-line box, the start line handed
    on is a number of at least 1, never not-a-number: text that is not a
    number, or zero, gives 1, and a value below 1 is raised to 1.  It is
    not rounded. *)
Theorem startLineInput_ge1 (value : JSString) :
  geOne (startLineInput Number value) = true /\
  (Number (Some value) = NaN \/ Number (Some value) = Finite 0 ->
   startLineInput Number value = Finite 1) /\
  (forall q, Number (Some value) = Finite q -> (1 <= q)%Q ->
   startLineInput Number value = Finite q) /\
  (forall q, Number (Some value) = Finite q -> (q < 1)%Q ->
   startLineInput Number value = Finite 1).
Proof.
  unfold startLineInput. split; [| split; [| split]].
  - destruct (Number (Some value)) as [| b | q]; cbn.
    + reflexivity.
    + destruct b; reflexivity.
    + destruct (Qeq_bool q 0); cbn; [reflexivity |].
      destruct (Qle_bool 1 q) eqn:E; cbn; [exact E | reflexivity].
  - intros [-> | ->]; reflexivity.
  - intros q -> Hq. cbn.
    destruct (Qeq_bool q 0) eqn:E.
    + apply Qeq_bool_iff in E. lra.
    + cbn. apply Qle_bool_iff in Hq. rewrite Hq. reflexivity.
  - intros q -> Hq. cbn.
    destruct (Qeq_bool q 0); [reflexivity |].
    cbn. destruct (Qle_bool 1 q) eqn:E; [| reflexivity].
    apply Qle_bool_iff in E. lra.
Qed.

Lemma clamp_finite (lo hi : Q) (x : JSNumber) :
  (lo <= hi)%Q -> x <> NaN ->
  exists q, mathMax (Finite lo) (mathMin (Finite hi) x) = Finite q /\
            (lo <= q)%Q /\ (q <= hi)%Q.
Proof.
  intros Hlh Hx. destruct x as [| b | q]; [contradiction | |].
  - destruct b; cbn.
    + exists lo. split; [reflexivity | lra].
    + destruct (Qle_bool lo hi) eqn:E.
      * exists hi. split; [reflexivity | lra].
      * exists lo. split; [reflexivity | lra].
  - cbn. destruct (Qle_bool hi q) eqn:E1; cbn.
    + destruct (Qle_bool lo hi) eqn:E2.
      * exists hi. split; [reflexivity | lra].
      * exists lo. split; [reflexivity | lra].
    + assert (Hq : (q < hi)%Q).
      { destruct (Qlt_le_dec q hi) as [H | H]; [exact H |].
        apply Qle_bool_iff in H. congruence. }
      destruct (Qle_bool lo q) eqn:E2.
      * apply Qle_bool_iff in E2. exists q. split; [reflexivity | lra].
      * exists lo. split; [reflexivity | lra].
Qed.

Lemma orElse_not_NaN (a d : JSNumber) : d <> NaN -> orElse a d <> NaN.
Proof.
  intro Hd. destruct a as [| b | q]; cbn; [exact Hd | discriminate |].
  destruct (Qeq_bool q 0); [exact Hd | discriminate].
Qed.

(** X20.  Whatever is typed in the FPS and transition boxes of the
    markdown page, the value stored is a finite number within the box's
    bounds, 10 to 60 and 100 to 5000; text that is not a number, or zero,
    gives the default, 30 and 800, rather than the lower bound. *)
Theorem fps_and_transition_inputs_clamped (value : JSString) :
  (exists q, fpsInput Number value = Finite q /\ (10 <= q)%Q /\ (q <= 60)%Q) /\
  (exists q, transitionInput Number value = Finite q /\
             (100 <= q)%Q /\ (q <= 5000)%Q) /\
  (Number (Some value) = NaN \/ Number (Some value) = Finite 0 ->
   fpsInput Number value = Finite 30 /\ transitionInput Number value = Finite 800).
Proof.
  split; [| split].
  - unfold fpsInput. apply clamp_finite; [lra |].
    apply orElse_not_NaN. discriminate.
  - unfold transitionInput. apply clamp_finite; [lra |].
    apply orElse_not_NaN. discriminate.
  - unfold fpsInput, transitionInput. intros [-> | ->]; split; reflexivity.
Qed.

End InputFacts.

Lemma startLineInput_ge1_witness :
  Inputs.startLineInput ToNumber.Number (str "abc") = Finite 1 /\
  Inputs.startLineInput ToNumber.Number (str "2.5") = Finite (5 # 2).
Proof.
  split.
  - destruct (startLineInput_ge1 ToNumber.Number (str "abc")) as (_ & H & _).
    apply H. left. reflexivity.
  - destruct (startLineInput_ge1 ToNumber.Number (str "2.5")) as (_ & _ & H & _).
    apply H; [reflexivity | vm_compute; discriminate].
Defined.

Lemma fps_and_transition_inputs_clamped_witness :
  Inputs.fpsInput ToNumber.Number (str "0") = Finite 30 /\
  Inputs.transitionInput ToNumber.Number (str "0") = Finite 800.
Proof.
  destruct (fps_and_transition_inputs_clamped ToNumber.Number (str "0")) as (_ & _ & H).
  apply H. right. reflexivity.
Defined.

(** ** Block selection and the editor's line limit *)

Lemma Math_max_spec (a b : Qc) :
  a <= Math_max a b /\ b <= Math_max a b /\ (Math_max a b = a \/ Math_max a b = b).
Proof.
  unfold Math_max. destruct (leb a b) eqn:E.
  - apply leb_le in E. split; [exact E |]. split; [apply Qcle_refl | right; reflexivity].
  - apply leb_gt in E. split; [apply Qcle_refl |]. split; [| left; reflexivity].
    qc2q. lra.
Qed.

Lemma Math_min_spec (a b : Qc) :
  Math_min a b <= a /\ Math_min a b <= b /\ (Math_min a b = a \/ Math_min a b = b).
Proof.
  unfold Math_min. destruct (leb a b) eqn:E.
  - apply leb_le in E. split; [apply Qcle_refl |]. split; [exact E | left; reflexivity].
  - apply leb_gt in E. split; [qc2q; lra |]. split; [apply Qcle_refl | right; reflexivity].
Qed.

Section SelectionFacts.
Import Playback CodeEditor.

(** X21.  The clamped block index lies between 0 and the last block's
    index (0 when there is no block), and an index already in that range
    is kept. *)
Theorem clampBlockIndex_in_range (blocks : nat) (idx : Qc) :
  let r := clampBlockIndex blocks idx in
  0 <= r /\
  ((1 <= blocks)%nat -> r <= ofNat blocks - 1) /\
  (blocks = 0%nat -> r = 0) /\
  (0 <= idx -> idx <= ofNat blocks - 1 -> r = idx).
Proof.
  cbv zeta. unfold clampBlockIndex.
  assert (Hb : (1 <= blocks)%nat -> 0 <= ofNat blocks - 1).
  { intro H. destruct blocks as [| b]; [lia |]. rewrite ofNat_succ.
    pose proof (ofNat_nonneg b) as Hn. revert Hn. generalize (ofNat b).
    intros u Hn. qc2q. lra. }
  assert (Hz : blocks = 0%nat -> ofNat blocks - 1 < 0).
  { intros ->. unfold Qclt. vm_compute. reflexivity. }
  revert Hb Hz. generalize (ofNat blocks - 1). intros B Hb Hz.
  destruct (Math_max_spec 0 idx) as (M0 & Mi & Mc).
  destruct (Math_max_spec 0 B) as (X0 & XB & Xc).
  revert M0 Mi Mc X0 XB Xc.
  generalize (Math_max 0 idx), (Math_max 0 B). intros M X M0 Mi Mc X0 XB Xc.
  destruct (Math_min_spec M X) as (RM & RX & Rc).
  revert RM RX Rc. generalize (Math_min M X). intros r RM RX Rc.
  split; [| split; [| split]].
  - destruct Rc as [-> | ->]; assumption.
  - intro H. specialize (Hb H). destruct Xc as [-> | ->]; [| exact RX].
    qc2q. lra.
  - intro H. specialize (Hz H). apply Qc_is_canon.
    destruct Xc as [-> | ->]; [| qc2q; lra].
    assert (0 <= r) by (destruct Rc as [-> | ->]; assumption).
    qc2q. lra.
  - intros H0 Hi. apply Qc_is_canon.
    assert (HM : (M == idx)%Q) by (destruct Mc as [-> | ->]; qc2q; lra).
    destruct Rc as [-> | ->]; [exact HM |].
    qc2q. lra.
Qed.

(** X22.  With a line limit, the editor never passes on more lines than
    the limit: a value within the limit goes through unchanged, a longer
    one is cut to its first [maxLines] lines, so what is passed on is
    always a prefix of what was typed. *)
Theorem handleChange_line_limit (maxLines : nat) (newValue : JSString) :
  maxLines <> 0%nat ->
  (lineCount (handleChange maxLines newValue) <= maxLines)%nat /\
  (exists suffix, newValue = handleChange maxLines newValue ++ suffix) /\
  ((lineCount newValue <= maxLines)%nat -> handleChange maxLines newValue = newValue) /\
  ((maxLines < lineCount newValue)%nat ->
     split 10 (handleChange maxLines newValue) = firstn maxLines (split 10 newValue)).
Proof.
  intro Hm. unfold handleChange, lineCount.
  destruct (Nat.eqb_spec maxLines 0) as [E | _]; [contradiction |].
  destruct (Nat.ltb_spec maxLines (List.length (split 10 newValue))) as [Hlt | Hge].
  - assert (Hsplit : split 10 (join lineFeed (firstn maxLines (split 10 newValue))) =
                     firstn maxLines (split 10 newValue)).
    { unfold lineFeed. apply split_join.
      - intro E. apply (f_equal (@List.length _)) in E.
        rewrite length_firstn in E. cbn in E. lia.
      - pose proof (split_pieces_free 10 newValue) as Hfree.
        rewrite Forall_forall in *. intros l Hl. apply Hfree.
        rewrite <- (firstn_skipn maxLines (split 10 newValue)).
        apply in_or_app. left. exact Hl. }
    split; [| split; [| split]].
    + rewrite Hsplit, length_firstn. lia.
    + destruct (join_firstn_prefix lineFeed maxLines (split 10 newValue))
        as [suffix Hs].
      exists suffix. rewrite <- Hs. unfold lineFeed. symmetry. apply join_split.
    + intro H. lia.
    + intros _. exact Hsplit.
  - split; [exact Hge |]. split; [exists []; symmetry; apply app_nil_r |].
    split; [reflexivity | intro H; lia].
Qed.

End SelectionFacts.

Lemma clampBlockIndex_in_range_witness :
  Playback.clampBlockIndex 3 (num 1) = num 1.
Proof.
  destruct (clampBlockIndex_in_range 3 (num 1)) as (_ & _ & _ & H).
  apply H; unfold Qcle; vm_compute; discriminate.
Defined.

Lemma handleChange_line_limit_witness :
  split 10 (CodeEditor.handleChange 2 (join lineFeed [str "a"; str "b"; str "c"])) =
  firstn 2 (split 10 (join lineFeed [str "a"; str "b"; str "c"])).
Proof.
  destruct (handleChange_line_limit 2 (join lineFeed [str "a"; str "b"; str "c"]))
    as (_ & _ & _ & H).
  - discriminate.
  - apply H. cbn. lia.
Defined.
